(** * Prefab migration engine: a shallow embedding and its properties

    The development follows the two JavaScript sources of the repository:

    - [parserv3.js]: the tree projector ([CocosPrefabParser], [parsePrefab])
      and the identifier codec ([encodeUuid], [decodeUuid]);
    - the migration script: path matching ([buildPathMap]), the migration
      compiler ([generateMigrationInstructions],
      [generateRemovalInstructions], ...), the instruction applier
      ([applyMigrationInstructions], [applyRemovalInstructions],
      [applyStringReplaceInstructions]) and the compactor
      ([compactAndReindexPrefab]).

    JavaScript values are modelled by the inductive type [value]; objects are
    association lists in property-enumeration order, arrays are lists, a
    vacated array slot reads as [VUndef].  Strings are byte strings
    ([String.string]); numbers are integers ([Z]), which is what slot indices
    and array positions are.  Exceptions are an explicit result type.

    Two conventions delimit what the embedding says about the program.

    - A value is a tree, as [JSON.parse] delivers it.  The program updates
      records in place and copies values by reference; the embedding
      rebuilds the value.  The two agree as long as no object is reachable
      along two paths when an in-place pass (compaction, substitution) runs;
      where the program itself creates such sharing, the statements speak of
      what every visit leaves unchanged.
    - A property read is a lookup among the own properties of an object, and
      an index into the flat array is a number (or the decimal name of
      one).  The program agrees with this on plain documents: no property
      name, node name or component kind is the name of a member of
      [Object.prototype], and every [__id__] is a number.  On other inputs
      the program can read an inherited member, or fail where a method it
      calls ([hasOwnProperty], [toString]) is shadowed by a property of the
      data.  The statements that depend on this carry the hypothesis that
      the documents are plain. *)

From Stdlib Require Import ZArith List String Ascii Bool Lia Sorted.
From stdpp Require Import base option list strings gmap.

Local Open Scope string_scope.
Local Open Scope list_scope.
Local Open Scope Z_scope.

(* ===================================================================== *)
(** * JavaScript primitives shared by both sources                         *)
(* ===================================================================== *)

Module Js.

(** [ToInt32] of a value that may be [undefined] or [NaN]: the bit
    operators [<<], [>>], [&], [|] read both as 0. *)
Definition toInt32 (o : option Z) : Z := default 0 o.

(** [String.prototype.toLowerCase] on one ASCII code unit. *)
Definition toLowerAscii (c : ascii) : ascii :=
  let n := nat_of_ascii c in
  if ((65 <=? n)%nat && (n <=? 90)%nat)%bool then ascii_of_nat (n + 32) else c.

Definition toLowerCase (s : string) : string :=
  string_of_list_ascii (map toLowerAscii (list_ascii_of_string s)).

(** [parseInt(ch, 16)] on a single character (or [undefined]): the digit
    value, or [None] for [NaN]. *)
Definition parseInt16 (o : option ascii) : option Z :=
  match o with
  | None => None
  | Some c =>
      let n := nat_of_ascii c in
      if ((48 <=? n)%nat && (n <=? 57)%nat)%bool then Some (Z.of_nat (n - 48))
      else if ((97 <=? n)%nat && (n <=? 102)%nat)%bool then Some (Z.of_nat (n - 87))
      else if ((65 <=? n)%nat && (n <=? 70)%nat)%bool then Some (Z.of_nat (n - 55))
      else None
  end.

Definition HexChars : list ascii := list_ascii_of_string "0123456789abcdef".

(** [Number.prototype.toString(16)] on a non-negative integer. *)
Fixpoint toString16_aux (fuel : nat) (z : Z) : list ascii :=
  match fuel with
  | O => []
  | S fuel' =>
      let d := default "0"%char (HexChars !! Z.to_nat (z mod 16)) in
      if z <? 16 then [d] else toString16_aux fuel' (z / 16) ++ [d]
  end.

Definition toString16 (z : Z) : list ascii :=
  toString16_aux (S (Z.to_nat (Z.log2 z))) z.

(** [s.slice(a, b)] and [s.slice(a)] for in-range, non-negative bounds. *)
Definition slice {A} (a b : nat) (l : list A) : list A := take (b - a) (drop a l).
Definition slice_from {A} (a : nat) (l : list A) : list A := drop a l.

(** [arr.join("")] when elements may be [undefined]. *)
Fixpoint join_opt {A} (l : list (option A)) : list A :=
  match l with
  | [] => []
  | Some x :: l' => x :: join_opt l'
  | None :: l' => join_opt l'
  end.

(** The indices visited by [for (let i = start; i < stop; i += step)]. *)
Fixpoint for_range_aux (fuel start stop step : nat) : list nat :=
  match fuel with
  | O => []
  | S fuel' =>
      if (start <? stop)%nat then start :: for_range_aux fuel' (start + step) stop step
      else []
  end.

Definition for_range (start stop step : nat) : list nat :=
  for_range_aux stop start stop step.

End Js.

(* ===================================================================== *)
(** * Reference codec ([encodeUuid] / [decodeUuid])                        *)
(* ===================================================================== *)

Module Codec.
Import Js.

Definition BASE64_KEYS : list ascii :=
  list_ascii_of_string
    "ABCDEFGHIJKLMNOPQRSTUVWXYZabcdefghijklmnopqrstuvwxyz0123456789+/=".

(** The table is filled with the placeholder 64 and then the first 64 keys
    receive their index; the key at position 64 keeps the placeholder. *)
Definition BASE64_VALUES : list Z :=
  fold_left
    (fun arr i =>
       match BASE64_KEYS !! i with
       | Some k => <[nat_of_ascii k := Z.of_nat i]> arr
       | None => arr
       end)
    (seq 0 64) (replicate 123 64).

(** [r[e.charCodeAt(i)]]: [undefined] when the code is outside the table. *)
Definition base64_value (e : list ascii) (i : nat) : option Z :=
  c ← e !! i; BASE64_VALUES !! nat_of_ascii c.

(** One iteration of the decoding loop: three [push]es, from the two
    table entries [n] and [s]. *)
Definition decode_syms (n0 s0 : option Z) : list ascii :=
  let n := toInt32 n0 in
  let s := toInt32 s0 in
  toString16 (Z.shiftr n 2)
  ++ toString16 (Z.lor (Z.shiftl (Z.land n 3) 2) (Z.shiftr s 4))
  ++ toString16 (Z.land s 15).

Definition decode_pair (e : list ascii) (i : nat) : list ascii :=
  decode_syms (base64_value e i) (base64_value e (i + 1)).

Definition assemble (e : list ascii) : list ascii :=
  slice 0 8 e ++ "-"%char :: slice 8 12 e ++ "-"%char :: slice 12 16 e
  ++ "-"%char :: slice 16 20 e ++ "-"%char :: slice_from 20 e.

Definition decodeUuid (e0 : string) : string :=
  let e := list_ascii_of_string e0 in
  if (length e =? 23)%nat then
    let t := concat (map (decode_pair e) (for_range 5 23 2)) in
    string_of_list_ascii (assemble (slice 0 5 e ++ t))
  else if negb (length e =? 22)%nat then e0
  else
    let t := concat (map (decode_pair e) (for_range 2 22 2)) in
    string_of_list_ascii (assemble (slice 0 2 e ++ t)).

(** One iteration of the packing loop: two base64 symbols, from the three
    characters [hex[i]], [hex[i + 1]], [hex[i + 2]]. *)
Definition encode_syms (h1 h2 h3 : option ascii) : list (option ascii) :=
  let hexVal1 := toInt32 (parseInt16 h1) in
  let hexVal2 := toInt32 (parseInt16 h2) in
  let hexVal3 := toInt32 (parseInt16 h3) in
  [ BASE64_KEYS !! Z.to_nat (Z.lor (Z.shiftl hexVal1 2) (Z.shiftr hexVal2 2));
    BASE64_KEYS !! Z.to_nat (Z.lor (Z.shiftl (Z.land hexVal2 3) 4) hexVal3) ].

Definition encode_triple (hex : list ascii) (i : nat) : list (option ascii) :=
  encode_syms (hex !! i) (hex !! (i + 1)%nat) (hex !! (i + 2)%nat).

Definition remove_hyphens (l : list ascii) : list ascii :=
  List.filter (fun c => negb (Ascii.eqb c "-"%char)) l.

Definition encodeUuid (uuid : string) (min : bool) : string :=
  if negb (String.length uuid =? 36)%nat then uuid
  else
    let hex := map toLowerAscii (remove_hyphens (list_ascii_of_string uuid)) in
    let reserved := if min then 2%nat else 5%nat in
    let head := map (fun i => hex !! i) (seq 0 reserved) in
    let tail := concat (map (encode_triple hex) (for_range reserved 32 3)) in
    string_of_list_ascii (join_opt (head ++ tail)).

(** helpers *)
Definition isShortUUID (uuid : string) : bool := (String.length uuid =? 22)%nat.

Definition includes_char (c : ascii) (s : string) : bool :=
  existsb (Ascii.eqb c) (list_ascii_of_string s).

Definition isLongUUID (uuid : string) : bool :=
  (String.length uuid =? 36)%nat && includes_char "-"%char uuid.

Definition normalizeToShort (uuid : string) : string :=
  if isShortUUID uuid then uuid
  else if isLongUUID uuid then encodeUuid uuid false
  else uuid.

Definition normalizeToLong (uuid : string) : string :=
  if isLongUUID uuid then uuid
  else if isShortUUID uuid then decodeUuid uuid
  else uuid.

(** A syntactically valid long identifier: 36 characters, hyphens at
    offsets 8, 13, 18 and 23, hexadecimal digits (either case) elsewhere. *)
Definition is_hex_digit (c : ascii) : bool := bool_decide (is_Some (parseInt16 (Some c))).

Definition valid_long_uuid (s : string) : bool :=
  let l := list_ascii_of_string s in
  (length l =? 36)%nat
  && forallb
       (fun i =>
          match l !! i with
          | Some c =>
              if existsb (Nat.eqb i) [8; 13; 18; 23]%nat then Ascii.eqb c "-"%char
              else is_hex_digit c
          | None => false
          end)
       (seq 0 36).

Definition is_lower_hex (c : ascii) : bool := bool_decide (c ∈ HexChars).

(** The packing and unpacking loops of the 23-character form, on the list
    of hexadecimal digits. *)
Definition pack23 (hex : list ascii) : list ascii :=
  join_opt (map (fun i => hex !! i) (seq 0 5)
            ++ concat (map (encode_triple hex) (for_range 5 32 3))).

Definition unpack23 (e : list ascii) : list ascii :=
  slice 0 5 e ++ concat (map (decode_pair e) (for_range 5 23 2)).


(** Packing three lower-case digits and unpacking the two symbols gives the
    digits back; checked on the 16 * 16 * 16 triples. *)
Definition triple_ok (a b c : ascii) : bool :=
  match encode_syms (Some a) (Some b) (Some c) with
  | [Some s1; Some s2] =>
      bool_decide
        (decode_syms (BASE64_VALUES !! nat_of_ascii s1)
                     (BASE64_VALUES !! nat_of_ascii s2) = [a; b; c])
  | _ => false
  end.

End Codec.

(* ===================================================================== *)
(** * Graph model: JavaScript values                                       *)
(* ===================================================================== *)

(** A JSON-compatible value.  An object is the list of its own enumerable
    properties in enumeration order ([for ... in], [Object.entries]); a
    well-formed object has pairwise distinct keys.  Property names are
    enumerated in creation order, which is the order JavaScript uses for
    names that are not canonical array indices.  [VUndef] is both the result
    of reading an absent property and the content of a vacated array slot. *)
#[local] Unset Elimination Schemes.
Inductive value : Type :=
| VUndef
| VNull
| VBool (b : bool)
| VNum (n : Z)
| VStr (s : string)
| VArr (l : list value)
| VObj (kvs : list (string * value)).
#[local] Set Elimination Schemes.

(** Induction on values, with the hypothesis for every element and field. *)
Section value_ind.
Variable P : value → Prop.
Hypothesis HUndef : P VUndef.
Hypothesis HNull : P VNull.
Hypothesis HBool : ∀ b, P (VBool b).
Hypothesis HNum : ∀ n, P (VNum n).
Hypothesis HStr : ∀ s, P (VStr s).
Hypothesis HArr : ∀ l, Forall P l → P (VArr l).
Hypothesis HObj : ∀ kvs, Forall (fun kv => P (snd kv)) kvs → P (VObj kvs).

Fixpoint value_ind (v : value) : P v :=
  match v with
  | VUndef => HUndef
  | VNull => HNull
  | VBool b => HBool b
  | VNum n => HNum n
  | VStr s => HStr s
  | VArr l =>
      HArr l ((fix go (l : list value) : Forall P l :=
                 match l with
                 | [] => @List.Forall_nil _ P
                 | x :: l' => @List.Forall_cons _ P x l' (value_ind x) (go l')
                 end) l)
  | VObj kvs =>
      HObj kvs ((fix go (kvs : list (string * value))
                   : Forall (fun kv => P (snd kv)) kvs :=
                   match kvs with
                   | [] => @List.Forall_nil _ _
                   | kv :: kvs' =>
                       @List.Forall_cons _ (fun kv => P (snd kv)) kv kvs'
                         (value_ind (snd kv)) (go kvs')
                   end) kvs)
  end.
End value_ind.

Abbreviation obj := (list (string * value)).

(** Exceptions raised by the modelled code. *)
Inductive jsError : Type :=
| InvalidPrefabData   (* Error('Invalid prefab data format') *)
| RootNodeNotFound    (* Error('Root node not found') *)
| TypeError           (* a method called on a value that lacks it *)
| RangeError.         (* call stack exhausted *)

Inductive result (A : Type) : Type :=
| Ok (a : A)
| Throw (e : jsError).
Arguments Ok {A} a.
Arguments Throw {A} e.

(** Sequencing: an exception aborts the rest of the computation. *)
#[global] Instance result_ret : MRet result := fun A a => Ok a.
#[global] Instance result_bind : MBind result := fun A B k r =>
  match r with
  | Ok a => k a
  | Throw e => Throw e
  end.

Module Val.

(** Decidable equality on values ([===] on primitives; the program never
    compares objects). *)
Fixpoint eqb (a b : value) : bool :=
  match a, b with
  | VUndef, VUndef | VNull, VNull => true
  | VBool x, VBool y => Bool.eqb x y
  | VNum x, VNum y => (x =? y)%Z
  | VStr x, VStr y => String.eqb x y
  | VArr x, VArr y =>
      (fix go (x y : list value) : bool :=
         match x, y with
         | [], [] => true
         | a :: x', b :: y' => eqb a b && go x' y'
         | _, _ => false
         end) x y
  | VObj x, VObj y =>
      (fix go (x y : list (string * value)) : bool :=
         match x, y with
         | [], [] => true
         | (k, a) :: x', (k', b) :: y' => String.eqb k k' && eqb a b && go x' y'
         | _, _ => false
         end) x y
  | _, _ => false
  end.

(** ToBoolean. *)
Definition truthy (v : value) : bool :=
  match v with
  | VUndef | VNull => false
  | VBool b => b
  | VNum n => negb (n =? 0)%Z
  | VStr s => negb (String.eqb s "")
  | VArr _ | VObj _ => true
  end.

Definition is_undefined (v : value) : bool :=
  match v with VUndef => true | _ => false end.

(** [v === null || v === undefined]. *)
Definition is_nullish (v : value) : bool :=
  match v with VUndef | VNull => true | _ => false end.

Definition is_array (v : value) : bool :=
  match v with VArr _ => true | _ => false end.

(** [a || b]. *)
Definition or_else (a b : value) : value := if truthy a then a else b.

(** Own-property lookup in an object; [VUndef] when absent. *)
Fixpoint assoc_get {A} (k : string) (kvs : list (string * A)) : option A :=
  match kvs with
  | [] => None
  | (k', v) :: rest => if String.eqb k k' then Some v else assoc_get k rest
  end.

(** [o[k] = v]: overwrite in place when the key exists, append otherwise. *)
Fixpoint assoc_set {A} (k : string) (v : A) (kvs : list (string * A))
  : list (string * A) :=
  match kvs with
  | [] => [(k, v)]
  | (k', v') :: rest =>
      if String.eqb k k' then (k, v) :: rest else (k', v') :: assoc_set k v rest
  end.

Definition obj_get (k : string) (o : obj) : value := default VUndef (assoc_get k o).

(** [v.k] for the property names the program reads ([__type__], [__id__],
    [_parent], [_components], ...): none of them is a property of a
    primitive or of an array, where the read gives [undefined]. *)
Definition get (v : value) (k : string) : value :=
  match v with
  | VObj kvs => obj_get k kvs
  | _ => VUndef
  end.

(** [v.k = x].  On a primitive the assignment is dropped (sloppy mode); on
    an array it would create a named property that no later phase reads and
    serialization omits. *)
Definition set (v : value) (k : string) (x : value) : value :=
  match v with
  | VObj kvs => VObj (assoc_set k x kvs)
  | _ => v
  end.

(** [v.hasOwnProperty(k)] for an object. *)
Definition has_own (v : value) (k : string) : bool :=
  match v with
  | VObj kvs => bool_decide (is_Some (assoc_get k kvs))
  | _ => false
  end.

(** Decimal rendering of a number ([String(n)]). *)
Fixpoint digits_aux (fuel : nat) (n : N) (acc : list ascii) : list ascii :=
  match fuel with
  | O => acc
  | S fuel' =>
      let d := ascii_of_N (48 + n mod 10)%N in
      if (n <? 10)%N then d :: acc else digits_aux fuel' (n / 10)%N (d :: acc)
  end.

Definition string_of_N (n : N) : string :=
  string_of_list_ascii (digits_aux (S (N.to_nat (N.log2 n))) n []).

Definition string_of_Z (z : Z) : string :=
  if (z <? 0)%Z then ("-" ++ string_of_N (Z.to_N (- z)))%string
  else string_of_N (Z.to_N z).

(** ToString, as used for property keys and template literals, on values
    without a property named [toString] or [valueOf]; integers are rendered
    in decimal (JavaScript does so below 1e21). *)
Fixpoint toString (v : value) : string :=
  match v with
  | VUndef => "undefined"
  | VNull => "null"
  | VBool true => "true"
  | VBool false => "false"
  | VNum n => string_of_Z n
  | VStr s => s
  | VArr l =>
      (fix go (l : list value) : string :=
         match l with
         | [] => ""
         | [x] => if is_nullish x then "" else toString x
         | x :: rest =>
             ((if is_nullish x then "" else toString x) ++ "," ++ go rest)%string
         end) l
  | VObj _ => "[object Object]"
  end.

(** The array index a property key denotes, if any: a non-negative integer,
    or a string that is the canonical decimal form of one.  Other keys (the
    name of a member of the array, a list that renders as an index) denote
    none here; plain documents have numbers only. *)
Definition index_of_string (s : string) : option nat :=
  let l := list_ascii_of_string s in
  if forallb (fun c => (48 <=? nat_of_ascii c)%nat && (nat_of_ascii c <=? 57)%nat) l
     && negb (String.eqb s "")
  then
    let n := fold_left (fun acc c => (10 * acc + (N_of_ascii c - 48))%N) l 0%N in
    if String.eqb (string_of_N n) s then Some (N.to_nat n) else None
  else None.

Definition to_index (v : value) : option nat :=
  match v with
  | VNum n => if (0 <=? n)%Z then Some (Z.to_nat n) else None
  | VStr s => index_of_string s
  | _ => None
  end.

(** [data[id]] on the flat array. *)
Definition arr_get (data : list value) (id : value) : value :=
  match to_index id with
  | Some i => default VUndef (data !! i)
  | None => VUndef
  end.

(** [data[id] = v] for an index inside the array. *)
Definition arr_set (data : list value) (id : value) (v : value) : list value :=
  match to_index id with
  | Some i => <[i := v]> data
  | None => data
  end.

(** [delete data[id]]: the slot becomes a hole, the length is unchanged. *)
Definition arr_delete (data : list value) (id : value) : list value :=
  arr_set data id VUndef.

End Val.

(* ===================================================================== *)
(** * String primitives                                                    *)
(* ===================================================================== *)

Module Str.

(** [s.startsWith(p)]. *)
Definition startsWith (p s : string) : bool := String.prefix p s.

(** [s.includes(c)]. *)
Fixpoint includes (sub s : string) : bool :=
  String.prefix sub s
  || match s with
     | EmptyString => false
     | String _ s' => includes sub s'
     end.

(** [s.replace(from, to)] with a string pattern: the first occurrence only. *)
Fixpoint replace_first (from to s : string) : string :=
  if String.prefix from s then
    (to ++ String.substring (String.length from)
                            (String.length s - String.length from) s)%string
  else
    match s with
    | EmptyString => EmptyString
    | String c s' => String c (replace_first from to s')
    end.

(** [s.split(from).join(to)] for a non-empty separator: every occurrence,
    scanning left to right without overlap.  [skip] counts the characters
    of a matched separator that remain to be dropped. *)
Fixpoint split_join_go (from to : string) (skip : nat) (s : string) : string :=
  match s with
  | EmptyString => EmptyString
  | String c s' =>
      match skip with
      | S k => split_join_go from to k s'
      | O =>
          if String.prefix from s
          then (to ++ split_join_go from to (String.length from - 1) s')%string
          else String c (split_join_go from to O s')
      end
  end.

(** With the empty separator [split] yields the single characters. *)
Fixpoint intersperse (to : string) (s : string) : string :=
  match s with
  | EmptyString => EmptyString
  | String c EmptyString => String c EmptyString
  | String c s' => String c (to ++ intersperse to s')%string
  end.

Definition split_join (from to s : string) : string :=
  if String.eqb from "" then intersperse to s else split_join_go from to O s.

End Str.

(* ===================================================================== *)
(** * Tree projector ([CocosPrefabParser], [parsePrefab])                  *)
(* ===================================================================== *)

(** The node-info objects of the Tree View: [components] maps a component
    kind to the parsed component, [children] maps a child name to its
    node-info, [__nodeId__] is the originating slot, and [props] holds the
    optional [active], [position], [rotation], [euler], [scale]. *)
#[local] Unset Elimination Schemes.
Inductive tree : Type :=
| NodeInfo (components : list (string * obj)) (children : list (string * tree))
           (nodeId : value) (props : obj).
#[local] Set Elimination Schemes.

(** Induction on trees, with the hypothesis for every child. *)
Section tree_ind.
Variable P : tree → Prop.
Hypothesis HNode : ∀ comps kids id props,
  Forall (fun kv => P (snd kv)) kids → P (NodeInfo comps kids id props).

Fixpoint tree_ind (t : tree) : P t :=
  match t with
  | NodeInfo comps kids id props =>
      HNode comps kids id props
        ((fix go (kids : list (string * tree))
            : Forall (fun kv => P (snd kv)) kids :=
            match kids with
            | [] => @List.Forall_nil _ _
            | kv :: kids' =>
                @List.Forall_cons _ (fun kv => P (snd kv)) kv kids'
                  (tree_ind (snd kv)) (go kids')
            end) kids)
  end.
End tree_ind.

Definition components (t : tree) : list (string * obj) :=
  match t with NodeInfo c _ _ _ => c end.
Definition children (t : tree) : list (string * tree) :=
  match t with NodeInfo _ c _ _ => c end.
Definition nodeId (t : tree) : value :=
  match t with NodeInfo _ _ i _ => i end.
Definition props (t : tree) : obj :=
  match t with NodeInfo _ _ _ p => p end.

(** [for (const x of xs) acc = step(acc, x)] where [step] may throw. *)
Fixpoint foldM {A B} (step : A → B → result A) (acc : A) (xs : list B) : result A :=
  match xs with
  | [] => Ok acc
  | x :: rest => acc' ← step acc x; foldM step acc' rest
  end.

Module Parser.
Import Val.

Section WithData.
Variable prefabData : list value.

(** [buildMaps]: one pass over the array; slots are visited with their
    index, falsy items are skipped. *)
Definition buildMaps_step (maps : list (nat * value) * list (nat * value))
    (entry : nat * value) : result (list (nat * value) * list (nat * value)) :=
  let '(nodeMap, componentMap) := maps in
  let '(index, item) := entry in
  if negb (truthy item) then Ok maps
  else
    let type := get item "__type__" in
    if eqb type (VStr "cc.Node") then Ok (nodeMap ++ [(index, item)], componentMap)
    else if truthy type then
      match type with
      | VStr s =>
          if Str.startsWith "cc." s then Ok (nodeMap, componentMap ++ [(index, item)])
          else Ok maps
      | _ => Throw TypeError          (* type.startsWith is not a function *)
      end
    else Ok maps.

Definition buildMaps : result (list (nat * value) * list (nat * value)) :=
  foldM buildMaps_step ([], []) (imap (fun i item => (i, item)) prefabData).

(** [!node._parent || node._parent.__id__ === undefined] *)
Definition lacks_parent (node : value) : bool :=
  negb (truthy (get node "_parent"))
  || is_undefined (get (get node "_parent") "__id__").

Definition findRootNode (nodeMap : list (nat * value)) : option (nat * value) :=
  List.find (fun entry => lacks_parent (snd entry)) nodeMap.

Definition resolveReference (refId : value) : value :=
  let refData := arr_get prefabData refId in
  if negb (truthy refData) then VObj [("__ref__", refId)]
  else if truthy (get refData "__type__") then
    VObj [("__type__", get refData "__type__"); ("__ref__", refId)]
  else refData.

(** [value && typeof value === 'object' && value.__id__ !== undefined] *)
Definition is_reference (v : value) : bool :=
  truthy v
  && match v with VObj _ | VArr _ => true | _ => false end
  && negb (is_undefined (get v "__id__")).

(** [parseComponent]: every own property but [__type__], references
    resolved. *)
Definition parseComponent (component : value) : obj :=
  match component with
  | VObj kvs =>
      fold_left
        (fun result kv =>
           let '(key, v) := kv in
           if String.eqb key "__type__" then result
           else if is_reference v
                then assoc_set key (resolveReference (get v "__id__")) result
                else assoc_set key v result)
        kvs []
  | _ => []
  end.

Definition parseVector3 (data : value) : value :=
  if negb (truthy data) then VNull
  else VObj [("x", or_else (get data "x") (VNum 0));
             ("y", or_else (get data "y") (VNum 0));
             ("z", or_else (get data "z") (VNum 0))].

Definition parseQuaternion (data : value) : value :=
  if negb (truthy data) then VNull
  else VObj [("x", or_else (get data "x") (VNum 0));
             ("y", or_else (get data "y") (VNum 0));
             ("z", or_else (get data "z") (VNum 0));
             ("w", if is_undefined (get data "w") then VNum 1 else get data "w")].

(** The body of [_components.forEach]. *)
Definition parseNode_component (comps : list (string * obj)) (compRef : value)
  : result (list (string * obj)) :=
  if truthy compRef && negb (is_undefined (get compRef "__id__")) then
    let compId := get compRef "__id__" in
    let component := arr_get prefabData compId in
    if truthy component && truthy (get component "__type__") then
      match get component "__type__" with
      | VStr t =>
          let compType := Str.replace_first "cc." "" t in
          Ok (assoc_set compType
                (assoc_set "__compId__" compId (parseComponent component)) comps)
      | _ => Throw TypeError          (* __type__.replace is not a function *)
      end
    else Ok comps
  else Ok comps.

Definition parseNode_props (nodeData : value) : obj :=
  (if is_undefined (get nodeData "_active") then []
   else [("active", get nodeData "_active")])
  ++ (if truthy (get nodeData "_lpos")
      then [("position", parseVector3 (get nodeData "_lpos"))] else [])
  ++ (if truthy (get nodeData "_lrot")
      then [("rotation", parseQuaternion (get nodeData "_lrot"))] else [])
  ++ (if truthy (get nodeData "_euler")
      then [("euler", parseVector3 (get nodeData "_euler"))] else [])
  ++ (if truthy (get nodeData "_lscale")
      then [("scale", parseVector3 (get nodeData "_lscale"))] else []).

(** The elements a [forEach] over [v] visits when [v] is an array. *)
Definition array_items (v : value) : list value :=
  match v with
  | VArr l => if truthy v then l else []
  | _ => []
  end.

(** The guard of the body of [_children.forEach]: the child's name, slot
    and record when the reference designates a node record. *)
Definition child_of (childRef : value) : option (string * value * value) :=
  if truthy childRef && negb (is_undefined (get childRef "__id__")) then
    let childNode := arr_get prefabData (get childRef "__id__") in
    if truthy childNode && eqb (get childNode "__type__") (VStr "cc.Node") then
      let childName :=
        toString (or_else (get childNode "_name")
                    (VStr ("Node_" ++ toString (get childRef "__id__")))) in
      Some (childName, get childRef "__id__", childNode)
    else None
  else None.




(** [parseNode]; [depth] bounds the nesting of calls, exhausting it is the
    engine's [RangeError]. *)
Fixpoint parseNode (depth : nat) (nodeIndex : value) (nodeData : value)
  : result tree :=
  match depth with
  | O => Throw RangeError
  | S depth' =>
      comps ← foldM parseNode_component [] (array_items (get nodeData "_components"));
      kids ← foldM
        (fun kids childRef =>
           match child_of childRef with
           | Some (childName, childId, childNode) =>
               child ← parseNode depth' childId childNode;
               Ok (assoc_set childName child kids)
           | None => Ok kids
           end)
        [] (array_items (get nodeData "_children"));
      Ok (NodeInfo comps kids nodeIndex (parseNode_props nodeData))
  end.

(** The body of the loop over the child references. *)
Definition kid_step (depth : nat)
    (kids : list (string * tree)) (childRef : value) : result (list (string * tree)) :=
  match child_of childRef with
  | Some (childName, childId, childNode) =>
      child ← parseNode depth childId childNode;
      Ok (assoc_set childName child kids)
  | None => Ok kids
  end.


Definition buildNodeTree (depth : nat) (rootNodeInfo : nat * value)
  : result (list (string * tree)) :=
  let '(index, node) := rootNodeInfo in
  let nodeName := toString (or_else (get node "_name") (VStr "Root")) in
  t ← parseNode depth (VNum (Z.of_nat index)) node;
  Ok [(nodeName, t)].

End WithData.

(** ** Notions used to state what the projector does *)

(** A node record: a truthy item whose discriminator is ['cc.Node']. *)
Definition is_node_record (item : value) : bool :=
  truthy item && eqb (get item "__type__") (VStr "cc.Node").


(** The node records with their slots, in array order: the node table. *)
Definition node_records (data : list value) : list (nat * value) :=
  List.filter (fun entry => is_node_record (snd entry))
    (imap (fun i item => (i, item)) data).

(** An item on whose discriminator [startsWith] cannot be called: it is
    truthy and not a string. *)
Definition bad_discriminator (item : value) : bool :=
  truthy item && truthy (get item "__type__")
  && match get item "__type__" with VStr _ => false | _ => true end.

(** [parse()], on the document held by the parser object. *)
Definition parse (depth : nat) (prefabData : value) : result (list (string * tree)) :=
  match prefabData with
  | VArr data =>
      maps ← buildMaps data;
      match findRootNode (fst maps) with
      | None => Throw RootNodeNotFound
      | Some rootNode => buildNodeTree data depth rootNode
      end
  | _ => Throw InvalidPrefabData
  end.


Section WithJSON.
(** [JSON.parse], which the constructor applies to a string argument; it
    throws on malformed text. *)
Variable JSON_parse : string → result value.

Definition constructor (prefabData : value) : result value :=
  match prefabData with
  | VStr s => JSON_parse s
  | v => Ok v
  end.

(** The body of the [try] block: [new CocosPrefabParser(...)] and then
    [parser.parse()]. *)
Definition construct_and_parse (depth : nat) (prefabContent : value)
  : result (list (string * tree)) :=
  prefabData ← constructor prefabContent; parse depth prefabData.

(** [parsePrefab]: the tree, or [null] ([None]) when anything was thrown. *)
Definition parsePrefab (depth : nat) (prefabContent : value)
  : option (list (string * tree)) :=
  match construct_and_parse depth prefabContent with
  | Ok t => Some t
  | Throw _ => None
  end.

End WithJSON.

End Parser.

(* ===================================================================== *)
(** * Migration script: configuration                                      *)
(* ===================================================================== *)

Module Config.

(** A destination of a field map entry: one field name or several. *)
Inductive fieldTarget : Type :=
| One (field : string)
| Many (fields : list string).

Record transformRule : Type := {
  target : string;
  fieldMap : list (string * fieldTarget)
}.

Definition COMPONENT_TRANSFORM_RULES : list (string * list transformRule) :=
  [ ("UIOpacity",
      [ {| target := "Node"; fieldMap := [("_opacity", One "_opacity")] |} ]);
    ("UITransform",
      [ {| target := "Node";
           fieldMap := [("_anchorPoint", One "_anchorPoint");
                        ("_contentSize", One "_contentSize")] |} ]);
    ("Label",
      [ {| target := "Node"; fieldMap := [("_color", One "_color")] |};
        {| target := "Label";
           fieldMap := [("_verticalAlign", One "_N$verticalAlign");
                        ("_horizontalAlign", One "_N$horizontalAlign");
                        ("_fontFamily", One "_N$fontFamily");
                        ("_overflow", One "_N$overflow");
                        ("_cacheMode", One "_N$cacheMode");
                        ("_string", One "_N$string");
                        ("_font", One "_N$file")] |} ]);
    ("Sprite",
      [ {| target := "Node"; fieldMap := [("_color", One "_color")] |} ]);
    ("Button",
      [ {| target := "Button";
           fieldMap := [("_transition", Many ["_N$transition"; "transition"]);
                        ("_interactable", One "_N$interactable");
                        ("_normalColor", One "_N$normalColor");
                        ("_target", One "_N$target");
                        ("_duration", One "duration");
                        ("_zoomScale", One "zoomScale");
                        ("_hoverColor", Many ["_N$hoverColor"; "hoverColor"]);
                        ("_pressedColor", Many ["_N$pressedColor"; "pressedColor"]);
                        ("_disabledColor", Many ["_N$disabledColor"; "disabledColor"]);
                        ("_normalSprite", Many ["_N$normalSprite"; "normalSprite"]);
                        ("_hoverSprite", Many ["_N$hoverSprite"; "hoverSprite"]);
                        ("_pressedSprite", Many ["_N$pressedSprite"; "pressedSprite"]);
                        ("_disabledSprite", Many ["_N$disabledSprite"; "disabledSprite"])
                       ] |} ]) ].

(** An entry of the script identifier table; [scriptFieldMap] is [None]
    when the entry has no [fieldMap] property. *)
Record scriptRule : Type := {
  scriptTarget : string;
  scriptFieldMap : option (list (string * string))
}.

Definition SCRIPT_UUID_MAP : list (string * scriptRule) :=
  [ ("25f8fxwtsZCT7yF0lzyt5zU",
      {| scriptTarget := "8bab7e0c-0380-491c-b66f-b2bef75657c2";
         scriptFieldMap := None |});
    ("08e1e8nYqFCd7dX6KiiPt2N",
      {| scriptTarget := "0657750f-91c5-4c19-9bfb-6c10d21f4687";
         scriptFieldMap := None |});
    ("7d729a50-deea-4c4b-8e3a-d1159eb9a33a",
      {| scriptTarget := "a42b0a21-b23f-45bf-87b2-92143c8781da";
         scriptFieldMap := None |}) ].

(** [buildNormalizedScriptMap]: both identifiers in short form, and
    [config.fieldMap || {}] always present. *)
Definition buildNormalizedScriptMap (scriptMap : list (string * scriptRule))
  : list (string * scriptRule) :=
  fold_left
    (fun result entry =>
       let '(fromUUID, config) := entry in
       Val.assoc_set (Codec.normalizeToShort fromUUID)
         {| scriptTarget := Codec.normalizeToShort (scriptTarget config);
            scriptFieldMap := Some (default [] (scriptFieldMap config)) |}
         result)
    scriptMap [].

Definition NORMALIZED_SCRIPT_UUID_MAP : list (string * scriptRule) :=
  buildNormalizedScriptMap SCRIPT_UUID_MAP.

Definition COMPONENTS_TO_REMOVE : list string := ["UIOpacity"; "UITransform"].

Definition FIELD_WHITELIST : list (string * list string) := [].

End Config.

(* ===================================================================== *)
(** * Migration script: instructions                                       *)
(* ===================================================================== *)

(** The instructions consumed by [applyMigrationInstructions]. *)
Inductive instruction : Type :=
| TRANSFORM_TO_NODE (targetNodeId : value) (field : string) (val : value)
                    (source : string)
| TRANSFORM_TO_COMPONENT (targetCompId : value) (field : string) (val : value)
                         (source : string)
| MIGRATE_COMPONENT (targetCompId : value) (componentType : string)
                    (fields : list (string * value)).

(** [REMOVE_COMPONENT]; [compIndex] is the position [findIndex] returned. *)
Record removal : Type := {
  nodeId_of : value;
  compId_of : value;
  compType_of : string;
  compIndex_of : nat;
  nodePath_of : string
}.

(** [REPLACE_COMPONENT_TYPE] *)
Record replacement : Type := {
  rep_nodeId : value;
  rep_nodePath : string;
  rep_oldCompId : value;
  rep_oldCompType : string;
  rep_newCompType : string;
  rep_fieldsToMigrate : obj
}.

(** [REPLACE_STRING_GLOBAL], with a literal [from]. *)
Record substitution : Type := {
  subst_from : string;
  subst_to : string
}.

(* ===================================================================== *)
(** * Array primitives                                                     *)
(* ===================================================================== *)

Module Arr.

(** [arr.splice(i, 1)] for an index inside the array. *)
Definition splice1 {A} (i : nat) (l : list A) : list A := delete i l.

(** [arr.sort(cmp)]: the sort is stable; [cmp a b <= 0] keeps [a] first. *)
Fixpoint insert_sorted {A} (cmp : A → A → Z) (x : A) (l : list A) : list A :=
  match l with
  | [] => [x]
  | y :: l' => if (cmp x y <=? 0)%Z then x :: l else y :: insert_sorted cmp x l'
  end.

Definition sort {A} (cmp : A → A → Z) (l : list A) : list A :=
  fold_right (insert_sorted cmp) [] l.

(** [arr.findIndex(p)] where the predicate may throw; [None] is [-1]. *)
Fixpoint findIndex_from {A} (p : A → result bool) (i : nat) (l : list A)
  : result (option nat) :=
  match l with
  | [] => Ok None
  | x :: l' =>
      b ← p x;
      if b : bool then Ok (Some i) else findIndex_from p (S i) l'
  end.

Definition findIndex {A} (p : A → result bool) (l : list A) : result (option nat) :=
  findIndex_from p 0 l.

End Arr.

(* ===================================================================== *)
(** * Path matcher                                                         *)
(* ===================================================================== *)

Module PathMap.
Import Val.

(** [traverse(node, path)] inside [buildPathMap]; the path map is threaded
    through the walk. *)
Fixpoint traverse (node : tree) (path : string) (pathMap : list (string * tree))
  : list (string * tree) :=
  let pathMap := assoc_set path node pathMap in
  match node with
  | NodeInfo _ kids _ _ =>
      (fix go (kids : list (string * tree)) (pathMap : list (string * tree)) :=
         match kids with
         | [] => pathMap
         | (childName, childNode) :: rest =>
             let childPath :=
               if negb (String.eqb path "") then (path ++ "/" ++ childName)%string
               else childName in
             go rest (traverse childNode childPath pathMap)
         end) kids pathMap
  end.

(** The path of a child below a non-empty path. *)
Definition childPath (path childName : string) : string :=
  if negb (String.eqb path "") then (path ++ "/" ++ childName)%string else childName.

Definition buildPathMap (t : list (string * tree)) : list (string * tree) :=
  fold_left (fun pathMap entry => traverse (snd entry) (fst entry) pathMap) t [].

End PathMap.

(* ===================================================================== *)
(** * Compactor / reindexer                                                *)
(* ===================================================================== *)

Module Compact.
Import Val.

(** Step 1: the old index to new index table, with the running counter. *)
Definition index_step (st : gmap Z Z * Z) (entry : nat * value) : gmap Z Z * Z :=
  let '(oldToNewIdMap, newIndex) := st in
  let '(oldIndex, item) := entry in
  if negb (is_nullish item)
  then (<[Z.of_nat oldIndex := newIndex]> oldToNewIdMap, newIndex + 1)
  else st.

Definition build_index (prefabData : list value) : gmap Z Z * Z :=
  fold_left index_step (imap (fun i item => (i, item)) prefabData) (∅, 0).

(** Step 2: walking down from the last index, splice every tombstone out. *)
Definition splice_step (compactedData : list value) (i : nat) : list value :=
  if is_nullish (default VUndef (compactedData !! i))
  then Arr.splice1 i compactedData
  else compactedData.

Definition splice_tombstones (prefabData : list value) : list value :=
  fold_left splice_step (rev (seq 0 (length prefabData))) prefabData.

(** [oldToNewIdMap.get(oldId)]: only a number can equal a key. *)
Definition map_get (oldToNewIdMap : gmap Z Z) (oldId : value) : option Z :=
  match oldId with
  | VNum n => oldToNewIdMap !! n
  | _ => None
  end.

(** The new content of an [__id__] property: rewritten when the table knows
    the old index, left as it is (with a warning) otherwise. *)
Definition remap (oldToNewIdMap : gmap Z Z) (oldId : value) : value :=
  match map_get oldToNewIdMap oldId with
  | Some newId => VNum newId
  | None => oldId
  end.

(** Step 3: [updateReferences], on an object with distinct keys.  The
    program asks [obj.hasOwnProperty(...)], which fails on an object that
    owns a property of that name: plain documents have none.  The program
    rewrites in place, once for every path that leads to an object; on a
    tree that is once. *)
Fixpoint updateReferences (oldToNewIdMap : gmap Z Z) (o : value) : value :=
  match o with
  | VArr l => VArr (map (updateReferences oldToNewIdMap) l)
  | VObj kvs =>
      VObj (map (fun kv =>
                   if String.eqb (fst kv) "__id__"
                   then (fst kv, remap oldToNewIdMap (snd kv))
                   else (fst kv, updateReferences oldToNewIdMap (snd kv)))
              kvs)
  | _ => o
  end.

Definition compactAndReindexPrefab (prefabData : list value) : list value :=
  let oldToNewIdMap := fst (build_index prefabData) in
  let compactedData := splice_tombstones prefabData in
  map (updateReferences oldToNewIdMap) compactedData.

(** ** Notions used to state what compaction does *)

(** A live record: [item !== null && item !== undefined]. *)
Definition is_live (v : value) : bool := negb (is_nullish v).

Definition live_records (prefabData : list value) : list value :=
  List.filter is_live prefabData.

(** The contents of the [__id__] properties of the reference objects that
    [updateReferences] visits in a value, in visiting order. *)
Fixpoint ref_ids (o : value) : list value :=
  match o with
  | VArr l => flat_map ref_ids l
  | VObj kvs =>
      flat_map (fun kv => if String.eqb (fst kv) "__id__" then [snd kv]
                          else ref_ids (snd kv)) kvs
  | _ => []
  end.

(** A value with the content of every visited [__id__] property erased. *)
Fixpoint skeleton (o : value) : value :=
  match o with
  | VArr l => VArr (map skeleton l)
  | VObj kvs =>
      VObj (map (fun kv => if String.eqb (fst kv) "__id__" then (fst kv, VNull)
                           else (fst kv, skeleton (snd kv))) kvs)
  | _ => o
  end.

(** The new index of old slot [z]: the number of live records before it,
    when the slot exists and is live. *)
Definition new_index (prefabData : list value) (z : Z) : option Z :=
  if (0 <=? z)%Z then
    match prefabData !! Z.to_nat z with
    | Some v =>
        if is_live v
        then Some (Z.of_nat (length (live_records (take (Z.to_nat z) prefabData))))
        else None
    | None => None
    end
  else None.

(** [id] is a valid index into an array of [n] records. *)
Definition valid_index (n : nat) (id : value) : Prop :=
  ∃ z, id = VNum z ∧ (0 <= z < Z.of_nat n)%Z.

(** How compaction treats one reference: [old] is the content of an
    [__id__] property before, [new] its content after. *)
Definition ref_rewritten (prefabData : list value) (old new : value) : Prop :=
  match old with
  | VNum z =>
      match new_index prefabData z with
      | Some z' =>
          new = VNum z'
          ∧ (0 <= z' < Z.of_nat (length (live_records prefabData)))%Z
          ∧ live_records prefabData !! Z.to_nat z' = prefabData !! Z.to_nat z
      | None => new = old
      end
  | _ => new = old
  end.

(** Every reference held by a live record targets a live slot. *)
Definition no_dangling (prefabData : list value) : bool :=
  forallb
    (fun rec =>
       forallb (fun id => match id with
                          | VNum z => bool_decide (is_Some (new_index prefabData z))
                          | _ => false
                          end)
               (ref_ids rec))
    (live_records prefabData).

(** The compaction invariant as the specification words it: [N] records,
    every reference a valid index below [N], order of the live records
    kept. *)
Definition compaction_claim (prefabData : list value) : Prop :=
  let out := compactAndReindexPrefab prefabData in
  let n := length (live_records prefabData) in
  length out = n
  ∧ Forall (fun rec => Forall (valid_index n) (ref_ids rec)) out
  ∧ map skeleton out = map skeleton (live_records prefabData).

End Compact.

(* ===================================================================== *)
(** * Migration compiler                                                   *)
(* ===================================================================== *)

Module Compiler.
Import Val Config.

Definition shouldMigrateField (compType fieldName : string) : bool :=
  if String.eqb fieldName "node" || String.eqb fieldName "__compId__"
     || String.eqb fieldName "__ref__"
  then false
  else
    match assoc_get compType FIELD_WHITELIST with
    | Some allowed => existsb (String.eqb fieldName) allowed
    | None => true
    end.

(** [Array.isArray(v2Field) ? v2Field : [v2Field]] *)
Definition targets (v2Field : fieldTarget) : list string :=
  match v2Field with
  | One f => [f]
  | Many fs => fs
  end.

(** [value.__type__ && value.__ref__]: the projected form of a resolved
    reference. *)
Definition is_projected_ref (v : value) : bool :=
  truthy (get v "__type__") && truthy (get v "__ref__").

(** The instructions one transform rule emits for a source component. *)
Definition rule_instructions (v2Node : tree) (compType : string) (v3Comp : obj)
    (rule : transformRule) : list instruction :=
  if String.eqb (target rule) "Node" then
    flat_map
      (fun entry =>
         let '(v3Field, v2Field) := entry in
         let v := obj_get v3Field v3Comp in
         if negb (is_nullish v) then
           map (fun field =>
                  TRANSFORM_TO_NODE (nodeId v2Node) field v
                    (compType ++ "." ++ v3Field)%string)
               (targets v2Field)
         else [])
      (fieldMap rule)
  else
    match assoc_get (target rule) (components v2Node) with
    | Some v2TargetComp =>
        flat_map
          (fun entry =>
             let '(v3Field, v2Field) := entry in
             let v0 := obj_get v3Field v3Comp in
             if negb (is_nullish v0) then
               let v := if is_projected_ref v0
                        then VObj [("__id__", get v0 "__ref__")] else v0 in
               map (fun field =>
                      TRANSFORM_TO_COMPONENT (obj_get "__compId__" v2TargetComp)
                        field v (compType ++ "." ++ v3Field)%string)
                   (targets v2Field)
             else [])
          (fieldMap rule)
    | None => []
    end.

(** The fields the generic migration collects for a matched component. *)
Definition fieldsToMigrate (compType : string) (v3Comp v2Comp : obj)
  : list (string * value) :=
  flat_map
    (fun entry =>
       let '(fieldName, v) := entry in
       let value2 := obj_get fieldName v2Comp in
       if is_nullish v || is_undefined value2 then []
       else if is_projected_ref v then []
       else if shouldMigrateField compType fieldName then [(fieldName, v)]
       else [])
    v3Comp.

(** The body of the loop over the components of a matched source node.
    The rule table and the component mapping are read by own property: the
    component kinds of a plain document are no names of members of
    [Object.prototype]. *)
Definition component_instructions (v2Node : tree) (entry : string * obj)
  : list instruction :=
  let '(compType, v3Comp) := entry in
  let transformed :=
    match assoc_get compType COMPONENT_TRANSFORM_RULES with
    | Some transformRules =>
        flat_map (rule_instructions v2Node compType v3Comp) transformRules
    | None => []
    end in
  match assoc_get compType (components v2Node) with
  | None => transformed
  | Some v2Comp =>
      let fields := fieldsToMigrate compType v3Comp v2Comp in
      match fields with
      | [] => transformed
      | _ => transformed
             ++ [MIGRATE_COMPONENT (obj_get "__compId__" v2Comp) compType fields]
      end
  end.

Definition node_instructions (v2PathMap : list (string * tree))
    (entry : string * tree) : list instruction :=
  let '(nodePath, v3Node) := entry in
  match assoc_get nodePath v2PathMap with
  | None => []
  | Some v2Node => flat_map (component_instructions v2Node) (components v3Node)
  end.

Definition generateMigrationInstructions (v3PathMap v2PathMap : list (string * tree))
  : list instruction :=
  flat_map (node_instructions v2PathMap) v3PathMap.


(** The predicate given to [findIndex]: [ref.__id__ === compId]. *)
Definition ref_is (compId : value) (ref : value) : result bool :=
  if is_nullish ref then Throw TypeError
  else Ok (eqb (get ref "__id__") compId).

(** The removals planned for one component of one target node. *)
Definition removal_for (v2PrefabData : list value) (nodePath : string)
    (v2Node : tree) (entry : string * obj) : result (list removal) :=
  let '(compType, v2Comp) := entry in
  if existsb (String.eqb compType) COMPONENTS_TO_REMOVE then
    let nodeData := arr_get v2PrefabData (nodeId v2Node) in
    if truthy nodeData && truthy (get nodeData "_components") then
      match get nodeData "_components" with
      | VArr refs =>
          compIndex ← Arr.findIndex (ref_is (obj_get "__compId__" v2Comp)) refs;
          match compIndex with
          | Some i =>
              Ok [ {| nodeId_of := nodeId v2Node;
                      compId_of := obj_get "__compId__" v2Comp;
                      compType_of := compType;
                      compIndex_of := i;
                      nodePath_of := nodePath |} ]
          | None => Ok []
          end
      | _ => Throw TypeError          (* findIndex is not a function *)
      end
    else Ok []
  else Ok [].

(** The removals of a step that did not throw. *)
Definition ok_or_nil {A} (r : result (list A)) : list A :=
  match r with
  | Ok l => l
  | Throw _ => []
  end.

Definition generateRemovalInstructions (v2PathMap : list (string * tree))
    (v2PrefabData : list value) : result (list removal) :=
  foldM
    (fun acc entry =>
       let '(nodePath, v2Node) := entry in
       foldM (fun acc comp =>
                rs ← removal_for v2PrefabData nodePath v2Node comp;
                Ok (acc ++ rs))
             acc (components v2Node))
    [] v2PathMap.

(** The removals planned for a path map, as a list comprehension. *)
Definition planned (data : list value) (pm : list (string * tree)) : list removal :=
  flat_map
    (fun entry =>
       flat_map (fun kc => ok_or_nil (removal_for data (fst entry) (snd entry) kc))
         (components (snd entry)))
    pm.

(** The field values a type replacement carries. *)
Definition script_fields (v3CompType : string) (v3Comp : obj) (rule : scriptRule)
  : obj :=
  match scriptFieldMap rule with
  | Some fm =>
      fold_left
        (fun acc entry =>
           let '(v3Field, v2Field) := entry in
           let v := obj_get v3Field v3Comp in
           if negb (is_nullish v) then assoc_set v2Field v acc else acc)
        fm []
  | None =>
      fold_left
        (fun acc entry =>
           let '(fieldName, v) := entry in
           if is_nullish v then acc
           else if shouldMigrateField v3CompType fieldName
                then assoc_set fieldName v acc else acc)
        v3Comp []
  end.

Definition generateScriptReplacementInstructions
    (v3PathMap v2PathMap : list (string * tree)) : list replacement :=
  flat_map
    (fun entry =>
       let '(nodePath, v3Node) := entry in
       match assoc_get nodePath v2PathMap with
       | None => []
       | Some v2Node =>
           flat_map
             (fun comp =>
                let '(v3CompType, v3Comp) := comp in
                match assoc_get v3CompType NORMALIZED_SCRIPT_UUID_MAP with
                | None => []
                | Some mappingRule =>
                    match assoc_get v3CompType (components v2Node) with
                    | None => []
                    | Some v2CompToReplace =>
                        [ {| rep_nodeId := nodeId v2Node;
                             rep_nodePath := nodePath;
                             rep_oldCompId := obj_get "__compId__" v2CompToReplace;
                             rep_oldCompType := v3CompType;
                             rep_newCompType := scriptTarget mappingRule;
                             rep_fieldsToMigrate :=
                               script_fields v3CompType v3Comp mappingRule |} ]
                    end
                end)
             (components v3Node)
       end)
    v3PathMap.

(** [a.from.includes('@')] *)
Definition hasAt (s : substitution) : bool := Str.includes "@" (subst_from s).

(** The comparator of the sort: entries with [@] first. *)
Definition at_first (a b : substitution) : Z :=
  if hasAt a && negb (hasAt b) then (-1)
  else if negb (hasAt a) && hasAt b then 1
  else 0.

(** [generateGlobalStringReplaceInstructions], given the identifier mapping
    ([key], [mapping[key].v2Uuid]) in key order, which the source computes
    from two files it reads. *)
Definition generateGlobalStringReplaceInstructions
    (mapping : list (string * string)) : list substitution :=
  let res := map (fun kv => {| subst_from := fst kv; subst_to := snd kv |}) mapping in
  Arr.sort at_first res ++ [ {| subst_from := "@f9941"; subst_to := "@6c48a" |} ].

End Compiler.

(* ===================================================================== *)
(** * Instruction applier                                                  *)
(* ===================================================================== *)

Module Applier.
Import Val.

(** One turn of the [switch] in [applyMigrationInstructions].  The line the
    program logs renders the target and, for [TRANSFORM_TO_NODE], the value:
    that cannot fail for a numeric target and a plain value. *)
Definition apply_instruction (v2PrefabData : list value) (ins : instruction)
  : list value :=
  match ins with
  | TRANSFORM_TO_NODE targetNodeId field v _ =>
      let node := arr_get v2PrefabData targetNodeId in
      if truthy node && eqb (get node "__type__") (VStr "cc.Node")
      then arr_set v2PrefabData targetNodeId (set node field v)
      else v2PrefabData
  | TRANSFORM_TO_COMPONENT targetCompId field v _ =>
      let comp := arr_get v2PrefabData targetCompId in
      if truthy comp
      then arr_set v2PrefabData targetCompId (set comp field v)
      else v2PrefabData
  | MIGRATE_COMPONENT targetCompId _ fields =>
      let comp := arr_get v2PrefabData targetCompId in
      if truthy comp
      then arr_set v2PrefabData targetCompId
             (fold_left (fun c fv => set c (fst fv) (snd fv)) fields comp)
      else v2PrefabData
  end.

Definition applyMigrationInstructions (v2PrefabData : list value)
    (instructions : list instruction) : list value :=
  fold_left apply_instruction instructions v2PrefabData.

(** [x.length] for the values a [_components] property can hold. *)
Definition js_length (v : value) : option Z :=
  match v with
  | VArr l => Some (Z.of_nat (length l))
  | VStr s => Some (Z.of_nat (String.length s))
  | VObj kvs => match obj_get "length" kvs with VNum n => Some n | _ => None end
  | _ => None
  end.

(** One turn of the loop in [applyRemovalInstructions]. *)
Definition apply_removal (v2PrefabData : list value) (ins : removal)
  : result (list value) :=
  let node := arr_get v2PrefabData (nodeId_of ins) in
  let comp := arr_get v2PrefabData (compId_of ins) in
  if truthy node && truthy (get node "_components") then
    spliced ←
      match js_length (get node "_components") with
      | Some len =>
          if (Z.of_nat (compIndex_of ins) <? len)%Z then
            match get node "_components" with
            | VArr refs =>
                Ok (arr_set v2PrefabData (nodeId_of ins)
                      (set node "_components"
                         (VArr (Arr.splice1 (compIndex_of ins) refs))))
            | _ => Throw TypeError    (* splice is not a function *)
            end
          else Ok v2PrefabData
      | None => Ok v2PrefabData
      end;
    Ok (if truthy comp then arr_delete spliced (compId_of ins) else spliced)
  else Ok v2PrefabData.

(** The comparator [(a, b) => b.compIndex - a.compIndex]. *)
Definition by_compIndex_desc (a b : removal) : Z :=
  Z.of_nat (compIndex_of b) - Z.of_nat (compIndex_of a).

(** The removal loop, before the final compaction. *)
Definition removal_loop (v2PrefabData : list value)
    (removalInstructions : list removal) : result (list value) :=
  foldM apply_removal v2PrefabData (Arr.sort by_compIndex_desc removalInstructions).

Definition applyRemovalInstructions (v2PrefabData : list value)
    (removalInstructions : list removal) : result (list value) :=
  data ← removal_loop v2PrefabData removalInstructions;
  Ok (Compact.compactAndReindexPrefab data).

(** ** Notions used to state what the removal loop does *)

Definition node_slot (r : removal) : option nat := to_index (nodeId_of r).
Definition comp_slot (r : removal) : option nat := to_index (compId_of r).

(** The positions recorded for the node in slot [nid]. *)
Definition positions (rs : list removal) (nid : nat) : list nat :=
  map compIndex_of
    (List.filter (fun r => bool_decide (node_slot r = Some nid)) rs).

(** The elements of [l] whose position (counted from [i]) is not listed,
    in their order. *)
Fixpoint remove_at {A} (ps : list nat) (i : nat) (l : list A) : list A :=
  match l with
  | [] => []
  | x :: l' =>
      if existsb (Nat.eqb i) ps then remove_at ps (S i) l'
      else x :: remove_at ps (S i) l'
  end.

Definition remove_positions {A} (ps : list nat) (l : list A) : list A :=
  remove_at ps 0 l.



(** The array the removal loop leaves: the component slots vacated, the
    listed positions taken out of the nodes' reference lists. *)
Definition removed_slot (rs : list removal) (i : nat) (v : value) : value :=
  if existsb (fun r => bool_decide (comp_slot r = Some i)) rs && truthy v
  then VUndef
  else
    match v with
    | VObj o =>
        match obj_get "_components" o with
        | VArr refs =>
            VObj (assoc_set "_components"
                    (VArr (remove_positions (positions rs i) refs)) o)
        | _ => v
        end
    | _ => v
    end.

Definition removed_state (data : list value) (rs : list removal) : list value :=
  imap (removed_slot rs) data.




(** One turn of the loop in [applyScriptReplacementInstructions]. *)
Definition apply_replacement (v2PrefabData : list value) (ins : replacement)
  : list value :=
  let node := arr_get v2PrefabData (rep_nodeId ins) in
  let oldComp := arr_get v2PrefabData (rep_oldCompId ins) in
  if negb (truthy node) || negb (truthy oldComp) then v2PrefabData
  else
    let retyped :=
      if truthy (get oldComp "__type__")
      then set oldComp "__type__" (VStr (rep_newCompType ins)) else oldComp in
    arr_set v2PrefabData (rep_oldCompId ins)
      (fold_left (fun c fv => set c (fst fv) (snd fv)) (rep_fieldsToMigrate ins)
         retyped).

Definition applyScriptReplacementInstructions (v2PrefabData : list value)
    (instructions : list replacement) : list value :=
  Compact.compactAndReindexPrefab (fold_left apply_replacement instructions v2PrefabData).

(** [replaceString] with a literal [from]. *)
Definition replaceString (str from to : string) : string :=
  if Str.includes from str then Str.split_join from to str else str.

(** [traverse(obj, from, to)]: strings held by arrays and objects are
    replaced in place; a string passed directly is returned to a caller that
    drops it. *)
Fixpoint traverse (from to : string) (o : value) : value :=
  match o with
  | VArr l =>
      VArr (map (fun v => match v with
                          | VStr s => VStr (replaceString s from to)
                          | _ => traverse from to v
                          end) l)
  | VObj kvs =>
      VObj (map (fun kv => (fst kv,
                            match snd kv with
                            | VStr s => VStr (replaceString s from to)
                            | _ => traverse from to (snd kv)
                            end)) kvs)
  | _ => o
  end.

Definition applyStringReplaceInstructions (prefabData : list value)
    (instructions : list substitution) : list value :=
  fold_left
    (fun data ins => map (traverse (subst_from ins) (subst_to ins)) data)
    instructions prefabData.

(** ** Notions used to state what the substitution pass does *)

(** A value with [f] applied to every string held by an array or an object
    inside it. *)
Fixpoint map_strings (f : string → string) (o : value) : value :=
  match o with
  | VArr l =>
      VArr (map (fun v => match v with
                          | VStr s => VStr (f s)
                          | _ => map_strings f v
                          end) l)
  | VObj kvs =>
      VObj (map (fun kv => (fst kv,
                            match snd kv with
                            | VStr s => VStr (f s)
                            | _ => map_strings f (snd kv)
                            end)) kvs)
  | _ => o
  end.


(** What a list of substitutions, applied in order, makes of one string. *)
Definition string_pass (instructions : list substitution) (s : string) : string :=
  fold_left (fun s ins => replaceString s (subst_from ins) (subst_to ins))
    instructions s.

(** Every pair whose [from] contains [@] stands before every pair whose
    [from] does not. *)
Definition at_pairs_first (l : list substitution) : Prop :=
  ∀ i j a b, l !! i = Some a → l !! j = Some b →
             Compiler.hasAt a = true → Compiler.hasAt b = false → (i < j)%nat.

End Applier.

(* ===================================================================== *)
(** * Well-formed path maps                                                *)
(* ===================================================================== *)

(** Notions used to state the properties of the compiler and the applier:
    the slots a path map addresses, and what it takes for a path map to
    describe an array. *)
Module Shape.
Import Val.

(** The slot a parsed component came from. *)
Definition comp_id (c : obj) : value := obj_get "__compId__" c.




(** The record in the slot of a parsed component is an object whose
    discriminator, with the first ["cc."] dropped, is the component kind. *)
Definition comp_ok (data : list value) (kc : string * obj) : bool :=
  match arr_get data (comp_id (snd kc)) with
  | VObj o =>
      match obj_get "__type__" o with
      | VStr t => negb (String.eqb t "")
                  && String.eqb (fst kc) (Str.replace_first "cc." "" t)
      | _ => false
      end
  | _ => false
  end.

(** The record in the slot of a node-info is a node record, its components
    are in their slots, and its component-reference list refers to each. *)
Definition node_ok (data : list value) (n : tree) : bool :=
  Parser.is_node_record (arr_get data (nodeId n))
  && forallb (comp_ok data) (components n)
  && forallb
       (fun kc =>
          existsb (fun ref => truthy ref && eqb (get ref "__id__") (comp_id (snd kc)))
            (Parser.array_items (get (arr_get data (nodeId n)) "_components")))
       (components n).

Definition pathmap_ok (data : list value) (pm : list (string * tree)) : bool :=
  forallb (fun entry => node_ok data (snd entry)) pm.

(** Node-infos, component mappings and parsed components are objects: their
    keys are pairwise distinct. *)
Definition distinct_keys (pm : list (string * tree)) : Prop :=
  NoDup (map fst pm)
  ∧ Forall (fun entry =>
              NoDup (map fst (components (snd entry)))
              ∧ Forall (fun kc => NoDup (map fst (snd kc))) (components (snd entry)))
      pm.

(** A Tree View node whose node-infos all describe the array. *)
#[local] Unset Elimination Schemes.
Inductive tree_wf (data : list value) : tree → Prop :=
| tree_wf_node comps kids id props :
    node_ok data (NodeInfo comps kids id props) = true →
    NoDup (map fst comps) →
    Forall (fun kc => NoDup (map fst (snd kc))) comps →
    NoDup (map fst kids) →
    Forall (fun kv => tree_wf data (snd kv)) kids →
    tree_wf data (NodeInfo comps kids id props).
#[local] Set Elimination Schemes.

(** The slot an instruction addresses. *)
Definition target_slot (ins : instruction) : option nat :=
  match ins with
  | TRANSFORM_TO_NODE targetNodeId _ _ _ => to_index targetNodeId
  | TRANSFORM_TO_COMPONENT targetCompId _ _ _ => to_index targetCompId
  | MIGRATE_COMPONENT targetCompId _ _ => to_index targetCompId
  end.

(** The field an instruction assigns, for the instructions that assign
    one field. *)
Definition writes_field (ins : instruction) (f : string) : bool :=
  match ins with
  | TRANSFORM_TO_NODE _ field _ _ => String.eqb field f
  | TRANSFORM_TO_COMPONENT _ field _ _ => String.eqb field f
  | MIGRATE_COMPONENT _ _ fields => existsb (fun fv => String.eqb (fst fv) f) fields
  end.


(** A record of a kind in the removal list: its discriminator, with the
    first ["cc."] dropped as the Tree View does, is listed in
    [COMPONENTS_TO_REMOVE]. *)
Definition has_removed_kind (v : value) : bool :=
  match get v "__type__" with
  | VStr t =>
      existsb (String.eqb (Str.replace_first "cc." "" t)) Config.COMPONENTS_TO_REMOVE
  | _ => false
  end.




(** What the loop over the component references [refs] maintains. *)
Definition comps_inv (data : list value) (refs : list value)
    (comps : list (string * obj)) : Prop :=
  NoDup (map fst comps)
  ∧ Forall (fun kc =>
              comp_ok data kc = true ∧ NoDup (map fst (snd kc))
              ∧ existsb (fun ref => truthy ref
                                    && eqb (get ref "__id__") (comp_id (snd kc)))
                  refs = true)
      comps.

(** What the walk that builds the path map maintains. *)
Definition pathmap_inv (data : list value) (pm : list (string * tree)) : Prop :=
  NoDup (map fst pm)
  ∧ Forall (fun entry =>
              node_ok data (snd entry) = true
              ∧ NoDup (map fst (components (snd entry)))
              ∧ Forall (fun kc => NoDup (map fst (snd kc))) (components (snd entry)))
      pm.

End Shape.

(* ===================================================================== *)
(** * Main migration flow                                                  *)
(* ===================================================================== *)

Module Pipeline.
Import Val.

Section WithEnvironment.
Variable JSON_parse : string → result value.
(** The nesting the engine's call stack allows to [parseNode]. *)
Variable depth : nat.
(** The identifier mapping computed from the two auxiliary tables. *)
Variable uuidMapping : list (string * string).

(** [buildPathMap(tree)]: a [null] tree makes [Object.entries] throw. *)
Definition pathMapOf (t : option (list (string * tree)))
  : result (list (string * tree)) :=
  match t with
  | Some t => Ok (PathMap.buildPathMap t)
  | None => Throw TypeError
  end.

(** [migratePrefab].  The values that step 4 and step 5 copy into the
    target are shared with the source tree in the program and copied here;
    the later passes change nothing in them but the contents of references
    and strings. *)
Definition migratePrefab (v3PrefabData v2PrefabData : value) : result (list value) :=
  let v3Tree := Parser.parsePrefab JSON_parse depth v3PrefabData in
  let v2Tree := Parser.parsePrefab JSON_parse depth v2PrefabData in
  v3PathMap ← pathMapOf v3Tree;
  v2PathMap ← pathMapOf v2Tree;
  let instructions := Compiler.generateMigrationInstructions v3PathMap v2PathMap in
  let scriptInstructions :=
    Compiler.generateScriptReplacementInstructions v3PathMap v2PathMap in
  match v2PrefabData with
  | VArr data =>
      let result := Applier.applyMigrationInstructions data instructions in
      let result := Applier.applyScriptReplacementInstructions result scriptInstructions in
      removalInstructions ← Compiler.generateRemovalInstructions v2PathMap result;
      result ← Applier.applyRemovalInstructions result removalInstructions;
      let stringReplaceInstructions :=
        Compiler.generateGlobalStringReplaceInstructions uuidMapping in
      Ok (Applier.applyStringReplaceInstructions result stringReplaceInstructions)
  | _ => Throw TypeError      (* a document that is not an array has no forEach *)
  end.

End WithEnvironment.

End Pipeline.

(* ===================================================================== *)
(** * Further definitions: both short forms of the codec                   *)
(* ===================================================================== *)

Module CodecExt.
Import Js Codec.

(** The packing and unpacking loops of the 22-character form, which keeps
    two digits and packs thirty. *)
Definition pack22 (hex : list ascii) : list ascii :=
  join_opt (map (fun i => hex !! i) (seq 0 2)
            ++ concat (map (encode_triple hex) (for_range 2 32 3))).

Definition unpack22 (e : list ascii) : list ascii :=
  slice 0 2 e ++ concat (map (decode_pair e) (for_range 2 22 2)).

(** One of the 64 symbols of the alphabet (the padding sign excluded). *)
Definition is_base64_symbol (c : ascii) : bool :=
  bool_decide (c ∈ take 64 BASE64_KEYS).

(** Unpacking two symbols gives three lower-case digits whose packing is
    the two symbols; checked on the 64 * 64 pairs. *)
Definition pair_ok (s1 s2 : ascii) : bool :=
  match decode_syms (BASE64_VALUES !! nat_of_ascii s1)
                    (BASE64_VALUES !! nat_of_ascii s2) with
  | [a; b; c] =>
      is_lower_hex a && is_lower_hex b && is_lower_hex c
      && bool_decide (encode_syms (Some a) (Some b) (Some c) = [Some s1; Some s2])
  | _ => false
  end.

(** A well-formed short identifier with [reserved] kept digits: lower-case
    digits first, symbols of the alphabet after. *)
Definition valid_short_uuid (reserved : nat) (s : string) : bool :=
  let l := list_ascii_of_string s in
  forallb is_lower_hex (take reserved l)
  && forallb is_base64_symbol (drop reserved l).

End CodecExt.

(* ===================================================================== *)
(** * Further notions used to state what the compiler and applier do       *)
(* ===================================================================== *)

Module Notions.
Import Val.

(** The values an instruction writes. *)
Definition instruction_values (ins : instruction) : list value :=
  match ins with
  | TRANSFORM_TO_NODE _ _ v _ => [v]
  | TRANSFORM_TO_COMPONENT _ _ v _ => [v]
  | MIGRATE_COMPONENT _ _ fields => map snd fields
  end.

(** A value with every string held by an array or an object inside it
    blanked: what is left is its shape, its keys and its other leaves. *)
Definition blank_strings (v : value) : value :=
  Applier.map_strings (fun _ => ""%string) v.

(** ** Plain documents

    The embedding reads the own properties of an object and indexes the
    flat array by numbers.  The program does the same as long as no name
    it uses as a property key is the name of a member of
    [Object.prototype] (which every object answers without owning it, and
    of which [__proto__] is not created by an assignment), and as long as
    the references it follows are numbers (an index given as a list of one
    number, or as the name of a member of the array, reads something
    else).  The statements about documents and trees below are made for
    such documents and trees. *)
Definition prototype_names : list string :=
  [ "__proto__"; "constructor"; "hasOwnProperty"; "isPrototypeOf";
    "propertyIsEnumerable"; "toLocaleString"; "toString"; "valueOf";
    "__defineGetter__"; "__defineSetter__"; "__lookupGetter__";
    "__lookupSetter__" ].

Definition own_name (k : string) : bool :=
  negb (existsb (String.eqb k) prototype_names).

Definition is_number (v : value) : bool :=
  match v with VNum _ => true | _ => false end.

(** An object whose property names are plain, whose [__id__] (if any) is a
    number, and whose [_name] and [__type__] yield a plain node name and a
    plain component kind. *)
Definition plain_object (o : obj) : bool :=
  forallb (fun kv => own_name (fst kv)) o
  && (is_undefined (obj_get "__id__" o) || is_number (obj_get "__id__" o))
  && own_name (toString (obj_get "_name" o))
  && match obj_get "__type__" o with
     | VStr t => own_name (Str.replace_first "cc." "" t)
     | _ => true
     end.

Fixpoint plain (v : value) : bool :=
  match v with
  | VArr l => forallb plain l
  | VObj o =>
      plain_object o
      && (fix go (o : obj) : bool :=
            match o with
            | [] => true
            | (_, x) :: o' => plain x && go o'
            end) o
  | _ => true
  end.

Definition plain_document (data : list value) : bool := forallb plain data.

(** A node-info whose slots are numbers and whose component kinds and
    field names are plain; a path map of such node-infos under plain
    paths. *)
Definition plain_node (n : tree) : bool :=
  is_number (nodeId n)
  && forallb (fun kc => own_name (fst kc)
                        && forallb (fun kv => own_name (fst kv)) (snd kc)
                        && is_number (obj_get "__compId__" (snd kc)))
       (components n).

Definition plain_map (pathMap : list (string * tree)) : bool :=
  forallb (fun pn => own_name (fst pn) && plain_node (snd pn)) pathMap.

(** A tree all of whose node-infos are plain, under plain child names. *)
Fixpoint plain_tree (t : tree) : bool :=
  plain_node t
  && match t with
     | NodeInfo _ kids _ _ =>
         (fix go (kids : list (string * tree)) : bool :=
            match kids with
            | [] => true
            | (k, c) :: kids' => own_name k && plain_tree c && go kids'
            end) kids
     end.

(** The slot an instruction addresses is given as a number. *)
Definition numeric_target (ins : instruction) : bool :=
  match ins with
  | TRANSFORM_TO_NODE id _ _ _ => is_number id
  | TRANSFORM_TO_COMPONENT id _ _ _ => is_number id
  | MIGRATE_COMPONENT id _ _ => is_number id
  end.

(** The property names an instruction assigns. *)
Definition instruction_fields (ins : instruction) : list string :=
  match ins with
  | TRANSFORM_TO_NODE _ field _ _ => [field]
  | TRANSFORM_TO_COMPONENT _ field _ _ => [field]
  | MIGRATE_COMPONENT _ _ fields => map fst fields
  end.

(** An instruction whose target is a number, whose property names are
    plain (an assignment to [__proto__] creates no property) and whose
    values are plain (the lines that [applyMigrationInstructions] logs
    render them). *)
Definition plain_instruction (ins : instruction) : bool :=
  numeric_target ins
  && forallb own_name (instruction_fields ins)
  && forallb plain (instruction_values ins).


(** No record of the array is itself an array (an assignment to a property
    of an array can change or reject its length). *)
Definition no_array_record (data : list value) : bool :=
  forallb (fun rec => negb (is_array rec)) data.

(** ** What the later passes can change in a value

    Compaction rewrites the contents of [__id__] properties and the
    substitution pass rewrites strings, both in place.  The program copies
    a value into the target by reference, so an object that two fields
    hold is visited once through each; the embedding copies values.  The
    two agree on what is stated with the notions below. *)




(** ** Names and paths *)



(** ** Claims as the specification words them *)



End Notions.

(* ===================================================================== *)
(** * Command line ([parseArgs])                                           *)
(* ===================================================================== *)

Module Cli.
Import Val.

(** [s.slice(2)]. *)
Definition slice2 (s : string) : string :=
  string_of_list_ascii (Js.slice_from 2 (list_ascii_of_string s)).

(** [map[key] = v] on a plain object: the name [__proto__] reaches the
    prototype setter, which ignores the primitives assigned here, so no
    property is created under it. *)
Definition put (key : string) (v : value) (map : obj) : obj :=
  if String.eqb key "__proto__" then map else assoc_set key v map.

(** The loop of [parseArgs] over the arguments that remain. *)
Fixpoint parseArgs_loop (args : list string) (map : obj) : obj :=
  match args with
  | [] => map
  | a :: rest =>
      if Str.startsWith "--" a then
        let key := slice2 a in
        if String.eqb key "overwrite" || String.eqb key "recursive"
        then parseArgs_loop rest (put key (VBool true) map)
        else
          match rest with
          | [] => put key VUndef map              (* args[i + 1] is undefined *)
          | v :: rest' => parseArgs_loop rest' (put key (VStr v) map)
          end
      else parseArgs_loop rest map
  end.

(** [parseArgs], on [process.argv]; [None] is [process.exit(1)] after the
    usage text. *)
Definition parseArgs (argv : list string) : option obj :=
  let args := Js.slice_from 2 argv in
  let map := parseArgs_loop args [] in
  if negb (truthy (obj_get "v3" map)) || negb (truthy (obj_get "v2" map))
  then None
  else Some map.

(** ** Notions used to state what [parseArgs] does *)

(** The items of a command line: a boolean flag, an option with its value
    (taken verbatim, whatever it looks like), a word that is not an option. *)
Inductive cli_item : Type :=
| Flag (key : string)
| Opt (key value : string)
| Word (s : string).

Definition is_flag_name (key : string) : bool :=
  String.eqb key "overwrite" || String.eqb key "recursive".

Definition item_ok (it : cli_item) : bool :=
  match it with
  | Flag key => is_flag_name key
  | Opt key _ => negb (is_flag_name key)
  | Word s => negb (Str.startsWith "--" s)
  end.

Definition render (it : cli_item) : list string :=
  match it with
  | Flag key => [("--" ++ key)%string]
  | Opt key v => [("--" ++ key)%string; v]
  | Word s => [s]
  end.

Definition item_effect (map : obj) (it : cli_item) : obj :=
  match it with
  | Flag key => put key (VBool true) map
  | Opt key v => put key (VStr v) map
  | Word _ => map
  end.

End Cli.

(* ===================================================================== *)
(** * Identifier mapping between resource tables ([generateUuidMapping])   *)
(* ===================================================================== *)

(** An entry of [mapping] and an entry of [unmatched]. *)
Record mapped : Type := {
  v2Uuid : string;
  filename : string;
  v3Url : string
}.

Record unmatchedEntry : Type := {
  um_v3Uuid : string;
  um_filename : string;
  um_v3Url : string
}.

Module Resource.
Import Val.

(** [s.split(sep)] for a separator of one character: the pieces between
    the occurrences, at least one piece. *)
Fixpoint split_on (sep : ascii) (s : string) : list string :=
  match s with
  | EmptyString => [EmptyString]
  | String c s' =>
      if Ascii.eqb c sep then EmptyString :: split_on sep s'
      else
        match split_on sep s' with
        | p :: ps => String c p :: ps
        | [] => [String c EmptyString]
        end
  end.

Section WithPath.
(** [path.basename] of the platform. *)
Variable path_basename : string → string.

Definition extractFilename (urlOrPath : string) : string :=
  if Str.startsWith "db://" urlOrPath then
    let parts := split_on "/"%char urlOrPath in
    default ""%string (last parts)
  else path_basename urlOrPath.

(** The body of the loop of [buildV2Index]: reading a property of [null]
    or [undefined] throws, and so does [startsWith] on a path that is not a
    string. *)
Definition buildV2Index_step (filenameToUuid : list (string * string))
    (entry : string * value) : result (list (string * string)) :=
  let '(uuid, info) := entry in
  if is_nullish info then Throw TypeError
  else
    let relativePath := get info "relativePath" in
    if truthy relativePath then
      match relativePath with
      | VStr p => Ok (assoc_set (extractFilename p) uuid filenameToUuid)
      | _ => Throw TypeError
      end
    else Ok filenameToUuid.

Definition buildV2Index (v2Data : obj) : result (list (string * string)) :=
  foldM buildV2Index_step [] v2Data.

(** [if (v2Uuid)] on the result of [Map.get]: found, and not empty. *)
Definition found (o : option string) : bool :=
  match o with
  | Some s => negb (String.eqb s "")
  | None => false
  end.

(** The identifier looked up for a file name: the whole name first, then,
    for a name with [@], the part before the first [@]. *)
Definition lookup_filename (v2Index : list (string * string)) (fullFilename : string)
  : option string :=
  if Str.includes "@" fullFilename then
    let v2Uuid := assoc_get fullFilename v2Index in
    if negb (found v2Uuid) then
      let baseFilename := default ""%string (head (split_on "@"%char fullFilename)) in
      assoc_get baseFilename v2Index
    else v2Uuid
  else assoc_get fullFilename v2Index.

(** [mapping[v3Uuid] = entry] on a plain object: under the name
    [__proto__] the assignment changes the prototype and creates no
    property. *)
Definition put_mapping (v3Uuid : string) (m : mapped)
    (mapping : list (string * mapped)) : list (string * mapped) :=
  if String.eqb v3Uuid "__proto__" then mapping else assoc_set v3Uuid m mapping.

Definition generateUuidMapping_step (v2Index : list (string * string))
    (acc : list (string * mapped) * list unmatchedEntry) (entry : string * value)
  : result (list (string * mapped) * list unmatchedEntry) :=
  let '(mapping, unmatched) := acc in
  let '(v3Uuid, info) := entry in
  if is_nullish info then Throw TypeError
  else
    let url := get info "url" in
    if negb (truthy url) then Ok acc
    else
      match url with
      | VStr u =>
          let fullFilename := extractFilename u in
          match lookup_filename v2Index fullFilename with
          | Some id =>
              if negb (String.eqb id "") then
                Ok (put_mapping v3Uuid
                      {| v2Uuid := id; filename := fullFilename; v3Url := u |}
                      mapping,
                    unmatched)
              else
                Ok (mapping,
                    unmatched ++ [ {| um_v3Uuid := v3Uuid;
                                      um_filename := fullFilename;
                                      um_v3Url := u |} ])
          | None =>
              Ok (mapping,
                  unmatched ++ [ {| um_v3Uuid := v3Uuid;
                                    um_filename := fullFilename;
                                    um_v3Url := u |} ])
          end
      | _ => Throw TypeError
      end.

Definition generateUuidMapping (v3Data v2Data : obj)
  : result (list (string * mapped) * list unmatchedEntry) :=
  v2Index ← buildV2Index v2Data;
  foldM (generateUuidMapping_step v2Index) ([], []) v3Data.

(** [generateGlobalStringReplaceInstructions()], given the contents of the
    two resource tables it reads. *)
Definition stringReplaceInstructions (v3Data v2Data : obj)
  : result (list substitution) :=
  r ← generateUuidMapping v3Data v2Data;
  Ok (Compiler.generateGlobalStringReplaceInstructions
        (map (fun kv => (fst kv, v2Uuid (snd kv))) (fst r))).

(** ** Notions used to state what the mapping holds *)

(** An entry of the source table that the loop classifies: its [url] is a
    non-empty string. *)
Definition has_url (entry : string * value) : bool :=
  truthy (get (snd entry) "url").

(** The file name of an entry of the target table, if it has a path. *)
Definition v2_filename (info : value) : option string :=
  match get info "relativePath" with
  | VStr p => if String.eqb p "" then None else Some (extractFilename p)
  | _ => None
  end.

(** The [url] of an entry that has one. *)
Definition url_of (info : value) : string :=
  match get info "url" with
  | VStr u => u
  | _ => ""%string
  end.

(** The entry of the source table finds an identifier in the index. *)
Definition matched (v2Index : list (string * string)) (entry : string * value)
  : bool :=
  found (lookup_filename v2Index (extractFilename (url_of (snd entry)))).

Definition mapped_entry (v2Index : list (string * string)) (entry : string * value)
  : string * mapped :=
  (fst entry,
   {| v2Uuid := default ""%string
                  (lookup_filename v2Index (extractFilename (url_of (snd entry))));
      filename := extractFilename (url_of (snd entry));
      v3Url := url_of (snd entry) |}).

Definition unmatched_entry (entry : string * value) : unmatchedEntry :=
  {| um_v3Uuid := fst entry;
     um_filename := extractFilename (url_of (snd entry));
     um_v3Url := url_of (snd entry) |}.

(** An entry on which the loops do not throw: it is an object or a
    primitive other than [null] and [undefined], and its property [field]
    is falsy or a string. *)
Definition entry_ok (field : string) (info : value) : bool :=
  negb (is_nullish info)
  && (negb (truthy (get info field))
      || match get info field with VStr _ => true | _ => false end).

End WithPath.

End Resource.

(* ===================================================================== *)
(** * Induction on values and basic facts                                  *)
(* ===================================================================== *)

Module ValFacts.
Import Val.

Lemma assoc_get_set_eq {A} k (v : A) kvs : assoc_get k (assoc_set k v kvs) = Some v.
Proof.
  induction kvs as [|[k' v'] kvs IH]; simpl.
  - by rewrite String.eqb_refl.
  - destruct (String.eqb k k') eqn:E; simpl.
    + by rewrite String.eqb_refl.
    + by rewrite E.
Qed.

Lemma assoc_get_set_ne {A} k k' (v : A) kvs :
  k ≠ k' → assoc_get k' (assoc_set k v kvs) = assoc_get k' kvs.
Proof.
  intros Hne. induction kvs as [|[k0 v0] kvs IH]; simpl.
  - destruct (String.eqb k' k) eqn:E; [|done].
    apply String.eqb_eq in E. congruence.
  - destruct (String.eqb k k0) eqn:E; simpl.
    + apply String.eqb_eq in E. subst k0.
      destruct (String.eqb k' k) eqn:E'; [|done].
      apply String.eqb_eq in E'. congruence.
    + by rewrite IH.
Qed.

Lemma assoc_get_In {A} k (v : A) kvs : assoc_get k kvs = Some v → In (k, v) kvs.
Proof.
  induction kvs as [|[k' v'] kvs IH]; simpl; [done|].
  destruct (String.eqb k k') eqn:E.
  - apply String.eqb_eq in E. intros [= ->]. subst. by left.
  - intros H. right. by apply IH.
Qed.

Lemma get_set_eq o k v : get (set (VObj o) k v) k = v.
Proof. simpl. unfold obj_get. by rewrite assoc_get_set_eq. Qed.

Lemma get_set_ne o k k' v : k ≠ k' → get (set o k v) k' = get o k'.
Proof.
  intros Hne. destruct o; simpl; try done.
  unfold obj_get. by rewrite assoc_get_set_ne.
Qed.

Lemma truthy_get_obj v k : truthy (get v k) = true → ∃ kvs, v = VObj kvs.
Proof. destruct v; simpl; try discriminate. eauto. Qed.

Lemma eqb_refl v : eqb v v = true.
Proof.
  induction v as [| |b|n|s|l IH|kvs IH] using value_ind; simpl; try done.
  - by destruct b.
  - apply Z.eqb_refl.
  - apply String.eqb_refl.
  - induction IH as [|x l Hx _ IHl]; [done|]. by rewrite Hx, IHl.
  - induction IH as [|[k x] kvs Hx _ IHl]; [done|].
    simpl in Hx. by rewrite String.eqb_refl, Hx, IHl.
Qed.

Lemma eqb_eq a b : eqb a b = true → a = b.
Proof.
  revert b.
  induction a as [| |x|x|x|l IH|kvs IH] using value_ind; intros [| |y|y|y|l'|kvs'];
    simpl; try discriminate; try done.
  - intros H. f_equal. by apply Bool.eqb_prop.
  - intros H. f_equal. by apply Z.eqb_eq.
  - intros H. f_equal. by apply String.eqb_eq.
  - intros H. f_equal. revert l' H.
    induction IH as [|x l Hx _ IHl]; intros [|y l']; try discriminate; [done|].
    intros H. apply andb_prop in H as [H1 H2]. f_equal; auto.
  - intros H. f_equal. revert kvs' H.
    induction IH as [|[k x] kvs Hx _ IHl]; intros [|[k' y] kvs']; try discriminate;
      [done|].
    intros H. apply andb_prop in H as [H1 H3]. apply andb_prop in H1 as [H1 H2].
    apply String.eqb_eq in H1. simpl in Hx. f_equal; [f_equal|]; auto.
Qed.

Lemma to_index_num n : to_index (VNum (Z.of_nat n)) = Some n.
Proof.
  unfold to_index. destruct (0 <=? Z.of_nat n) eqn:E; [|apply Z.leb_gt in E; lia].
  by rewrite Nat2Z.id.
Qed.

Lemma arr_get_num data n : arr_get data (VNum (Z.of_nat n)) = default VUndef (data !! n).
Proof. unfold arr_get. by rewrite to_index_num. Qed.

(** A truthy slot content means the key denotes an index inside the array. *)
Lemma arr_get_truthy data id :
  truthy (arr_get data id) = true →
  ∃ i, to_index id = Some i ∧ data !! i = Some (arr_get data id).
Proof.
  unfold arr_get. destruct (to_index id) as [i|]; [|discriminate].
  destruct (data !! i) as [v|] eqn:E; [|discriminate]. eauto.
Qed.

End ValFacts.

(* ===================================================================== *)
(** * Properties of the reference codec                                    *)
(* ===================================================================== *)

Module CodecFacts.
Import Js Codec.

Lemma hex_digit_lower c :
  is_hex_digit c = true → is_lower_hex (toLowerAscii c) = true.
Proof.
  destruct c as [[] [] [] [] [] [] [] []]; vm_compute; congruence.
Qed.

Lemma hex_digit_not_hyphen c :
  is_hex_digit c = true → negb (Ascii.eqb c "-"%char) = true.
Proof.
  destruct c as [[] [] [] [] [] [] [] []]; vm_compute; congruence.
Qed.

Lemma lower_hex_fixed c : is_lower_hex c = true → toLowerAscii c = c.
Proof.
  destruct c as [[] [] [] [] [] [] [] []]; vm_compute; congruence.
Qed.

Lemma triple_ok_all :
  forallb (fun a => forallb (fun b => forallb (triple_ok a b) HexChars) HexChars)
    HexChars = true.
Proof. vm_compute. reflexivity. Qed.

Lemma triple_roundtrip a b c :
  is_lower_hex a = true → is_lower_hex b = true → is_lower_hex c = true →
  ∃ s1 s2,
    encode_syms (Some a) (Some b) (Some c) = [Some s1; Some s2]
    ∧ decode_syms (BASE64_VALUES !! nat_of_ascii s1)
                  (BASE64_VALUES !! nat_of_ascii s2) = [a; b; c].
Proof.
  unfold is_lower_hex. rewrite !bool_decide_eq_true. intros Ha Hb Hc.
  pose proof triple_ok_all as H.
  rewrite forallb_forall in H. apply list_elem_of_In in Ha, Hb, Hc.
  specialize (H a Ha). rewrite forallb_forall in H.
  specialize (H b Hb). rewrite forallb_forall in H.
  specialize (H c Hc). unfold triple_ok in H.
  destruct (encode_syms (Some a) (Some b) (Some c)) as [|[s1|] [|[s2|] [|? ?]]];
    try discriminate.
  exists s1, s2. split; [reflexivity|]. by apply bool_decide_eq_true in H.
Qed.

Global Opaque encode_syms decode_syms BASE64_VALUES.

(** The 23-character form of 32 lower-case digits unpacks to the digits. *)
Lemma pack23_unpack23 hex :
  length hex = 32%nat → Forall (fun c => is_lower_hex c = true) hex →
  length (pack23 hex) = 23%nat
  ∧ take 5 (pack23 hex) = take 5 hex
  ∧ unpack23 (pack23 hex) = hex.
Proof.
  intros Hlen Hall.
  do 32 (destruct hex as [|? hex]; [discriminate Hlen|]).
  destruct hex; [|discriminate Hlen]. clear Hlen.
  repeat match goal with
         | H : Forall _ (_ :: _) |- _ => apply Forall_cons in H; destruct H
         | H : Forall _ [] |- _ => clear H
         end.
  unfold pack23, encode_triple. cbn [for_range for_range_aux Nat.ltb Nat.leb Nat.add
    map seq concat app lookup list_lookup].
  repeat match goal with
         | |- context [encode_syms (Some ?a) (Some ?b) (Some ?c)] =>
             let s1 := fresh "s" in let s2 := fresh "s" in
             let E := fresh "E" in let D := fresh "D" in
             destruct (triple_roundtrip a b c) as (s1 & s2 & E & D);
             [assumption..|rewrite E; clear E]
         end.
  simpl join_opt. split; [reflexivity|]. split; [reflexivity|].
  unfold unpack23, decode_pair, base64_value.
  simpl.
  repeat match goal with
         | D : decode_syms _ _ = _ |- _ => rewrite D; clear D
         end.
  reflexivity.
Qed.

Lemma string_length_list s : String.length s = length (list_ascii_of_string s).
Proof. induction s as [|c s IH]; simpl; congruence. Qed.

Lemma remove_hyphens_hex c l :
  is_hex_digit c = true → remove_hyphens (c :: l) = c :: remove_hyphens l.
Proof.
  intros H. unfold remove_hyphens. simpl.
  by rewrite (hex_digit_not_hyphen c H).
Qed.

Lemma remove_hyphens_hyphen l :
  remove_hyphens ("-"%char :: l) = remove_hyphens l.
Proof. reflexivity. Qed.

Lemma encodeUuid_pack23 s :
  String.length s = 36%nat →
  encodeUuid s false
  = string_of_list_ascii
      (pack23 (map toLowerAscii (remove_hyphens (list_ascii_of_string s)))).
Proof. intros H. unfold encodeUuid. rewrite H. reflexivity. Qed.

Lemma decodeUuid_unpack23 e :
  length e = 23%nat →
  decodeUuid (string_of_list_ascii e) = string_of_list_ascii (assemble (unpack23 e)).
Proof.
  intros H. unfold decodeUuid.
  rewrite list_ascii_of_string_of_list_ascii, H. reflexivity.
Qed.

(** The hexadecimal digits of a valid identifier, lower-cased, and the
    identifier rebuilt from them. *)
Lemma valid_long_uuid_digits s :
  valid_long_uuid s = true →
  ∃ hex,
    map toLowerAscii (remove_hyphens (list_ascii_of_string s)) = hex
    ∧ length hex = 32%nat
    ∧ Forall (fun c => is_lower_hex c = true) hex
    ∧ take 5 hex = map toLowerAscii (take 5 (list_ascii_of_string s))
    ∧ assemble hex = map toLowerAscii (list_ascii_of_string s).
Proof.
  unfold valid_long_uuid. generalize (list_ascii_of_string s) as l. clear s.
  intros l H. apply andb_prop in H as [Hlen H].
  apply Nat.eqb_eq in Hlen.
  do 36 (destruct l as [|? l]; [discriminate Hlen|]).
  destruct l; [|discriminate Hlen]. clear Hlen.
  cbn [forallb seq lookup list_lookup existsb Nat.eqb orb] in H.
  repeat match goal with
         | H : (_ && _)%bool = true |- _ =>
             let H1 := fresh "Hc" in apply andb_prop in H as [H1 H]
         end.
  clear H.
  repeat match goal with
         | H : Ascii.eqb _ _ = true |- _ => apply Ascii.eqb_eq in H; subst
         end.
  eexists. split.
  { repeat first [ rewrite remove_hyphens_hyphen
                 | rewrite remove_hyphens_hex by assumption ].
    reflexivity. }
  split; [reflexivity|]. split.
  { repeat (apply Forall_cons; split; [by apply hex_digit_lower|]).
    apply Forall_nil; exact I. }
  split; reflexivity.
Qed.

End CodecFacts.

(* ===================================================================== *)
(** * Properties of the compactor                                          *)
(* ===================================================================== *)

Module CompactFacts.
Import Val Compact.

(** The descending splice loop removes exactly the tombstones. *)
Lemma splice_loop_filter (d suffix : list value) :
  fold_left splice_step (rev (seq 0 (length d))) (d ++ suffix)
  = live_records d ++ suffix.
Proof.
  revert suffix. induction d as [|x d IH] using rev_ind; intros suffix; [done|].
  rewrite length_app, Nat.add_comm. simpl length.
  rewrite seq_S, rev_app_distr. simpl rev. simpl fold_left.
  unfold live_records. rewrite List.filter_app. simpl List.filter.
  unfold splice_step at 2.
  rewrite <- (assoc_L (++)). simpl.
  rewrite (list_lookup_middle d suffix x (length d) eq_refl). simpl.
  unfold is_live. destruct (is_nullish x) eqn:Ex; simpl.
  - unfold Arr.splice1. rewrite delete_middle. rewrite IH.
    by rewrite app_nil_r.
  - rewrite IH. by rewrite <- (assoc_L (++)).
Qed.

Lemma splice_tombstones_filter (d : list value) :
  splice_tombstones d = live_records d.
Proof.
  unfold splice_tombstones.
  rewrite <- (app_nil_r d) at 2. rewrite splice_loop_filter. apply app_nil_r.
Qed.

Lemma build_index_snoc d x :
  build_index (d ++ [x]) = index_step (build_index d) (length d, x).
Proof.
  unfold build_index. rewrite imap_app, fold_left_app. simpl.
  by rewrite Nat.add_0_r.
Qed.

Lemma new_index_snoc_lt d x z :
  z ≠ Z.of_nat (length d) → new_index (d ++ [x]) z = new_index d z.
Proof.
  intros Hne. unfold new_index. destruct (0 <=? z) eqn:Ez; [|done].
  apply Z.leb_le in Ez.
  destruct (decide (Z.to_nat z < length d)%nat) as [Hlt|Hge].
  - rewrite lookup_app_l by done. rewrite take_app_le by lia. done.
  - rewrite (lookup_ge_None_2 d) by lia.
    rewrite lookup_app_r by lia.
    destruct (Z.to_nat z - length d)%nat eqn:E; [lia|]. done.
Qed.

(** The table built by the first loop is [new_index]; the counter is the
    number of live records. *)
Lemma build_index_spec d :
  snd (build_index d) = Z.of_nat (length (live_records d))
  ∧ ∀ z, fst (build_index d) !! z = new_index d z.
Proof.
  induction d as [|x d [IHc IHm]] using rev_ind.
  - split; [done|]. intros z. unfold new_index, build_index. simpl.
    rewrite lookup_empty. by destruct (0 <=? z).
  - rewrite build_index_snoc. destruct (build_index d) as [m c]. simpl in *.
    unfold live_records in *. rewrite List.filter_app, length_app. simpl List.filter.
    change (negb (is_nullish x)) with (is_live x).
    destruct (is_live x) eqn:Ex; simpl; swap 1 2.
    + split; [lia|]. intros z.
      destruct (decide (z = Z.of_nat (length d))) as [->|Hne].
      * rewrite IHm. unfold new_index.
        destruct (0 <=? Z.of_nat (length d)); [|done].
        rewrite Nat2Z.id, (lookup_ge_None_2 d) by lia.
        rewrite list_lookup_middle by done. by rewrite Ex.
      * by rewrite IHm, new_index_snoc_lt.
    + split; [lia|]. intros z.
      destruct (decide (z = Z.of_nat (length d))) as [->|Hne].
      * rewrite lookup_insert_eq. unfold new_index.
        destruct (0 <=? Z.of_nat (length d)) eqn:E; [|apply Z.leb_gt in E; lia].
        rewrite Nat2Z.id, list_lookup_middle by done.
        rewrite Ex. rewrite take_app_length. by rewrite IHc.
      * rewrite lookup_insert_ne by done. by rewrite IHm, new_index_snoc_lt.
Qed.

(** A live slot's new index designates the same record among the live
    records. *)
Lemma live_records_rank d i v :
  d !! i = Some v → is_live v = true →
  live_records d !! length (live_records (take i d)) = Some v
  ∧ (length (live_records (take i d)) < length (live_records d))%nat.
Proof.
  intros Hi Hv.
  assert (Hsplit : live_records d
                   = live_records (take i d) ++ v :: live_records (drop (S i) d)).
  { rewrite <- (take_drop_middle d i v Hi) at 1.
    unfold live_records. rewrite List.filter_app. simpl. by rewrite Hv. }
  assert (Hl : live_records d !! length (live_records (take i d)) = Some v).
  { rewrite Hsplit. by rewrite list_lookup_middle. }
  split; [done|]. by apply lookup_lt_Some in Hl.
Qed.

Lemma remap_rewritten d old :
  ref_rewritten d old (remap (fst (build_index d)) old).
Proof.
  unfold ref_rewritten, remap, map_get. destruct old; try done.
  destruct (build_index_spec d) as [_ Hm]. rewrite Hm.
  destruct (new_index d n) as [z'|] eqn:E; [|done].
  split; [done|]. unfold new_index in E.
  destruct (0 <=? n); [|done].
  destruct (d !! Z.to_nat n) as [v|] eqn:Ev; [|done].
  destruct (is_live v) eqn:Hv; [|done]. injection E as <-.
  destruct (live_records_rank d _ v Ev Hv) as [H1 H2].
  rewrite Nat2Z.id. split; [lia|done].
Qed.

(** [updateReferences] rewrites the visited [__id__] contents by [remap]
    and changes nothing else. *)
Lemma ref_ids_updateReferences m v :
  ref_ids (updateReferences m v) = map (remap m) (ref_ids v).
Proof.
  induction v as [| | | | |l IH|kvs IH] using value_ind; simpl; try done.
  - induction IH as [|x l Hx _ IHl]; simpl; [done|].
    by rewrite Hx, IHl, map_app.
  - induction IH as [|[k x] kvs Hx _ IHl]; simpl; [done|].
    rewrite map_app, <- IHl. simpl in Hx.
    destruct (String.eqb k "__id__") eqn:E; simpl; rewrite E; [done|].
    by rewrite Hx.
Qed.

Lemma skeleton_updateReferences m v :
  skeleton (updateReferences m v) = skeleton v.
Proof.
  induction v as [| | | | |l IH|kvs IH] using value_ind; simpl; try done.
  - f_equal. induction IH as [|x l Hx _ IHl]; simpl; [done|]. by rewrite Hx, IHl.
  - f_equal. induction IH as [|[k x] kvs Hx _ IHl]; simpl; [done|].
    rewrite IHl. simpl in Hx.
    destruct (String.eqb k "__id__") eqn:E; simpl; rewrite E; [done|].
    by rewrite Hx.
Qed.

Lemma compactAndReindexPrefab_eq d :
  compactAndReindexPrefab d
  = map (updateReferences (fst (build_index d))) (live_records d).
Proof. unfold compactAndReindexPrefab. by rewrite splice_tombstones_filter. Qed.

Lemma Forall2_map_same {A B} (R : A → B → Prop) (f : A → B) l :
  (∀ x, R x (f x)) → Forall2 R l (map f l).
Proof. intros H. induction l; simpl; constructor; auto. Qed.

End CompactFacts.

(* ===================================================================== *)
(** * Properties of sorting and of the removal loop                        *)
(* ===================================================================== *)

Module SortFacts.

Lemma insert_sorted_perm {A} (cmp : A → A → Z) x l :
  Permutation (Arr.insert_sorted cmp x l) (x :: l).
Proof.
  induction l as [|y l IH]; simpl; [done|].
  destruct (cmp x y <=? 0); [done|].
  rewrite IH. apply perm_swap.
Qed.

Lemma sort_perm {A} (cmp : A → A → Z) l : Permutation (Arr.sort cmp l) l.
Proof.
  induction l as [|x l IH]; simpl; [done|].
  rewrite insert_sorted_perm. by rewrite IH.
Qed.

(** For a comparator that is the difference of a key, the sort orders the
    list by that key. *)
Section ByKey.
Context {A : Type} (cmp : A → A → Z) (R : A → A → Prop).
Hypothesis cmp_le : ∀ a b, cmp a b <= 0 → R a b.
Hypothesis cmp_gt : ∀ a b, 0 < cmp a b → R b a.
Hypothesis R_trans : ∀ a b c, R a b → R b c → R a c.


End ByKey.

End SortFacts.

Module RemovalFacts.
Import Val Applier ValFacts.





(** ** Removing positions from a list *)





(** ** One turn of the loop *)













End RemovalFacts.

(* ===================================================================== *)
(** * Properties of the tree projector                                     *)
(* ===================================================================== *)

Module ParserFacts.
Import Val Parser ValFacts.


Lemma foldM_app {A B} (step : A → B → result A) xs ys acc :
  foldM step acc (xs ++ ys) = foldM step acc xs ≫= fun acc' => foldM step acc' ys.
Proof.
  revert acc. induction xs as [|x xs IH]; intros acc; simpl; [done|].
  destruct (step acc x); simpl; [apply IH|done].
Qed.

(** ** [buildMaps] *)

Lemma buildMaps_step_cases maps i item :
  match buildMaps_step maps (i, item) with
  | Ok maps' =>
      bad_discriminator item = false
      ∧ fst maps' = fst maps ++ (if is_node_record item then [(i, item)] else [])
  | Throw e => e = TypeError ∧ bad_discriminator item = true
  end.
Proof.
  destruct maps as [nm cm]. unfold buildMaps_step, bad_discriminator, is_node_record.
  destruct (truthy item) eqn:Ti; simpl; [|by rewrite app_nil_r].
  destruct (eqb (get item "__type__") (VStr "cc.Node")) eqn:En.
  { apply eqb_eq in En. rewrite En. simpl. done. }
  destruct (get item "__type__") as [| |b|n|s|l|kvs] eqn:Et; simpl;
    rewrite ?app_nil_r; try done.
  - by destruct b; simpl; rewrite ?app_nil_r.
  - destruct (n =? 0); simpl; rewrite ?app_nil_r; done.
  - destruct (String.eqb s ""); simpl; rewrite ?app_nil_r; [done|].
    destruct (Str.startsWith "cc." s); simpl; by rewrite ?app_nil_r.
Qed.

Lemma buildMaps_from entries : ∀ maps,
  match foldM buildMaps_step maps entries with
  | Ok maps' =>
      Forall (fun entry => bad_discriminator (snd entry) = false) entries
      ∧ fst maps'
        = fst maps ++ List.filter (fun entry => is_node_record (snd entry)) entries
  | Throw e =>
      e = TypeError
      ∧ Exists (fun entry => bad_discriminator (snd entry) = true) entries
  end.
Proof.
  induction entries as [|[i item] entries IH]; intros maps; simpl.
  { split; [constructor|by rewrite app_nil_r]. }
  pose proof (buildMaps_step_cases maps i item) as Hstep.
  destruct (buildMaps_step maps (i, item)) as [maps1|e]; simpl.
  - destruct Hstep as [Hbad Hfst]. specialize (IH maps1).
    destruct (foldM buildMaps_step maps1 entries) as [maps'|e].
    + destruct IH as [Hall Hnm]. split; [by constructor|].
      rewrite Hnm, Hfst. destruct (is_node_record item); simpl;
        by rewrite <- ?app_assoc, ?app_nil_r.
    + destruct IH as [-> Hex]. split; [done|]. by apply Exists_cons_tl.
  - destruct Hstep as [-> Hbad]. split; [done|]. by apply Exists_cons_hd.
Qed.

Lemma Forall_imap_snd {A} (P : A → Prop) (l : list A) :
  Forall (fun entry : nat * A => P (snd entry)) (imap (fun i x => (i, x)) l)
  ↔ Forall P l.
Proof.
  rewrite !Forall_lookup. split.
  - intros H i x Hi. apply (H i (i, x)). by rewrite list_lookup_imap, Hi.
  - intros H i [j x]. rewrite list_lookup_imap.
    destruct (l !! i) as [y|] eqn:Hi; simpl; [|done].
    intros [= <- <-]. simpl. by apply (H i).
Qed.

Lemma buildMaps_spec data :
  match buildMaps data with
  | Ok maps =>
      Forall (fun item => bad_discriminator item = false) data
      ∧ fst maps = node_records data
  | Throw e =>
      e = TypeError ∧ ¬ Forall (fun item => bad_discriminator item = false) data
  end.
Proof.
  unfold buildMaps, node_records.
  pose proof (buildMaps_from (imap (fun i item => (i, item)) data) ([], [])) as H.
  destruct (foldM _ _ _) as [maps|e].
  - destruct H as [Hall Hnm]. split; [|done].
    exact (proj1 (Forall_imap_snd (fun item => bad_discriminator item = false) data)
             Hall).
  - destruct H as [-> Hex]. split; [done|]. intros Hall.
    apply (proj2 (Forall_imap_snd (fun item => bad_discriminator item = false) data))
      in Hall.
    apply List.Exists_exists in Hex as (entry & Hin & Hbad).
    rewrite List.Forall_forall in Hall. specialize (Hall entry Hin). congruence.
Qed.

(** ** The first matching entry of the node table *)

Lemma find_filter_imap {A} (p q : nat * A → bool) (l : list A) : ∀ k i x,
  List.find p (List.filter q (imap (fun j y => (k + j, y)%nat) l)) = Some (i, x) →
  (k <= i)%nat ∧ l !! (i - k)%nat = Some x ∧ q (i, x) = true ∧ p (i, x) = true
  ∧ ∀ j y, (j < i - k)%nat → l !! j = Some y → q ((k + j)%nat, y) = true →
           p ((k + j)%nat, y) = false.
Proof.
  induction l as [|a l IH]; intros k i x; simpl; [discriminate|].
  rewrite Nat.add_0_r.
  assert (Hnext : ∀ H : List.find p
                     (List.filter q (imap (fun j y => (S k + j, y)%nat) l))
                   = Some (i, x),
            (k <= i)%nat ∧ (a :: l) !! (i - k)%nat = Some x ∧ q (i, x) = true
            ∧ p (i, x) = true
            ∧ (p (k, a) = false ∨ q (k, a) = false →
               ∀ j y, (j < i - k)%nat → (a :: l) !! j = Some y →
                      q ((k + j)%nat, y) = true → p ((k + j)%nat, y) = false)).
  { intros H. destruct (IH (S k) i x H) as (Hk & Hl & Hq & Hp & Hmin).
    split; [lia|]. replace (i - k)%nat with (S (i - S k)) by lia.
    split; [done|]. split; [done|]. split; [done|].
    intros Hhead [|j] y Hj Hy Hqy.
    - simpl in Hy. injection Hy as <-. rewrite Nat.add_0_r in *.
      destruct Hhead as [?|Hq0]; [done|congruence].
    - replace (k + S j)%nat with (S k + j)%nat in * by lia.
      apply Hmin; [lia|done|done]. }
  assert (Himap : imap ((fun j y => (k + j, y)%nat) ∘ S) l
                  = imap (fun j y => (S k + j, y)%nat) l).
  { apply imap_ext. intros j y _. simpl. f_equal. lia. }
  rewrite Himap.
  destruct (q (k, a)) eqn:Eq; simpl.
  - destruct (p (k, a)) eqn:Ep.
    + intros [= <- <-]. rewrite Nat.sub_diag. repeat split; try done. lia.
    + intros H. destruct (Hnext H) as (? & ? & ? & ? & Hmin).
      repeat split; try done. apply Hmin. by left.
  - intros H. destruct (Hnext H) as (? & ? & ? & ? & Hmin).
    repeat split; try done. apply Hmin. by right.
Qed.



Lemma find_root_some data i node :
  List.find (fun entry => lacks_parent (snd entry)) (node_records data)
  = Some (i, node) →
  data !! i = Some node ∧ is_node_record node = true ∧ lacks_parent node = true
  ∧ ∀ j n, (j < i)%nat → data !! j = Some n → is_node_record n = true →
           lacks_parent n = false.
Proof.
  intros H.
  destruct (find_filter_imap (fun entry => lacks_parent (snd entry))
              (fun entry => is_node_record (snd entry)) data 0 i node H)
    as (_ & Hi & Hq & Hp & Hmin).
  rewrite Nat.sub_0_r in *. split; [done|]. split; [done|]. split; [done|].
  intros j n Hj Hn Hnode. by apply (Hmin j n).
Qed.

(** ** Exceptions of [parseNode] *)



Lemma parseNode_nodeId data depth nodeIndex nodeData t :
  parseNode data depth nodeIndex nodeData = Ok t → nodeId t = nodeIndex.
Proof.
  destruct depth; simpl; [discriminate|].
  destruct (foldM (parseNode_component data) [] _); simpl; [|discriminate].
  destruct (foldM _ [] (array_items (get nodeData "_children"))); simpl;
    [|discriminate].
  by intros [= <-].
Qed.

(** ** The children mapping *)

Lemma assoc_set_keys {A} k (v : A) kvs :
  map fst (assoc_set k v kvs)
  = if bool_decide (k ∈ map fst kvs) then map fst kvs else map fst kvs ++ [k].
Proof.
  induction kvs as [|[k' v'] kvs IH]; simpl; [done|].
  destruct (String.eqb k k') eqn:E; simpl.
  - apply String.eqb_eq in E. subst k'.
    rewrite bool_decide_eq_true_2; [done|]. by left.
  - apply String.eqb_neq in E. rewrite IH.
    destruct (bool_decide (k ∈ map fst kvs)) eqn:Eb.
    + apply bool_decide_eq_true in Eb.
      rewrite bool_decide_eq_true_2; [done|]. by right.
    + apply bool_decide_eq_false in Eb.
      rewrite bool_decide_eq_false_2; [done|].
      intros Hin. apply elem_of_cons in Hin as [?|?]; done.
Qed.

Lemma assoc_set_NoDup {A} k (v : A) kvs :
  NoDup (map fst kvs) → NoDup (map fst (assoc_set k v kvs)).
Proof.
  intros Hnd. rewrite assoc_set_keys.
  destruct (bool_decide (k ∈ map fst kvs)) eqn:Eb; [done|].
  apply bool_decide_eq_false in Eb. apply NoDup_app. split; [done|].
  split; [|apply NoDup_singleton].
  intros x Hx Hx'. apply list_elem_of_singleton in Hx'. by subst.
Qed.

Lemma parseNode_unfold data depth nodeIndex nodeData :
  parseNode data (S depth) nodeIndex nodeData
  = (comps ← foldM (parseNode_component data) []
               (array_items (get nodeData "_components"));
     kids ← foldM (kid_step data depth) [] (array_items (get nodeData "_children"));
     Ok (NodeInfo comps kids nodeIndex (parseNode_props nodeData))).
Proof. reflexivity. Qed.




(** ** [parse] *)



(** [parse] on an array, in terms of the node records of the array. *)
Lemma parse_array depth data :
  parse depth (VArr data)
  = if forallb (fun item => negb (bad_discriminator item)) data then
      match List.find (fun entry => lacks_parent (snd entry)) (node_records data) with
      | None => Throw RootNodeNotFound
      | Some root => buildNodeTree data depth root
      end
    else Throw TypeError.
Proof.
  simpl. pose proof (buildMaps_spec data) as H.
  destruct (buildMaps data) as [maps|e]; simpl.
  - destruct H as [Hall ->].
    assert (E : forallb (fun item => negb (bad_discriminator item)) data = true).
    { apply forallb_forall. rewrite List.Forall_forall in Hall.
      intros x Hx. by rewrite (Hall x Hx). }
    by rewrite E.
  - destruct H as [-> Hnot].
    destruct (forallb _ data) eqn:E; [|done].
    exfalso. apply Hnot. apply List.Forall_forall. intros x Hx.
    rewrite forallb_forall in E. specialize (E x Hx).
    by destruct (bad_discriminator x).
Qed.

End ParserFacts.

(* ===================================================================== *)
(** * Properties of strings and of the path matcher                        *)
(* ===================================================================== *)

Module StrFacts.

Lemma append_cons (x : ascii) (a b : string) :
  (String x a ++ b)%string = String x (a ++ b)%string.
Proof. reflexivity. Qed.

Lemma append_nil_l (b : string) : ("" ++ b)%string = b.
Proof. reflexivity. Qed.

Ltac str_simpl := rewrite ?append_cons, ?append_nil_l in *; simpl in *.

Lemma append_assoc (a b c : string) : ((a ++ b) ++ c = a ++ (b ++ c))%string.
Proof. induction a as [|x a IH]; str_simpl; [done|]. by rewrite IH. Qed.

Lemma length_append (a b : string) :
  String.length (a ++ b) = (String.length a + String.length b)%nat.
Proof. induction a as [|x a IH]; str_simpl; [done|]. by rewrite IH. Qed.

Lemma append_inj_l (a b c : string) : (a ++ b = a ++ c)%string → b = c.
Proof. induction a as [|x a IH]; str_simpl; [done|]. intros [= H]. auto. Qed.

Lemma prefix_iff (a b : string) :
  String.prefix a b = true ↔ ∃ c, b = (a ++ c)%string.
Proof.
  revert b. induction a as [|x a IH]; intros b.
  - destruct b; simpl; split; eauto.
  - destruct b as [|y b]; simpl.
    + split; [discriminate|]. intros [c Hc]. discriminate.
    + destruct (ascii_dec x y) as [->|Hne].
      * rewrite IH. split; intros [c Hc]; exists c; str_simpl; congruence.
      * split; [discriminate|]. intros [c Hc]. str_simpl. congruence.
Qed.

Lemma prefix_false (a b : string) :
  String.prefix a b = false ↔ ¬ ∃ c, b = (a ++ c)%string.
Proof. rewrite <- prefix_iff. by destruct (String.prefix a b). Qed.

Lemma includes_intro (sub a c : string) :
  Str.includes sub (a ++ sub ++ c) = true.
Proof.
  induction a as [|x a IH]; str_simpl.
  - assert (H : String.prefix sub (sub ++ c) = true) by (apply prefix_iff; eauto).
    destruct (sub ++ c)%string; simpl in *; by rewrite H.
  - rewrite IH. apply orb_true_r.
Qed.

(** A name without a slash has no prefix that ends in a slash. *)
Lemma no_slash_prefix (k name : string) :
  Str.includes "/" name = false → String.prefix (k ++ "/") name = false.
Proof.
  intros Hno. apply prefix_false. intros [c Hc]. subst name.
  rewrite append_assoc in Hno. by rewrite includes_intro in Hno.
Qed.

Lemma append_neq_self (a b : string) : b ≠ ""%string → (a ++ b)%string ≠ a.
Proof.
  intros Hb E. apply (f_equal String.length) in E. rewrite length_append in E.
  destruct b; [done|]. simpl in E. lia.
Qed.

End StrFacts.

Module PathFacts.
Import Val ValFacts PathMap StrFacts.

Lemma traverse_unfold comps kids id props path pm :
  traverse (NodeInfo comps kids id props) path pm
  = fold_left (fun pm kv => traverse (snd kv) (childPath path (fst kv)) pm) kids
      (assoc_set path (NodeInfo comps kids id props) pm).
Proof.
  simpl. generalize (assoc_set path (NodeInfo comps kids id props) pm) as pm0.
  induction kids as [|[k c] kids IH]; intros pm0; simpl; [done|].
  by rewrite IH.
Qed.

Lemma childPath_nonempty path k : path ≠ ""%string → childPath path k ≠ ""%string.
Proof.
  intros Hp. unfold childPath.
  destruct (String.eqb path "") eqn:E; [by apply String.eqb_eq in E|]. simpl.
  destruct path; [done|]. discriminate.
Qed.

Lemma childPath_eq path k :
  path ≠ ""%string → childPath path k = (path ++ "/" ++ k)%string.
Proof.
  intros Hp. unfold childPath.
  destruct (String.eqb path "") eqn:E; [by apply String.eqb_eq in E|]. done.
Qed.

(** A walk below [path] writes only [path] and keys that extend [path/]. *)
Lemma traverse_frame t : ∀ path pm key,
  path ≠ ""%string → key ≠ path → String.prefix (path ++ "/") key = false →
  assoc_get key (traverse t path pm) = assoc_get key pm.
Proof.
  induction t as [comps kids id props IH] using tree_ind.
  intros path pm key Hp Hkey Hpre. rewrite traverse_unfold.
  assert (Hfold : ∀ pm0,
    assoc_get key
      (fold_left (fun pm kv => traverse (snd kv) (childPath path (fst kv)) pm)
         kids pm0)
    = assoc_get key pm0).
  { induction IH as [|[k c] kids' Hc _ IHk]; intros pm0; simpl; [done|].
    rewrite IHk. simpl in Hc. apply Hc.
    - by apply childPath_nonempty.
    - rewrite childPath_eq by done. intros ->.
      apply prefix_false in Hpre. apply Hpre. exists k.
      by rewrite append_assoc.
    - rewrite childPath_eq by done. apply prefix_false. intros [c' Hc'].
      apply prefix_false in Hpre. apply Hpre. exists (k ++ "/" ++ c')%string.
      rewrite Hc'. by rewrite !append_assoc. }
  rewrite Hfold. apply assoc_get_set_ne. congruence.
Qed.

(** After the walk of a node, its own path is bound to it. *)
Lemma traverse_self t path pm :
  path ≠ ""%string → assoc_get path (traverse t path pm) = Some t.
Proof.
  intros Hp. destruct t as [comps kids id props]. rewrite traverse_unfold.
  generalize (assoc_get_set_eq path (NodeInfo comps kids id props) pm).
  generalize (assoc_set path (NodeInfo comps kids id props) pm) as pm0.
  generalize (NodeInfo comps kids id props) as t.
  induction kids as [|[k c] kids IH]; intros t pm0 H0; simpl; [done|].
  apply IH. rewrite traverse_frame; [done|by apply childPath_nonempty| |].
  - rewrite childPath_eq by done. intros E. symmetry in E.
    by apply append_neq_self in E.
  - rewrite childPath_eq by done. apply prefix_false. intros [c' E].
    rewrite !append_assoc in E. symmetry in E. by apply append_neq_self in E.
Qed.

(** The walk of a parent binds [path/name] to the child the children
    mapping holds under a slash-free [name]. *)
Lemma traverse_child comps kids id props path pm name child :
  path ≠ ""%string → NoDup (map fst kids) →
  assoc_get name kids = Some child → Str.includes "/" name = false →
  assoc_get (path ++ "/" ++ name)%string
    (traverse (NodeInfo comps kids id props) path pm) = Some child.
Proof.
  intros Hp Hnd Hget Hslash. rewrite traverse_unfold.
  generalize (assoc_set path (NodeInfo comps kids id props) pm) as pm0.
  clear pm. revert Hnd Hget.
  induction kids as [|[k c] kids IH]; intros Hnd Hget pm0; simpl in *; [done|].
  apply NoDup_cons in Hnd as [Hk Hnd].
  destruct (String.eqb name k) eqn:E.
  - apply String.eqb_eq in E. subst k. injection Hget as ->.
    assert (Hrest : ∀ pm1,
      assoc_get (path ++ "/" ++ name)%string pm1 = Some child →
      assoc_get (path ++ "/" ++ name)%string
        (fold_left (fun pm kv => traverse (snd kv) (childPath path (fst kv)) pm)
           kids pm1) = Some child).
    { clear IH Hnd. revert Hk.
      induction kids as [|[k' c'] kids IHk]; intros Hk pm1 H1; simpl; [done|].
      apply IHk.
      - intros Hin. apply Hk. simpl. by right.
      - rewrite traverse_frame; [done|by apply childPath_nonempty| |].
        + rewrite childPath_eq by done. intros E.
          apply append_inj_l in E. rewrite !append_cons, !append_nil_l in E.
          injection E as ->. apply Hk. simpl. by left.
        + rewrite childPath_eq by done. apply prefix_false. intros [c0 E].
          rewrite !append_assoc in E. apply append_inj_l in E.
          rewrite !append_cons, !append_nil_l in E.
          injection E as E.
          pose proof (no_slash_prefix k' name Hslash) as Hno.
          apply prefix_false in Hno. apply Hno. exists c0.
          by rewrite append_assoc. }
    apply Hrest. rewrite <- (childPath_eq path name) by done.
    apply traverse_self. by apply childPath_nonempty.
  - by apply IH.
Qed.

End PathFacts.

(* ===================================================================== *)
(** * Properties of the global substitution pass                           *)
(* ===================================================================== *)

Module SubstFacts.
Import Val Compiler Applier.

(** The sort by [at_first] is the stable partition: the pairs with [@], then
    the pairs without, each group in its original order. *)
Lemma insert_at l x :
  hasAt x = true → Arr.insert_sorted at_first x l = x :: l.
Proof.
  intros Hx. destruct l as [|y l]; simpl; [done|].
  unfold at_first. rewrite Hx. simpl. by destruct (hasAt y).
Qed.

Lemma insert_plain l1 l2 x :
  hasAt x = false → Forall (fun y => hasAt y = true) l1 →
  Forall (fun y => hasAt y = false) l2 →
  Arr.insert_sorted at_first x (l1 ++ l2) = l1 ++ x :: l2.
Proof.
  intros Hx H1 H2. induction H1 as [|y l1 Hy _ IH]; simpl.
  - destruct l2 as [|z l2]; simpl; [done|].
    apply Forall_cons in H2 as [Hz _]. unfold at_first. by rewrite Hx, Hz.
  - unfold at_first at 1. rewrite Hx, Hy. simpl. by rewrite IH.
Qed.

Lemma sort_at_first l :
  Arr.sort at_first l
  = List.filter hasAt l ++ List.filter (fun x => negb (hasAt x)) l.
Proof.
  induction l as [|x l IH]; simpl; [done|]. rewrite IH.
  destruct (hasAt x) eqn:Hx; simpl.
  - by apply insert_at.
  - apply insert_plain; [done| |]; apply List.Forall_forall; intros y Hy;
      apply filter_In in Hy as [_ Hy]; [done|by destruct (hasAt y)].
Qed.

Lemma partition_at_pairs_first (l : list substitution) :
  at_pairs_first (List.filter hasAt l ++ List.filter (fun x => negb (hasAt x)) l).
Proof.
  intros i j a b Hi Hj Ha Hb.
  destruct (decide (i < length (List.filter hasAt l))%nat) as [Hlt|Hge].
  - destruct (decide (j < length (List.filter hasAt l))%nat) as [Hj'|Hj']; [|lia].
    rewrite lookup_app_l in Hj by done.
    apply list_elem_of_lookup_2, list_elem_of_In, filter_In in Hj as [_ Hj].
    congruence.
  - rewrite lookup_app_r in Hi by lia.
    apply list_elem_of_lookup_2, list_elem_of_In, filter_In in Hi as [_ Hi].
    rewrite Ha in Hi. done.
Qed.

(** [traverse] applies [replaceString] to every string held inside. *)
Lemma traverse_map_strings from to v :
  traverse from to v = map_strings (fun s => replaceString s from to) v.
Proof.
  induction v as [| | | | |l IH|kvs IH] using value_ind; simpl; try done.
  - f_equal. induction IH as [|x l Hx _ IHl]; simpl; [done|].
    rewrite IHl. by destruct x; try rewrite Hx.
  - f_equal. induction IH as [|[k x] kvs Hx _ IHl]; simpl; [done|].
    rewrite IHl. simpl in Hx. by destruct x; try rewrite Hx.
Qed.

Lemma map_strings_compose f g v :
  map_strings g (map_strings f v) = map_strings (fun s => g (f s)) v.
Proof.
  induction v as [| | | | |l IH|kvs IH] using value_ind; simpl; try done.
  - f_equal. induction IH as [|x l Hx _ IHl]; simpl; [done|].
    rewrite IHl. f_equal. destruct x; try done; simpl in *; by rewrite <- Hx.
  - f_equal. induction IH as [|[k x] kvs Hx _ IHl]; simpl; [done|].
    rewrite IHl. f_equal. simpl in Hx. f_equal.
    destruct x; try done; simpl in *; by rewrite <- Hx.
Qed.

Lemma map_strings_id v : map_strings (fun s => s) v = v.
Proof.
  induction v as [| | | | |l IH|kvs IH] using value_ind; simpl; try done.
  - f_equal. induction IH as [|x l Hx _ IHl]; simpl; [done|].
    rewrite IHl. f_equal. by destruct x.
  - f_equal. induction IH as [|[k x] kvs Hx _ IHl]; simpl; [done|].
    rewrite IHl. f_equal. simpl in Hx. f_equal. by destruct x.
Qed.

Lemma map_strings_ext f g v : (∀ s, f s = g s) → map_strings f v = map_strings g v.
Proof.
  intros Hfg.
  induction v as [| | | | |l IH|kvs IH] using value_ind; simpl; try done.
  - f_equal. induction IH as [|x l Hx _ IHl]; simpl; [done|].
    rewrite IHl. f_equal. destruct x; try done. by rewrite Hfg.
  - f_equal. induction IH as [|[k x] kvs Hx _ IHl]; simpl; [done|].
    rewrite IHl. f_equal. simpl in Hx. f_equal. destruct x; try done.
    by rewrite Hfg.
Qed.

(** The pass applies the instructions one after the other, in list order,
    to every string of every record. *)
Lemma applyStringReplaceInstructions_spec instructions : ∀ data,
  applyStringReplaceInstructions data instructions
  = map (map_strings (string_pass instructions)) data.
Proof.
  unfold applyStringReplaceInstructions, string_pass.
  induction instructions as [|ins rest IH]; intros data; simpl.
  - rewrite <- (map_id data) at 1. apply map_ext. intros v.
    by rewrite map_strings_id.
  - rewrite IH, map_map. apply map_ext. intros v.
    by rewrite traverse_map_strings, map_strings_compose.
Qed.

End SubstFacts.

(* ===================================================================== *)
(** * The path map of a parsed array is well formed                        *)
(* ===================================================================== *)

Module GraphFacts.
Import Val ValFacts Parser ParserFacts PathMap PathFacts Shape.

Lemma assoc_set_Forall {A} (P : string * A → Prop) k (v : A) kvs :
  P (k, v) → Forall P kvs → Forall P (assoc_set k v kvs).
Proof.
  intros Hv Hall. induction Hall as [|[k' v'] kvs Hx Hrest IH]; simpl.
  - by constructor.
  - destruct (String.eqb k k'); constructor; auto.
Qed.

Lemma foldM_invariant {A B} (step : A → B → result A) (I : A → Prop) xs :
  (∀ acc x acc', I acc → step acc x = Ok acc' → I acc') →
  ∀ acc acc', I acc → foldM step acc xs = Ok acc' → I acc'.
Proof.
  intros Hstep. induction xs as [|x xs IH]; intros acc acc' Hacc; simpl.
  - by intros [= <-].
  - destruct (step acc x) as [acc1|] eqn:E; simpl; [|discriminate].
    apply IH. by eapply Hstep.
Qed.

Lemma parseComponent_NoDup data component :
  NoDup (map fst (parseComponent data component)).
Proof.
  unfold parseComponent. destruct component; try apply NoDup_nil_2.
  assert (H : ∀ acc : obj, NoDup (map fst acc) →
    NoDup (map fst
      (fold_left
         (fun result kv =>
            let '(key, v) := kv in
            if String.eqb key "__type__" then result
            else if is_reference v
                 then assoc_set key (resolveReference data (get v "__id__")) result
                 else assoc_set key v result)
         kvs acc))).
  { induction kvs as [|[k v] kvs IH]; intros acc Hacc; simpl; [done|].
    apply IH. destruct (String.eqb k "__type__"); [done|].
    destruct (is_reference v); by apply assoc_set_NoDup. }
  apply H. apply NoDup_nil_2.
Qed.

Lemma foldM_invariant_In {A B} (step : A → B → result A) (I : A → Prop) xs :
  (∀ acc x acc', In x xs → I acc → step acc x = Ok acc' → I acc') →
  ∀ acc acc', I acc → foldM step acc xs = Ok acc' → I acc'.
Proof.
  induction xs as [|x xs IH]; intros Hstep acc acc' Hacc; simpl.
  - by intros [= <-].
  - destruct (step acc x) as [acc1|] eqn:E; simpl; [|discriminate].
    apply IH.
    + intros a y a' Hy. apply Hstep. by right.
    + eapply Hstep; [by left|done|done].
Qed.

Lemma parseNode_component_inv data refs comps compRef comps' :
  In compRef refs →
  comps_inv data refs comps → parseNode_component data comps compRef = Ok comps' →
  comps_inv data refs comps'.
Proof.
  intros Hin [Hnd Hall]. unfold parseNode_component.
  destruct (truthy compRef) eqn:Tr; simpl; [|by intros [= <-]].
  destruct (negb (is_undefined (get compRef "__id__"))); [|by intros [= <-]].
  destruct (truthy (arr_get data (get compRef "__id__"))) eqn:Tc; simpl;
    [|by intros [= <-]].
  destruct (truthy (get (arr_get data (get compRef "__id__")) "__type__")) eqn:Tt;
    simpl; [|by intros [= <-]].
  destruct (get (arr_get data (get compRef "__id__")) "__type__") as [| | | |t| |]
    eqn:Et; try discriminate.
  intros [= <-]. split; [by apply assoc_set_NoDup|].
  apply assoc_set_Forall; [|done].
  assert (Hid : comp_id (assoc_set "__compId__" (get compRef "__id__")
                           (parseComponent data (arr_get data (get compRef "__id__"))))
                = get compRef "__id__").
  { unfold comp_id, obj_get. by rewrite assoc_get_set_eq. }
  split; [|split].
  - unfold comp_ok. simpl. rewrite Hid.
    destruct (arr_get data (get compRef "__id__")) as [| | | | | |o] eqn:Ec;
      try discriminate.
    simpl in Et. rewrite Et. simpl in Tt. rewrite Tt. simpl.
    apply String.eqb_refl.
  - simpl. apply assoc_set_NoDup, parseComponent_NoDup.
  - simpl. rewrite Hid. apply existsb_exists. exists compRef.
    split; [done|]. by rewrite Tr, eqb_refl.
Qed.

Lemma child_of_Some data childRef name id node :
  child_of data childRef = Some (name, id, node) →
  arr_get data id = node ∧ is_node_record node = true.
Proof.
  unfold child_of, is_node_record.
  destruct (truthy childRef && negb (is_undefined (get childRef "__id__")));
    [|discriminate].
  destruct (truthy (arr_get data (get childRef "__id__"))
            && eqb (get (arr_get data (get childRef "__id__")) "__type__")
                 (VStr "cc.Node")) eqn:E; [|discriminate].
  intros [= <- <- <-]. done.
Qed.

(** Projection yields a well-formed tree. *)
Lemma parseNode_wf data depth : ∀ nodeIndex nodeData t,
  arr_get data nodeIndex = nodeData → is_node_record nodeData = true →
  parseNode data depth nodeIndex nodeData = Ok t → tree_wf data t.
Proof.
  induction depth as [|depth IH]; intros nodeIndex nodeData t Hget Hnode;
    [discriminate|].
  rewrite parseNode_unfold.
  destruct (foldM (parseNode_component data) [] _) as [comps|] eqn:Ec; simpl;
    [|discriminate].
  destruct (foldM (kid_step data depth) [] _) as [kids|] eqn:Ek; simpl;
    [|discriminate].
  intros [= <-].
  assert (Hcomps : comps_inv data (array_items (get nodeData "_components")) comps).
  { eapply (foldM_invariant_In _
              (comps_inv data (array_items (get nodeData "_components"))));
      [|..|exact Ec].
    - intros acc x acc' Hx. by apply parseNode_component_inv.
    - split; constructor. }
  assert (Hkids : NoDup (map fst kids) ∧ Forall (fun kv => tree_wf data (snd kv)) kids).
  { eapply (foldM_invariant _
              (fun kids => NoDup (map fst kids)
                           ∧ Forall (fun kv => tree_wf data (snd kv)) kids));
      [|..|exact Ek].
    - intros acc x acc' [Hnd Hall]. unfold kid_step.
      destruct (child_of data x) as [[[name id] node]|] eqn:Ex; [|by intros [= <-]].
      destruct (parseNode data depth id node) as [child|] eqn:Ep; simpl;
        [|discriminate].
      intros [= <-]. split; [by apply assoc_set_NoDup|].
      apply assoc_set_Forall; [|done]. simpl.
      apply child_of_Some in Ex as [Hid Hn]. by apply (IH id node).
    - split; constructor. }
  destruct Hcomps as [Hnd Hall]. destruct Hkids as [Hkn Hkw].
  constructor; try done.
  - unfold node_ok. simpl. rewrite Hget, Hnode. simpl.
    rewrite List.Forall_forall in Hall. apply andb_true_intro. split.
    + apply forallb_forall. intros kc Hkc. by apply Hall.
    + apply forallb_forall. intros kc Hkc. by apply Hall.
  - eapply Forall_impl; [exact Hall|]. by intros kc (_ & ? & _).
Qed.

Lemma traverse_inv data t : ∀ path pm,
  tree_wf data t → pathmap_inv data pm → pathmap_inv data (traverse t path pm).
Proof.
  induction t as [comps kids id props IH] using tree_ind.
  intros path pm Hwf Hpm. inversion Hwf as [? ? ? ? Hok Hcn Hcf Hkn Hkw]; subst.
  rewrite traverse_unfold.
  assert (H0 : pathmap_inv data (assoc_set path (NodeInfo comps kids id props) pm)).
  { destruct Hpm as [Hnd Hall]. split; [by apply assoc_set_NoDup|].
    apply assoc_set_Forall; [|done]. simpl. done. }
  revert H0. generalize (assoc_set path (NodeInfo comps kids id props) pm) as pm0.
  clear Hkn Hok Hwf.
  induction IH as [|[k c] kids' Hc _ IHk]; intros pm0 H0; simpl; [done|].
  apply Forall_cons in Hkw as [Hcw Hkw].
  apply IHk; [done|]. apply Hc; done.
Qed.

Lemma buildPathMap_inv data name t :
  tree_wf data t → pathmap_inv data (buildPathMap [(name, t)]).
Proof.
  intros Hwf. unfold buildPathMap. simpl. apply traverse_inv; [done|].
  split; constructor.
Qed.

Lemma pathmap_inv_ok data pm :
  pathmap_inv data pm → pathmap_ok data pm = true ∧ distinct_keys pm.
Proof.
  intros [Hnd Hall]. split.
  - unfold pathmap_ok. apply forallb_forall. rewrite List.Forall_forall in Hall.
    intros entry He. by apply Hall.
  - split; [done|]. eapply Forall_impl; [exact Hall|]. by intros entry (_ & ? & ?).
Qed.

(** The path map of a parsed array describes the array. *)
Lemma parse_pathmap depth data t :
  parse depth (VArr data) = Ok t →
  pathmap_ok data (buildPathMap t) = true ∧ distinct_keys (buildPathMap t).
Proof.
  rewrite parse_array. destruct (forallb _ data); [|discriminate].
  destruct (List.find _ (node_records data)) as [[i node]|] eqn:Ef; [|discriminate].
  apply find_root_some in Ef as (Hi & Hnode & _).
  unfold buildNodeTree.
  destruct (parseNode data depth (VNum (Z.of_nat i)) node) as [tree|] eqn:Ep;
    simpl; [|discriminate].
  intros [= <-]. apply pathmap_inv_ok, buildPathMap_inv.
  eapply parseNode_wf; [|exact Hnode|exact Ep].
  rewrite arr_get_num. by rewrite Hi.
Qed.

End GraphFacts.

(* ===================================================================== *)
(** * Properties of the migration compiler and of the applier              *)
(* ===================================================================== *)

Module MigrateFacts.
Import Val ValFacts Config Compiler Applier Shape.

(** ** The configuration *)


(** ** Distinct slots *)








(** ** The instructions of one matched component *)

Lemma in_rule_instructions v2Node compType v3Comp rule ins :
  In ins (rule_instructions v2Node compType v3Comp rule) →
  (target rule = "Node"
   ∧ ∃ v3Field v2Field field,
       In (v3Field, v2Field) (fieldMap rule) ∧ In field (targets v2Field)
       ∧ is_nullish (obj_get v3Field v3Comp) = false
       ∧ ins = TRANSFORM_TO_NODE (nodeId v2Node) field (obj_get v3Field v3Comp)
                 (compType ++ "." ++ v3Field)%string)
  ∨ (target rule ≠ "Node"
     ∧ ∃ c2 field v src,
         assoc_get (target rule) (components v2Node) = Some c2
         ∧ ins = TRANSFORM_TO_COMPONENT (comp_id c2) field v src).
Proof.
  unfold rule_instructions.
  destruct (String.eqb (target rule) "Node") eqn:Et.
  - apply String.eqb_eq in Et. intros Hin. left. split; [done|].
    apply in_flat_map in Hin as ([v3Field v2Field] & Hentry & Hin).
    destruct (is_nullish (obj_get v3Field v3Comp)) eqn:En; simpl in Hin; [done|].
    apply in_map_iff in Hin as (field & <- & Hf).
    exists v3Field, v2Field, field. done.
  - destruct (assoc_get (target rule) (components v2Node)) as [c2|] eqn:Ec; [|done].
    intros Hin. right. split; [by apply String.eqb_neq in Et|].
    apply in_flat_map in Hin as ([v3Field v2Field] & Hentry & Hin).
    destruct (is_nullish (obj_get v3Field v3Comp)); simpl in Hin; [done|].
    apply in_map_iff in Hin as (field & <- & Hf).
    eexists c2, field, _, _. done.
Qed.

Lemma component_instructions_eq v2Node compType v3Comp :
  component_instructions v2Node (compType, v3Comp)
  = match assoc_get compType COMPONENT_TRANSFORM_RULES with
    | Some transformRules =>
        flat_map (rule_instructions v2Node compType v3Comp) transformRules
    | None => []
    end
    ++ match assoc_get compType (components v2Node) with
       | Some v2Comp =>
           match fieldsToMigrate compType v3Comp v2Comp with
           | [] => []
           | fields => [MIGRATE_COMPONENT (comp_id v2Comp) compType fields]
           end
       | None => []
       end.
Proof.
  unfold component_instructions.
  destruct (assoc_get compType (components v2Node)) as [v2Comp|];
    [|by rewrite app_nil_r].
  destruct (fieldsToMigrate compType v3Comp v2Comp); [by rewrite app_nil_r|done].
Qed.


(** ** The fields of the generic migration *)

Lemma in_fieldsToMigrate compType v3Comp v2Comp field v :
  In (field, v) (fieldsToMigrate compType v3Comp v2Comp)
  ↔ In (field, v) v3Comp
    ∧ is_nullish v = false ∧ is_undefined (obj_get field v2Comp) = false
    ∧ is_projected_ref v = false ∧ shouldMigrateField compType field = true.
Proof.
  unfold fieldsToMigrate. rewrite in_flat_map. split.
  - intros ([f x] & Hin & Hx).
    destruct (is_nullish x) eqn:E1; simpl in Hx; [done|].
    destruct (is_undefined (obj_get f v2Comp)) eqn:E2; simpl in Hx; [done|].
    destruct (is_projected_ref x) eqn:E3; [done|].
    destruct (shouldMigrateField compType f) eqn:E4; [|done].
    destruct Hx as [[= <- <-]|[]]. done.
  - intros (Hin & E1 & E2 & E3 & E4). exists (field, v). split; [done|].
    rewrite E1, E2, E3, E4. simpl. by left.
Qed.


(** ** The applier, slot by slot *)

Lemma fold_set_obj fields o :
  fold_left (fun c fv => set c (fst fv) (snd fv)) fields (VObj o)
  = VObj (fold_left (fun o fv => assoc_set (fst fv) (snd fv) o) fields o).
Proof. revert o. induction fields as [|[f v] fields IH]; intros o; simpl; auto. Qed.



Lemma apply_frame data ins s :
  target_slot ins ≠ Some s → apply_instruction data ins !! s = data !! s.
Proof.
  intros Hne. destruct ins as [id f v src|id f v src|id k fields]; simpl in *;
    unfold arr_set;
    match goal with |- context [if ?b then _ else _] => destruct b end;
    try done;
    (destruct (to_index id) as [i|]; [|done]);
    apply list_lookup_insert_ne; congruence.
Qed.

Lemma apply_all_frame instructions : ∀ data s,
  Forall (fun ins => target_slot ins ≠ Some s) instructions →
  applyMigrationInstructions data instructions !! s = data !! s.
Proof.
  unfold applyMigrationInstructions.
  induction instructions as [|ins rest IH]; intros data s Hall; simpl; [done|].
  apply Forall_cons in Hall as [Hins Hall].
  rewrite IH by done. by apply apply_frame.
Qed.

(** A slot that holds a record keeps holding a record. *)
Lemma apply_keeps_record data ins s o :
  data !! s = Some (VObj o) → ∃ o', apply_instruction data ins !! s = Some (VObj o').
Proof.
  intros Hs.
  destruct (decide (target_slot ins = Some s)) as [Ht|Ht];
    [|exists o; by rewrite apply_frame].
  assert (Hlt : (s < length data)%nat) by (by apply lookup_lt_Some in Hs).
  destruct ins as [id f v src|id f v src|id k fields]; simpl in *;
    unfold arr_set, arr_get; rewrite Ht, Hs; simpl.
  - destruct (eqb (obj_get "__type__" o) (VStr "cc.Node")); [|by exists o].
    rewrite list_lookup_insert_eq by done. eauto.
  - rewrite list_lookup_insert_eq by done. eauto.
  - rewrite list_lookup_insert_eq by done. rewrite fold_set_obj. eauto.
Qed.

Lemma apply_all_keeps_record instructions : ∀ data s o,
  data !! s = Some (VObj o) →
  ∃ o', applyMigrationInstructions data instructions !! s = Some (VObj o').
Proof.
  unfold applyMigrationInstructions.
  induction instructions as [|ins rest IH]; intros data s o Hs; simpl; [eauto|].
  destruct (apply_keeps_record data ins s o Hs) as [o1 H1]. by apply (IH _ s o1).
Qed.



(** ** The slot of a parsed component *)

Lemma comp_ok_slot data k c :
  comp_ok data (k, c) = true →
  ∃ s o, to_index (comp_id c) = Some s ∧ data !! s = Some (VObj o)
         ∧ arr_get data (comp_id c) = VObj o.
Proof.
  unfold comp_ok. simpl.
  destruct (arr_get data (comp_id c)) as [| | | | | |o] eqn:E; try discriminate.
  intros _.
  destruct (arr_get_truthy data (comp_id c)) as (s & Hs & Hd); [by rewrite E|].
  rewrite E in Hd. by exists s, o.
Qed.

Lemma pathmap_ok_comp data pm p n k c :
  pathmap_ok data pm = true → In (p, n) pm → In (k, c) (components n) →
  comp_ok data (k, c) = true.
Proof.
  unfold pathmap_ok, node_ok. rewrite forallb_forall. intros Hall Hn Hc.
  specialize (Hall _ Hn). simpl in Hall. apply andb_prop in Hall as [Hall _].
  apply andb_prop in Hall as [_ Hall].
  rewrite forallb_forall in Hall. by apply Hall.
Qed.






End MigrateFacts.

(* ===================================================================== *)
(** * Properties of removal planning                                       *)
(* ===================================================================== *)

Module RemGenFacts.
Import Val ValFacts Config Compiler Applier Shape MigrateFacts.

Lemma findIndex_from_Some {A} (p : A → result bool) l : ∀ k i,
  Arr.findIndex_from p k l = Ok (Some i) →
  (k <= i)%nat ∧ ∃ x, l !! (i - k)%nat = Some x ∧ p x = Ok true.
Proof.
  induction l as [|a l IH]; intros k i; simpl; [discriminate|].
  destruct (p a) as [[|]|] eqn:E; simpl; [| |discriminate].
  - intros [= <-]. split; [lia|]. exists a. by rewrite Nat.sub_diag.
  - intros H. destruct (IH _ _ H) as (Hk & x & Hx & Hp). split; [lia|].
    exists x. split; [|done]. by replace (i - k)%nat with (S (i - S k)) by lia.
Qed.


(** What [removal_for] returns when it does not throw: nothing, or one
    removal whose recorded position holds the reference to the component. *)
Lemma removal_for_spec data path n kind c rs :
  removal_for data path n (kind, c) = Ok rs →
  rs = []
  ∨ ∃ i nid o refs ref,
      rs = [ {| nodeId_of := nodeId n; compId_of := comp_id c; compType_of := kind;
                compIndex_of := i; nodePath_of := path |} ]
      ∧ existsb (String.eqb kind) COMPONENTS_TO_REMOVE = true
      ∧ to_index (nodeId n) = Some nid ∧ data !! nid = Some (VObj o)
      ∧ obj_get "_components" o = VArr refs
      ∧ refs !! i = Some ref ∧ get ref "__id__" = comp_id c.
Proof.
  unfold removal_for.
  destruct (existsb (String.eqb kind) COMPONENTS_TO_REMOVE) eqn:Ek;
    [|intros [= <-]; by left].
  destruct (truthy (arr_get data (nodeId n))) eqn:Tn; simpl;
    [|intros [= <-]; by left].
  destruct (truthy (get (arr_get data (nodeId n)) "_components")) eqn:Tc; simpl;
    [|intros [= <-]; by left].
  destruct (get (arr_get data (nodeId n)) "_components") as [| | | | |refs|] eqn:Ec;
    try discriminate.
  destruct (Arr.findIndex (ref_is (obj_get "__compId__" c)) refs) as [[i|]|] eqn:Ef;
    simpl; [| |discriminate].
  - intros [= <-]. right.
    apply findIndex_from_Some in Ef as (_ & ref & Hi & Hp).
    rewrite Nat.sub_0_r in Hi.
    destruct (arr_get_truthy data (nodeId n) Tn) as (nid & Hnid & Hd).
    destruct (arr_get data (nodeId n)) as [| | | | | |o] eqn:En; try discriminate.
    exists i, nid, o, refs, ref. repeat split; try done.
    unfold ref_is in Hp. destruct (is_nullish ref); [discriminate|].
    injection Hp as Hp. by apply eqb_eq in Hp.
  - intros [= <-]. by left.
Qed.



Lemma in_planned data pm r :
  In r (planned data pm) →
  ∃ path n kind c,
    In (path, n) pm ∧ In (kind, c) (components n)
    ∧ In r (ok_or_nil (removal_for data path n (kind, c))).
Proof.
  unfold planned. intros Hin.
  apply in_flat_map in Hin as ([path n] & Hn & Hin).
  apply in_flat_map in Hin as ([kind c] & Hc & Hin).
  by exists path, n, kind, c.
Qed.

(** A planned removal, in full. *)
Lemma in_planned_spec data r path n kind c :
  In r (ok_or_nil (removal_for data path n (kind, c))) →
  ∃ i nid o refs ref,
    r = {| nodeId_of := nodeId n; compId_of := comp_id c; compType_of := kind;
           compIndex_of := i; nodePath_of := path |}
    ∧ existsb (String.eqb kind) COMPONENTS_TO_REMOVE = true
    ∧ to_index (nodeId n) = Some nid ∧ data !! nid = Some (VObj o)
    ∧ obj_get "_components" o = VArr refs
    ∧ refs !! i = Some ref ∧ get ref "__id__" = comp_id c.
Proof.
  destruct (removal_for data path n (kind, c)) as [rs|] eqn:E; [|done].
  simpl. intros Hin.
  apply removal_for_spec in E as [->|(i & nid & o & refs & ref & -> & H)]; [done|].
  destruct Hin as [<-|[]]. by exists i, nid, o, refs, ref.
Qed.






(** ** The kinds of the records that remain *)

Lemma obj_get_updateReferences m k kvs :
  k ≠ "__id__" →
  obj_get k
    (map (fun kv => if String.eqb (fst kv) "__id__"
                    then (fst kv, Compact.remap m (snd kv))
                    else (fst kv, Compact.updateReferences m (snd kv))) kvs)
  = Compact.updateReferences m (obj_get k kvs).
Proof.
  intros Hk. unfold obj_get.
  induction kvs as [|[k' v] kvs IH]; [done|].
  cbn [map fst snd].
  destruct (String.eqb k' "__id__") eqn:E'; cbn [assoc_get];
    destruct (String.eqb k k') eqn:E; try done.
  apply String.eqb_eq in E, E'. congruence.
Qed.

Lemma has_removed_kind_updateReferences m v :
  has_removed_kind (Compact.updateReferences m v) = has_removed_kind v.
Proof.
  unfold has_removed_kind. destruct v as [| | | | | |kvs]; try done.
  cbn [Compact.updateReferences get].
  rewrite obj_get_updateReferences; [|done].
  by destruct (obj_get "__type__" kvs).
Qed.

Lemma has_removed_kind_truthy v : has_removed_kind v = true → truthy v = true.
Proof. unfold has_removed_kind. by destruct v. Qed.

(** A record of a removed kind that the removal loop leaves in place was
    such a record before, in a slot that no removal names. *)
Lemma has_removed_kind_removed_slot rems i v :
  has_removed_kind (removed_slot rems i v) = true →
  has_removed_kind v = true
  ∧ existsb (fun r => bool_decide (comp_slot r = Some i)) rems = false.
Proof.
  unfold removed_slot.
  destruct (existsb (fun r => bool_decide (comp_slot r = Some i)) rems) eqn:E;
    cbn [andb].
  - destruct (truthy v) eqn:Tv; [discriminate|].
    intros H. assert (has_removed_kind v = true) as Hv.
    { revert H. destruct v as [| | | | | |o]; try done. }
    apply has_removed_kind_truthy in Hv. congruence.
  - intros H. split; [|done]. revert H.
    destruct v as [| | | | | |o]; try done.
    destruct (obj_get "_components" o); try done.
    unfold has_removed_kind. cbn [get]. unfold obj_get.
    by rewrite assoc_get_set_ne.
Qed.

(** Where every record of a removed kind is named by some removal, the
    compacted result has no record of a removed kind. *)
Lemma no_removed_kind_left data rems :
  (∀ i v, data !! i = Some v → has_removed_kind v = true →
          ∃ r, In r rems ∧ comp_slot r = Some i) →
  Forall (fun rec => has_removed_kind rec = false)
    (Compact.compactAndReindexPrefab (removed_state data rems)).
Proof.
  intros Hall. rewrite CompactFacts.compactAndReindexPrefab_eq.
  apply List.Forall_forall. intros x Hx.
  apply in_map_iff in Hx as (y & <- & Hy).
  rewrite has_removed_kind_updateReferences.
  unfold Compact.live_records in Hy. apply filter_In in Hy as [Hy _].
  unfold removed_state in Hy.
  apply list_elem_of_In, elem_of_lookup_imap in Hy as (i & v & -> & Hv).
  apply not_true_is_false. intros Hk.
  apply has_removed_kind_removed_slot in Hk as [Hk Hnone].
  destruct (Hall i v Hv Hk) as (r & Hr & Hs).
  assert (existsb (fun r => bool_decide (comp_slot r = Some i)) rems = true) as E.
  { apply existsb_exists. exists r. split; [done|]. by apply bool_decide_eq_true. }
  congruence.
Qed.

(** The slot of a removed component is vacated. *)
Lemma planned_vacated data pm r :
  pathmap_ok data pm = true → In r (planned data pm) →
  ∃ c, comp_slot r = Some c
       ∧ removed_state data (planned data pm) !! c = Some VUndef.
Proof.
  intros Hok Hr. pose proof Hr as Hr0.
  apply in_planned in Hr as (path & n & kind & c & Hn & Hc & Hr).
  apply in_planned_spec in Hr as (i & nid & o & refs & ref & -> & _).
  destruct (comp_ok_slot data kind c) as (s & o' & Hs & Hd & _).
  { by eapply pathmap_ok_comp. }
  exists s. split; [done|].
  unfold removed_state. rewrite list_lookup_imap, Hd. cbn [fmap option_fmap option_map].
  unfold removed_slot.
  replace (existsb _ (planned data pm)) with true; [done|].
  symmetry. apply existsb_exists. eexists. split; [exact Hr0|].
  by apply bool_decide_eq_true.
Qed.

End RemGenFacts.

(* ===================================================================== *)
(** * Properties of the main migration flow                                *)
(* ===================================================================== *)

Module PipelineFacts.
Import Val ValFacts Config Compiler Applier Shape MigrateFacts RemGenFacts.

(** ** The rule table *)




(** ** Assignments on a node *)






(** ** The instructions that address a node *)

Lemma in_generateMigrationInstructions pm3 pm2 ins :
  In ins (generateMigrationInstructions pm3 pm2) →
  ∃ p n3 n2 k c3,
    In (p, n3) pm3 ∧ assoc_get p pm2 = Some n2 ∧ In (k, c3) (components n3)
    ∧ In ins (component_instructions n2 (k, c3)).
Proof.
  unfold generateMigrationInstructions. intros Hin.
  apply in_flat_map in Hin as ([p n3] & Hn3 & Hin). unfold node_instructions in Hin.
  destruct (assoc_get p pm2) as [n2|] eqn:E; [|done].
  apply in_flat_map in Hin as ([k c3] & Hc3 & Hin).
  by exists p, n3, n2, k, c3.
Qed.

(** An instruction of a matched component assigns a node field named by a
    rule, or addresses a component of the target node. *)
Lemma component_instruction_shape n2 k c3 ins :
  In ins (component_instructions n2 (k, c3)) →
  (∃ rules rule f3 tgt fld,
      assoc_get k COMPONENT_TRANSFORM_RULES = Some rules ∧ In rule rules
      ∧ target rule = "Node" ∧ In (f3, tgt) (fieldMap rule) ∧ In fld (targets tgt)
      ∧ is_nullish (obj_get f3 c3) = false
      ∧ ins = TRANSFORM_TO_NODE (nodeId n2) fld (obj_get f3 c3)
                (k ++ "." ++ f3)%string)
  ∨ (∃ k2 c2, In (k2, c2) (components n2)
              ∧ target_slot ins = to_index (comp_id c2)).
Proof.
  rewrite component_instructions_eq. intros Hin. apply in_app_or in Hin as [Hin|Hin].
  - destruct (assoc_get k COMPONENT_TRANSFORM_RULES) as [rules|] eqn:Er; [|done].
    apply in_flat_map in Hin as (rule & Hrule & Hin).
    apply in_rule_instructions in Hin
      as [(Ht & f3 & tgt & fld & He & Hf & Hn & ->)|(_ & c2 & fld & v & src & Hc2 & ->)].
    + left. by exists rules, rule, f3, tgt, fld.
    + right. exists (target rule), c2. split; [by apply assoc_get_In|done].
  - destruct (assoc_get k (components n2)) as [c2|] eqn:Ec; [|done].
    right. exists k, c2. split; [by apply assoc_get_In|].
    destruct (fieldsToMigrate k c3 c2); [done|].
    by destruct Hin as [<-|[]].
Qed.




(** ** Type replacements leave the nodes alone *)


Lemma apply_replacement_frame data rep s :
  to_index (rep_oldCompId rep) ≠ Some s → apply_replacement data rep !! s = data !! s.
Proof.
  intros Hne. unfold apply_replacement.
  destruct (negb _ || negb _); [done|].
  unfold arr_set. destruct (to_index (rep_oldCompId rep)) as [i|]; [|done].
  apply list_lookup_insert_ne. congruence.
Qed.

Lemma apply_replacements_frame reps s : ∀ data,
  Forall (fun rep => to_index (rep_oldCompId rep) ≠ Some s) reps →
  fold_left apply_replacement reps data !! s = data !! s.
Proof.
  induction reps as [|rep reps IH]; intros data Hall; simpl; [done|].
  apply Forall_cons in Hall as [Hrep Hall].
  rewrite IH by done. by apply apply_replacement_frame.
Qed.

(** ** Live records stay live *)

Lemma truthy_live v : truthy v = true → Compact.is_live v = true.
Proof. by destruct v. Qed.

Lemma set_live v k x : Compact.is_live v = true → Compact.is_live (set v k x) = true.
Proof. by destruct v. Qed.

Lemma fold_set_live (fields : list (string * value)) : ∀ v,
  Compact.is_live v = true →
  Compact.is_live (fold_left (fun c fv => set c (fst fv) (snd fv)) fields v) = true.
Proof.
  induction fields as [|fv fields IH]; intros v Hv; simpl; [done|].
  by apply IH, set_live.
Qed.

Lemma arr_set_live data id x :
  Forall (fun v => Compact.is_live v = true) data → Compact.is_live x = true →
  Forall (fun v => Compact.is_live v = true) (arr_set data id x).
Proof.
  intros Hall Hx. unfold arr_set. destruct (to_index id); [|done].
  by apply Forall_insert.
Qed.



Lemma apply_replacement_live data rep :
  Forall (fun v => Compact.is_live v = true) data →
  Forall (fun v => Compact.is_live v = true) (apply_replacement data rep).
Proof.
  intros Hall. unfold apply_replacement.
  destruct (truthy (arr_get data (rep_nodeId rep))); simpl; [|done].
  destruct (truthy (arr_get data (rep_oldCompId rep))) eqn:T; simpl; [|done].
  apply arr_set_live; [done|]. apply fold_set_live.
  destruct (truthy (get _ "__type__")); [apply set_live|]; by apply truthy_live.
Qed.

Lemma apply_replacements_live reps : ∀ data,
  Forall (fun v => Compact.is_live v = true) data →
  Forall (fun v => Compact.is_live v = true) (fold_left apply_replacement reps data).
Proof.
  induction reps as [|rep reps IH]; intros data Hall; simpl; [done|].
  by apply IH, apply_replacement_live.
Qed.

(** ** Compaction of an array without tombstones *)

Lemma live_records_all d :
  Forall (fun v => Compact.is_live v = true) d → Compact.live_records d = d.
Proof.
  unfold Compact.live_records. induction 1 as [|v d Hv Hall IH]; simpl; [done|].
  by rewrite Hv, IH.
Qed.

Lemma new_index_all d z z' :
  Forall (fun v => Compact.is_live v = true) d →
  Compact.new_index d z = Some z' → z' = z.
Proof.
  intros Hall. unfold Compact.new_index.
  destruct (0 <=? z)%Z eqn:Ez; [|done]. apply Z.leb_le in Ez.
  destruct (d !! Z.to_nat z) as [v|] eqn:Ev; [|done].
  destruct (Compact.is_live v); [|done]. intros [= <-].
  rewrite live_records_all by (by apply Forall_take).
  apply lookup_lt_Some in Ev. rewrite length_take. lia.
Qed.

Lemma remap_all d id :
  Forall (fun v => Compact.is_live v = true) d →
  Compact.remap (fst (Compact.build_index d)) id = id.
Proof.
  intros Hall. unfold Compact.remap, Compact.map_get.
  destruct id as [| | |z| | |]; try done.
  rewrite (proj2 (CompactFacts.build_index_spec d)).
  destruct (Compact.new_index d z) as [z'|] eqn:E; [|done].
  f_equal. by eapply new_index_all.
Qed.

Lemma updateReferences_id m v :
  (∀ id, Compact.remap m id = id) → Compact.updateReferences m v = v.
Proof.
  intros Hm. induction v as [| |b|n|s|l IH|kvs IH] using value_ind; simpl; try done.
  - f_equal. induction IH as [|x l Hx _ IHl]; simpl; [done|]. by rewrite Hx, IHl.
  - f_equal. induction IH as [|[k x] kvs Hx _ IHl]; simpl; [done|].
    rewrite IHl. simpl in Hx.
    destruct (String.eqb k "__id__"); [by rewrite Hm|by rewrite Hx].
Qed.

Lemma compact_all_live d :
  Forall (fun v => Compact.is_live v = true) d →
  Compact.compactAndReindexPrefab d = d.
Proof.
  intros Hall. rewrite CompactFacts.compactAndReindexPrefab_eq.
  rewrite live_records_all by done.
  transitivity (map (fun v : value => v) d); [|apply map_id].
  apply map_ext. intros v.
  apply updateReferences_id. intros id. by apply remap_all.
Qed.

(** ** Records stay records *)



(** ** A node through removal, compaction and substitution *)




(** ** The removal of a component that the node lists *)


(** ** The parser on an array *)


End PipelineFacts.

(* ===================================================================== *)
(** * Further properties of the reference codec                            *)
(* ===================================================================== *)

Module CodecMore.
Import Js Codec CodecExt CodecFacts.

Lemma pair_ok_all :
  forallb (fun a => forallb (pair_ok a) (take 64 BASE64_KEYS)) (take 64 BASE64_KEYS)
  = true.
Proof. vm_compute. reflexivity. Qed.

Lemma pair_roundtrip s1 s2 :
  is_base64_symbol s1 = true → is_base64_symbol s2 = true →
  ∃ a b c,
    decode_syms (BASE64_VALUES !! nat_of_ascii s1) (BASE64_VALUES !! nat_of_ascii s2)
    = [a; b; c]
    ∧ is_lower_hex a = true ∧ is_lower_hex b = true ∧ is_lower_hex c = true
    ∧ encode_syms (Some a) (Some b) (Some c) = [Some s1; Some s2].
Proof.
  unfold is_base64_symbol. rewrite !bool_decide_eq_true. intros H1 H2.
  pose proof pair_ok_all as H.
  rewrite forallb_forall in H. apply list_elem_of_In in H1, H2.
  specialize (H s1 H1). rewrite forallb_forall in H.
  specialize (H s2 H2). unfold pair_ok in H.
  destruct (decode_syms _ _) as [|a [|b [|c [|? ?]]]]; try discriminate.
  apply andb_prop in H as [H He]. apply andb_prop in H as [H Hc].
  apply andb_prop in H as [Ha Hb]. apply bool_decide_eq_true in He.
  by exists a, b, c.
Qed.

Lemma lower_hex_is_hex c : is_lower_hex c = true → is_hex_digit c = true.
Proof.
  destruct c as [[] [] [] [] [] [] [] []]; vm_compute; congruence.
Qed.

(** The 22-character form of 32 lower-case digits unpacks to the digits. *)
Lemma pack22_unpack22 hex :
  length hex = 32%nat → Forall (fun c => is_lower_hex c = true) hex →
  length (pack22 hex) = 22%nat
  ∧ take 2 (pack22 hex) = take 2 hex
  ∧ unpack22 (pack22 hex) = hex.
Proof.
  intros Hlen Hall.
  do 32 (destruct hex as [|? hex]; [discriminate Hlen|]).
  destruct hex; [|discriminate Hlen]. clear Hlen.
  repeat match goal with
         | H : Forall _ (_ :: _) |- _ => apply Forall_cons in H; destruct H
         | H : Forall _ [] |- _ => clear H
         end.
  unfold pack22, encode_triple. cbn [for_range for_range_aux Nat.ltb Nat.leb Nat.add
    map seq concat app lookup list_lookup].
  repeat match goal with
         | |- context [encode_syms (Some ?a) (Some ?b) (Some ?c)] =>
             let s1 := fresh "s" in let s2 := fresh "s" in
             let E := fresh "E" in let D := fresh "D" in
             destruct (triple_roundtrip a b c) as (s1 & s2 & E & D);
             [assumption..|rewrite E; clear E]
         end.
  simpl join_opt. split; [reflexivity|]. split; [reflexivity|].
  unfold unpack22, decode_pair, base64_value.
  simpl.
  repeat match goal with
         | D : decode_syms _ _ = _ |- _ => rewrite D; clear D
         end.
  reflexivity.
Qed.

Lemma encodeUuid_pack22 s :
  String.length s = 36%nat →
  encodeUuid s true
  = string_of_list_ascii
      (pack22 (map toLowerAscii (remove_hyphens (list_ascii_of_string s)))).
Proof. intros H. unfold encodeUuid. rewrite H. reflexivity. Qed.

Lemma decodeUuid_unpack22 e :
  length e = 22%nat →
  decodeUuid (string_of_list_ascii e) = string_of_list_ascii (assemble (unpack22 e)).
Proof.
  intros H. unfold decodeUuid.
  rewrite list_ascii_of_string_of_list_ascii, H. reflexivity.
Qed.

Ltac split_forall_cons :=
  repeat match goal with
         | H : Forall _ (_ :: _) |- _ => apply Forall_cons in H; destruct H
         | H : Forall _ [] |- _ => clear H
         end.

(** Thirty-two lower-case digits, grouped with hyphens, are a valid long
    identifier from which the digits are read back. *)
Lemma assemble_digits hex :
  length hex = 32%nat → Forall (fun c => is_lower_hex c = true) hex →
  length (assemble hex) = 36%nat
  ∧ map toLowerAscii (remove_hyphens (assemble hex)) = hex
  ∧ valid_long_uuid (string_of_list_ascii (assemble hex)) = true.
Proof.
  intros Hlen Hall.
  do 32 (destruct hex as [|? hex]; [discriminate Hlen|]).
  destruct hex; [|discriminate Hlen]. clear Hlen.
  split_forall_cons.
  unfold assemble, slice, slice_from. cbn [take drop Nat.sub app].
  split; [reflexivity|]. split.
  - repeat first [ rewrite remove_hyphens_hyphen
                 | rewrite remove_hyphens_hex by (by apply lower_hex_is_hex) ].
    cbn [remove_hyphens List.filter map].
    by rewrite !lower_hex_fixed by done.
  - unfold valid_long_uuid. rewrite list_ascii_of_string_of_list_ascii.
    cbn [length Nat.eqb andb forallb seq lookup list_lookup existsb orb Ascii.eqb
         Bool.eqb].
    by rewrite !lower_hex_is_hex by done.
Qed.

Lemma forallb_Forall {A} (f : A → bool) l : forallb f l = true → Forall (fun x => f x = true) l.
Proof. rewrite forallb_forall, List.Forall_forall. auto. Qed.

(** The digits unpacked from a well-formed 23-character identifier pack to
    the identifier. *)
Lemma unpack23_pack23 e :
  length e = 23%nat →
  forallb is_lower_hex (take 5 e) = true →
  forallb is_base64_symbol (drop 5 e) = true →
  length (unpack23 e) = 32%nat
  ∧ Forall (fun c => is_lower_hex c = true) (unpack23 e)
  ∧ pack23 (unpack23 e) = e.
Proof.
  intros Hlen Hhex Hsym.
  do 23 (destruct e as [|? e]; [discriminate Hlen|]).
  destruct e; [|discriminate Hlen]. clear Hlen.
  apply forallb_Forall in Hhex, Hsym. cbn [take drop] in Hhex, Hsym.
  split_forall_cons.
  unfold unpack23, decode_pair, base64_value, slice.
  cbn [for_range for_range_aux Nat.ltb Nat.leb Nat.add Nat.sub map concat app
       lookup list_lookup take drop mbind option_bind].
  repeat match goal with
         | |- context [decode_syms (BASE64_VALUES !! nat_of_ascii ?s1)
                                   (BASE64_VALUES !! nat_of_ascii ?s2)] =>
             let a := fresh "h" in let b := fresh "h" in let c := fresh "h" in
             let D := fresh "D" in
             destruct (pair_roundtrip s1 s2) as (a & b & c & D & ? & ? & ? & ?);
             [assumption..|rewrite D; clear D]
         end.
  cbn [app]. split; [reflexivity|]. split.
  { repeat (apply Forall_cons; split; [assumption|]). apply Forall_nil; exact I. }
  unfold pack23, encode_triple.
  cbn [for_range for_range_aux Nat.ltb Nat.leb Nat.add map seq concat app lookup
       list_lookup].
  repeat match goal with
         | E : encode_syms _ _ _ = _ |- _ => rewrite E; clear E
         end.
  reflexivity.
Qed.

Lemma unpack22_pack22 e :
  length e = 22%nat →
  forallb is_lower_hex (take 2 e) = true →
  forallb is_base64_symbol (drop 2 e) = true →
  length (unpack22 e) = 32%nat
  ∧ Forall (fun c => is_lower_hex c = true) (unpack22 e)
  ∧ pack22 (unpack22 e) = e.
Proof.
  intros Hlen Hhex Hsym.
  do 22 (destruct e as [|? e]; [discriminate Hlen|]).
  destruct e; [|discriminate Hlen]. clear Hlen.
  apply forallb_Forall in Hhex, Hsym. cbn [take drop] in Hhex, Hsym.
  split_forall_cons.
  unfold unpack22, decode_pair, base64_value, slice.
  cbn [for_range for_range_aux Nat.ltb Nat.leb Nat.add Nat.sub map concat app
       lookup list_lookup take drop mbind option_bind].
  repeat match goal with
         | |- context [decode_syms (BASE64_VALUES !! nat_of_ascii ?s1)
                                   (BASE64_VALUES !! nat_of_ascii ?s2)] =>
             let a := fresh "h" in let b := fresh "h" in let c := fresh "h" in
             let D := fresh "D" in
             destruct (pair_roundtrip s1 s2) as (a & b & c & D & ? & ? & ? & ?);
             [assumption..|rewrite D; clear D]
         end.
  cbn [app]. split; [reflexivity|]. split.
  { repeat (apply Forall_cons; split; [assumption|]). apply Forall_nil; exact I. }
  unfold pack22, encode_triple.
  cbn [for_range for_range_aux Nat.ltb Nat.leb Nat.add map seq concat app lookup
       list_lookup].
  repeat match goal with
         | E : encode_syms _ _ _ = _ |- _ => rewrite E; clear E
         end.
  reflexivity.
Qed.

(** ** Lengths *)

Lemma join_opt_length {A} (l : list (option A)) : (length (join_opt l) <= length l)%nat.
Proof. induction l as [|[x|] l IH]; simpl; lia. Qed.

Lemma encode_triple_length hex i : length (encode_triple hex i) = 2%nat.
Proof. unfold encode_triple. with_strategy transparent [encode_syms] reflexivity. Qed.

(** The packed form never has more than 23 characters. *)
Lemma encodeUuid_length s min :
  String.length s = 36%nat → (String.length (encodeUuid s min) <= 23)%nat.
Proof.
  intros H. unfold encodeUuid. rewrite H. cbn [Nat.eqb negb].
  rewrite string_length_list, list_ascii_of_string_of_list_ascii.
  etransitivity; [apply join_opt_length|].
  rewrite length_app, length_map, length_seq.
  destruct min; cbn [for_range for_range_aux Nat.ltb Nat.leb Nat.add map concat];
    rewrite !length_app, !encode_triple_length; simpl; lia.
Qed.

Lemma valid_long_is_long s : valid_long_uuid s = true → isLongUUID s = true.
Proof.
  intros Hv. unfold isLongUUID, includes_char.
  unfold valid_long_uuid in Hv. apply andb_prop in Hv as [Hlen Hall].
  rewrite string_length_list, Hlen. cbn [andb].
  rewrite forallb_forall in Hall. specialize (Hall 8%nat).
  assert (Hin : In 8%nat (seq 0 36)) by (apply in_seq; lia).
  specialize (Hall Hin). cbn [existsb Nat.eqb orb] in Hall.
  destruct (list_ascii_of_string s !! 8%nat) as [c|] eqn:E; [|done].
  apply existsb_exists. exists c. split.
  - apply list_elem_of_In, list_elem_of_lookup. eauto.
  - by rewrite Ascii.eqb_sym.
Qed.

Lemma encodeUuid_valid_length s :
  valid_long_uuid s = true → String.length (encodeUuid s false) = 23%nat.
Proof.
  intros Hv.
  assert (Hlen : String.length s = 36%nat).
  { unfold valid_long_uuid in Hv. apply andb_prop in Hv as [Hl _].
    apply Nat.eqb_eq in Hl. by rewrite string_length_list. }
  destruct (valid_long_uuid_digits s Hv) as (hex & Ehex & Hl & Hall & _).
  rewrite (encodeUuid_pack23 s Hlen), Ehex.
  destruct (pack23_unpack23 hex Hl Hall) as (Hp & _).
  by rewrite string_length_list, list_ascii_of_string_of_list_ascii.
Qed.

End CodecMore.

(* ===================================================================== *)
(** * Further properties of the tree projector and the path map            *)
(* ===================================================================== *)

Module ParserMore.
Import Val ValFacts Parser PathMap StrFacts PathFacts ParserFacts.

Lemma assoc_set_fresh {A} k (v : A) kvs :
  k ∉ map fst kvs → assoc_set k v kvs = kvs ++ [(k, v)].
Proof.
  induction kvs as [|[k' v'] kvs IH]; simpl; [done|].
  intros Hk. destruct (String.eqb k k') eqn:E.
  - apply String.eqb_eq in E. subst. exfalso. apply Hk. by left.
  - rewrite IH; [done|]. intros Hin. apply Hk. by right.
Qed.

(** The loop of [parseComponent] on properties with distinct names. *)
Lemma parseComponent_loop data (kvs : list (string * value)) : ∀ acc,
  NoDup (map fst acc ++ map fst kvs) →
  fold_left
    (fun result kv =>
       let '(key, v) := kv in
       if String.eqb key "__type__" then result
       else if is_reference v
            then assoc_set key (resolveReference data (get v "__id__")) result
            else assoc_set key v result)
    kvs acc
  = acc
    ++ map (fun kv => (fst kv,
                       if is_reference (snd kv)
                       then resolveReference data (get (snd kv) "__id__")
                       else snd kv))
         (List.filter (fun kv => negb (String.eqb (fst kv) "__type__")) kvs).
Proof.
  induction kvs as [|[k v] kvs IH]; intros acc Hnd; simpl.
  - by rewrite app_nil_r.
  - assert (Hk : k ∉ map fst acc).
    { apply NoDup_app in Hnd as (_ & Hdisj & _). intros Hin.
      apply (Hdisj k Hin). by left. }
    assert (Hnd' : ∀ x, NoDup (map fst (acc ++ [(k, x)]) ++ map fst kvs)).
    { intros x. rewrite map_app. simpl.
      rewrite <- app_assoc. exact Hnd. }
    destruct (String.eqb k "__type__") eqn:E; simpl.
    + apply IH. apply NoDup_app in Hnd as (Ha & Hdisj & Hkvs).
      apply NoDup_app. split; [done|]. split.
      * intros x Hx Hin. apply (Hdisj x Hx). by right.
      * simpl in Hkvs. by apply NoDup_cons in Hkvs as [_ ?].
    + destruct (is_reference v); rewrite assoc_set_fresh by done;
        rewrite IH by apply Hnd'; by rewrite <- app_assoc.
Qed.

(** ** The keys of the path map *)

Lemma traverse_keys t : ∀ path pm key,
  path ≠ ""%string →
  In key (map fst (traverse t path pm)) →
  In key (map fst pm) ∨ key = path ∨ String.prefix (path ++ "/") key = true.
Proof.
  induction t as [comps kids id props IH] using tree_ind.
  intros path pm key Hpath. rewrite traverse_unfold.
  set (pm0 := assoc_set path (NodeInfo comps kids id props) pm).
  assert (H0 : ∀ key, In key (map fst pm0) →
                      In key (map fst pm) ∨ key = path
                      ∨ String.prefix (path ++ "/") key = true).
  { intros k Hk. unfold pm0 in Hk. rewrite assoc_set_keys in Hk.
    case_bool_decide; [by left|].
    apply in_app_or in Hk as [Hk|[<-|[]]]; auto. }
  clearbody pm0. revert pm0 H0.
  induction IH as [|[name child] kids Hchild _ IHkids]; intros pm0 H0; simpl.
  - apply H0.
  - apply IHkids. intros k Hk.
    apply Hchild in Hk; [|by apply childPath_nonempty].
    rewrite childPath_eq in Hk by done.
    destruct Hk as [Hk|[->|Hk]]; [by apply H0| |]; right; right.
    + apply prefix_iff. exists name. by rewrite append_assoc.
    + apply prefix_iff in Hk as [c ->]. apply prefix_iff.
      exists (name ++ "/" ++ c)%string. by rewrite !append_assoc.
Qed.

(** ** Loops that throw *)

Lemma foldM_throws {A B} (step : A → B → result A) xs x :
  In x xs → (∀ acc, ∃ e, step acc x = Throw e) →
  ∀ acc, ∃ e, foldM step acc xs = Throw e.
Proof.
  intros Hin Hx. induction xs as [|a xs IH]; [done|]. intros acc. simpl.
  destruct (step acc a) as [acc'|e] eqn:E; cbn [mbind result_bind]; [|eauto].
  destruct Hin as [->|Hin]; [|by apply IH].
  destruct (Hx acc) as [e He]. congruence.
Qed.

End ParserMore.

(* ===================================================================== *)
(** * Further properties of the compiler and the applier                   *)
(* ===================================================================== *)

Module ApplyMore.
Import Val ValFacts Config Compiler Applier Shape Notions MigrateFacts PipelineFacts
  StrFacts.

(** ** Lengths *)

Lemma arr_set_length data id x : length (arr_set data id x) = length data.
Proof. unfold arr_set. destruct (to_index id); [apply length_insert|done]. Qed.

Lemma apply_instruction_length data ins :
  length (apply_instruction data ins) = length data.
Proof.
  destruct ins; simpl;
    match goal with |- context [if ?b then _ else _] => destruct b end;
    try done; apply arr_set_length.
Qed.

Lemma applyMigrationInstructions_length instructions : ∀ data,
  length (applyMigrationInstructions data instructions) = length data.
Proof.
  unfold applyMigrationInstructions.
  induction instructions as [|ins rest IH]; intros data; simpl; [done|].
  by rewrite IH, apply_instruction_length.
Qed.

Lemma apply_replacement_length data rep :
  length (apply_replacement data rep) = length data.
Proof.
  unfold apply_replacement. destruct (negb _ || negb _); [done|].
  apply arr_set_length.
Qed.

Lemma apply_replacements_length reps : ∀ data,
  length (fold_left apply_replacement reps data) = length data.
Proof.
  induction reps as [|rep reps IH]; intros data; simpl; [done|].
  by rewrite IH, apply_replacement_length.
Qed.

Lemma compact_length d :
  (length (Compact.compactAndReindexPrefab d) <= length d)%nat.
Proof.
  rewrite CompactFacts.compactAndReindexPrefab_eq, length_map.
  unfold Compact.live_records.
  pose proof (List.filter_length Compact.is_live d). lia.
Qed.

Lemma apply_removal_length data r data' :
  apply_removal data r = Ok data' → length data' = length data.
Proof.
  unfold apply_removal.
  destruct (truthy _ && truthy _); [|by intros [= <-]].
  destruct (js_length _) as [len|]; cbn [mbind result_bind].
  - destruct (Z.of_nat (compIndex_of r) <? len)%Z; cbn [mbind result_bind].
    + destruct (get _ "_components"); try discriminate.
      cbn [mbind result_bind]. intros [= <-].
      destruct (truthy _); unfold arr_delete; by rewrite ?arr_set_length.
    + intros [= <-]. destruct (truthy _); unfold arr_delete;
        by rewrite ?arr_set_length.
  - intros [= <-]. destruct (truthy _); unfold arr_delete;
      by rewrite ?arr_set_length.
Qed.

Lemma removal_loop_length rs data data' :
  removal_loop data rs = Ok data' → length data' = length data.
Proof.
  unfold removal_loop. generalize (Arr.sort by_compIndex_desc rs) as l.
  intros l. revert data. induction l as [|r l IH]; intros data; simpl.
  - by intros [= <-].
  - destruct (apply_removal data r) as [d1|] eqn:E; cbn [mbind result_bind];
      [|discriminate].
    intros H. rewrite (IH _ H). by eapply apply_removal_length.
Qed.

Lemma applyStringReplaceInstructions_length data instructions :
  length (applyStringReplaceInstructions data instructions) = length data.
Proof.
  by rewrite SubstFacts.applyStringReplaceInstructions_spec, length_map.
Qed.

(** ** Slots that hold no record *)

Lemma apply_instruction_falsy data ins s v :
  data !! s = Some v → truthy v = false → apply_instruction data ins !! s = Some v.
Proof.
  intros Hs Hv.
  destruct (decide (target_slot ins = Some s)) as [Ht|Ht];
    [|by rewrite apply_frame].
  destruct ins as [id f w src|id f w src|id k fields]; simpl in *;
    unfold arr_get; rewrite Ht, Hs; simpl; by rewrite Hv.
Qed.

(** ** Compaction leaves live records *)

Lemma updateReferences_live m v :
  Compact.is_live (Compact.updateReferences m v) = Compact.is_live v.
Proof. by destruct v. Qed.

Lemma compact_live d :
  Forall (fun v => Compact.is_live v = true) (Compact.compactAndReindexPrefab d).
Proof.
  rewrite CompactFacts.compactAndReindexPrefab_eq.
  apply List.Forall_forall. intros x Hx.
  apply in_map_iff in Hx as (y & <- & Hy). rewrite updateReferences_live.
  unfold Compact.live_records in Hy. by apply filter_In in Hy as [_ ?].
Qed.

(** ** The values instructions carry *)

Lemma rule_instructions_values v2Node compType v3Comp rule ins :
  In ins (rule_instructions v2Node compType v3Comp rule) →
  Forall (fun v => is_nullish v = false) (instruction_values ins).
Proof.
  unfold rule_instructions.
  destruct (String.eqb (target rule) "Node").
  - intros Hin. apply in_flat_map in Hin as ([v3Field v2Field] & _ & Hin).
    destruct (is_nullish (obj_get v3Field v3Comp)) eqn:En; simpl in Hin; [done|].
    apply in_map_iff in Hin as (field & <- & _). simpl. by constructor.
  - destruct (assoc_get (target rule) (components v2Node)) as [c2|]; [|done].
    intros Hin. apply in_flat_map in Hin as ([v3Field v2Field] & _ & Hin).
    destruct (is_nullish (obj_get v3Field v3Comp)) eqn:En; simpl in Hin; [done|].
    apply in_map_iff in Hin as (field & <- & _). simpl.
    constructor; [|constructor]. by destruct (is_projected_ref _).
Qed.

Lemma component_instructions_values v2Node compType v3Comp ins :
  In ins (component_instructions v2Node (compType, v3Comp)) →
  Forall (fun v => is_nullish v = false) (instruction_values ins).
Proof.
  rewrite component_instructions_eq. intros Hin. apply in_app_or in Hin as [Hin|Hin].
  - destruct (assoc_get compType COMPONENT_TRANSFORM_RULES) as [rules|]; [|done].
    apply in_flat_map in Hin as (rule & _ & Hin).
    by eapply rule_instructions_values.
  - destruct (assoc_get compType (components v2Node)) as [c2|]; [|done].
    destruct (fieldsToMigrate compType v3Comp c2) as [|fv fields] eqn:Ef; [done|].
    destruct Hin as [<-|[]]. cbn [instruction_values]. rewrite <- Ef.
    apply List.Forall_forall. intros v Hv.
    apply in_map_iff in Hv as ([field v'] & <- & Hin).
    by apply in_fieldsToMigrate in Hin as (_ & ? & _).
Qed.

(** ** Replacing a string by itself *)

Lemma split_join_go_skip from to (f rest : string) :
  Str.split_join_go from to (String.length f) (f ++ rest) = Str.split_join_go from to O rest.
Proof.
  induction f as [|c f IH]; [done|].
  rewrite append_cons. cbn [String.length Str.split_join_go]. exact IH.
Qed.

Lemma split_join_go_self from : from ≠ ""%string →
  ∀ n s, (String.length s <= n)%nat → Str.split_join_go from from O s = s.
Proof.
  intros Hfrom. induction n as [|n IH]; intros s Hlen.
  - destruct s; [done|simpl in Hlen; lia].
  - destruct s as [|c s']; [done|]. cbn [Str.split_join_go].
    destruct (String.prefix from (String c s')) eqn:Ep.
    + apply prefix_iff in Ep as [rest Hrest].
      destruct from as [|c0 f]; [done|].
      rewrite append_cons in Hrest. injection Hrest as -> ->.
      cbn [String.length Nat.sub]. rewrite Nat.sub_0_r, split_join_go_skip.
      rewrite IH; [by rewrite append_cons|].
      simpl in Hlen. rewrite length_append in Hlen. lia.
    + rewrite IH; [done|]. simpl in Hlen. lia.
Qed.

Lemma intersperse_empty s : Str.intersperse "" s = s.
Proof.
  induction s as [|c s IH]; [done|]. cbn [Str.intersperse].
  destruct s; [done|]. by rewrite append_nil_l, IH.
Qed.

Lemma replaceString_self s from : replaceString s from from = s.
Proof.
  unfold replaceString. destruct (Str.includes from s); [|done].
  unfold Str.split_join. destruct (String.eqb from "") eqn:E.
  - apply String.eqb_eq in E. subst. apply intersperse_empty.
  - apply String.eqb_neq in E. by apply (split_join_go_self from E (String.length s)).
Qed.

(** ** Type replacements without fields *)

Lemma generated_replacement_fields pm3 pm2 rep :
  In rep (generateScriptReplacementInstructions pm3 pm2) →
  rep_fieldsToMigrate rep = [].
Proof.
  unfold generateScriptReplacementInstructions. intros Hin.
  apply in_flat_map in Hin as ([p n3] & _ & Hin).
  destruct (assoc_get p pm2) as [n2|]; [|done].
  apply in_flat_map in Hin as ([k c3] & _ & Hin).
  destruct (assoc_get k NORMALIZED_SCRIPT_UUID_MAP) as [rule|] eqn:Er; [|done].
  destruct (assoc_get k (components n2)) as [c2|]; [|done].
  destruct Hin as [<-|[]]. cbn [rep_fieldsToMigrate].
  apply assoc_get_In in Er.
  assert (Hfm : scriptFieldMap rule = Some []).
  { vm_compute in Er. destruct Er as [Er|[Er|[Er|[]]]]; by injection Er as <- <-. }
  unfold script_fields. by rewrite Hfm.
Qed.

Lemma apply_replacement_retypes data rep s v :
  rep_fieldsToMigrate rep = [] → data !! s = Some v →
  ∃ v', apply_replacement data rep !! s = Some v'
        ∧ ∀ k, k ≠ "__type__" → get v' k = get v k.
Proof.
  intros Hf Hs.
  destruct (decide (to_index (rep_oldCompId rep) = Some s)) as [Ht|Ht];
    [|exists v; by rewrite apply_replacement_frame].
  assert (Hlt : (s < length data)%nat) by (by apply lookup_lt_Some in Hs).
  unfold apply_replacement. destruct (negb _ || negb _); [by exists v|].
  rewrite Hf. cbn [fold_left]. unfold arr_set, arr_get. rewrite Ht, Hs.
  cbn [default from_option id]. rewrite list_lookup_insert_eq by done.
  eexists. split; [done|]. intros k Hk.
  destruct (truthy (get v "__type__")); [|done].
  by rewrite get_set_ne.
Qed.

Lemma apply_replacements_retype reps : ∀ data s v,
  Forall (fun rep => rep_fieldsToMigrate rep = []) reps → data !! s = Some v →
  ∃ v', fold_left apply_replacement reps data !! s = Some v'
        ∧ ∀ k, k ≠ "__type__" → get v' k = get v k.
Proof.
  induction reps as [|rep reps IH]; intros data s v Hall Hs; cbn [fold_left].
  - by exists v.
  - apply Forall_cons in Hall as [Hrep Hall].
    destruct (apply_replacement_retypes data rep s v Hrep Hs) as (v1 & H1 & Hk1).
    destruct (IH _ s v1 Hall H1) as (v' & H' & Hk').
    exists v'. split; [done|]. intros k Hk. rewrite Hk' by done. by apply Hk1.
Qed.

End ApplyMore.

(* ===================================================================== *)
(** * Properties of the command line and of the resource mapping           *)
(* ===================================================================== *)

Module CliFacts.
Import Val ValFacts Cli StrFacts.

Lemma startsWith_dashes key : Str.startsWith "--" ("--" ++ key) = true.
Proof. unfold Str.startsWith. apply prefix_iff. by exists key. Qed.

Lemma slice2_dashes key : slice2 ("--" ++ key) = key.
Proof.
  unfold slice2, Js.slice_from. rewrite !append_cons, append_nil_l.
  cbn [list_ascii_of_string drop]. apply string_of_list_ascii_of_string.
Qed.

(** The loop on a rendered command line. *)
Lemma parseArgs_loop_render items : ∀ map,
  Forall (fun it => item_ok it = true) items →
  parseArgs_loop (flat_map render items) map = fold_left item_effect items map.
Proof.
  induction items as [|it items IH]; intros map Hall; [done|].
  apply Forall_cons in Hall as [Hit Hall].
  destruct it as [key|key v|s]; cbn [flat_map render app fold_left item_effect];
    cbn [parseArgs_loop].
  - rewrite startsWith_dashes, slice2_dashes.
    cbn [item_ok] in Hit. unfold is_flag_name in Hit. rewrite Hit. by apply IH.
  - rewrite startsWith_dashes, slice2_dashes.
    cbn [item_ok] in Hit. unfold is_flag_name in Hit.
    apply negb_true_iff in Hit. rewrite Hit. by apply IH.
  - cbn [item_ok] in Hit. apply negb_true_iff in Hit. rewrite Hit. by apply IH.
Qed.

(** What the loop keeps true of the values filed under a name that is not
    a flag: each is [undefined] or one of the arguments. *)
Lemma put_other key v map k : k ≠ key → obj_get k (put key v map) = obj_get k map.
Proof.
  intros Hne. unfold put. destruct (String.eqb key "__proto__"); [done|].
  unfold obj_get. by rewrite assoc_get_set_ne.
Qed.

Lemma put_same key v map :
  obj_get key (put key v map) = v ∨ obj_get key (put key v map) = obj_get key map.
Proof.
  unfold put. destruct (String.eqb key "__proto__"); [by right|].
  left. unfold obj_get. by rewrite assoc_get_set_eq.
Qed.

Lemma parseArgs_loop_values (L : list string) n : ∀ args map,
  (length args <= n)%nat →
  (∀ a, In a args → In a L) →
  (∀ k, is_flag_name k = false →
        obj_get k map = VUndef ∨ ∃ a, obj_get k map = VStr a ∧ In a L) →
  ∀ k, is_flag_name k = false →
       obj_get k (parseArgs_loop args map) = VUndef
       ∨ ∃ a, obj_get k (parseArgs_loop args map) = VStr a ∧ In a L.
Proof.
  induction n as [|n IH]; intros args map Hlen Hargs Hmap.
  { destruct args; [exact Hmap|simpl in Hlen; lia]. }
  destruct args as [|a rest]; [exact Hmap|]. cbn [parseArgs_loop].
  destruct (Str.startsWith "--" a).
  - destruct (String.eqb (slice2 a) "overwrite" || String.eqb (slice2 a) "recursive")
      eqn:Ef.
    + apply IH; [simpl in Hlen; lia|intros x Hx; apply Hargs; by right|].
      intros k Hk. rewrite put_other; [by apply Hmap|].
      intros ->. unfold is_flag_name in Hk. congruence.
    + assert (Hput : ∀ v, (v = VUndef ∨ ∃ x, v = VStr x ∧ In x L) →
                ∀ k, is_flag_name k = false →
                  obj_get k (put (slice2 a) v map) = VUndef
                  ∨ ∃ x, obj_get k (put (slice2 a) v map) = VStr x ∧ In x L).
      { intros v Hv k Hk. destruct (decide (k = slice2 a)) as [->|Hne].
        - destruct (put_same (slice2 a) v map) as [->| ->]; [|by apply Hmap].
          destruct Hv as [->|(x & -> & Hx)]; eauto.
        - rewrite put_other by done. by apply Hmap. }
      destruct rest as [|v rest'].
      * apply Hput. by left.
      * apply IH; [simpl in Hlen; lia|intros x Hx; apply Hargs; right; by right|].
        apply Hput. right. exists v. split; [done|]. apply Hargs. right. by left.
  - apply IH; [simpl in Hlen; lia|intros x Hx; apply Hargs; by right|exact Hmap].
Qed.

End CliFacts.

Module ResourceFacts.
Import Val ValFacts Resource ParserFacts GraphFacts ParserMore StrFacts.

(** ** Splitting at a character *)

Lemma includes_char_cons (sep c : ascii) (p : string) :
  c ≠ sep → Str.includes (String sep "") (String c p) = Str.includes (String sep "") p.
Proof.
  intros Hne. cbn [Str.includes String.prefix].
  destruct (ascii_dec sep c) as [->|_]; [done|]. reflexivity.
Qed.

(** The pieces of [split_on]: a last piece without the separator, and the
    string rebuilt from the pieces. *)
Lemma split_on_pieces sep s :
  ∃ ps p,
    split_on sep s = ps ++ [p]
    ∧ Str.includes (String sep "") p = false
    ∧ s = fold_right (fun q acc => (q ++ String sep acc)%string) p ps.
Proof.
  induction s as [|c s IH].
  - exists [], ""%string. by repeat split.
  - destruct IH as (ps & p & Hsplit & Hp & Hs). cbn [split_on].
    destruct (Ascii.eqb c sep) eqn:E.
    + apply Ascii.eqb_eq in E. subst c.
      exists (""%string :: ps), p. rewrite Hsplit. split; [done|]. split; [done|].
      cbn [fold_right]. by rewrite append_nil_l, <- Hs.
    + apply Ascii.eqb_neq in E. rewrite Hsplit.
      destruct ps as [|q ps]; cbn [app].
      * exists [], (String c p). split; [done|]. cbn [fold_right] in *.
        split; [by rewrite includes_char_cons|by rewrite Hs].
      * exists (String c q :: ps), p. split; [done|]. split; [done|].
        cbn [fold_right] in *. by rewrite append_cons, <- Hs.
Qed.

Lemma join_last sep (ps : list string) (p : string) :
  ps ≠ [] →
  ∃ dir, fold_right (fun q acc => (q ++ String sep acc)%string) p ps
         = (dir ++ String sep p)%string.
Proof.
  induction ps as [|q ps IH]; [done|]. intros _. cbn [fold_right].
  destruct ps as [|q' ps]; [by exists q|].
  destruct IH as [dir Hdir]; [done|]. rewrite Hdir.
  exists (q ++ String sep dir)%string. by rewrite append_assoc, append_cons.
Qed.

Section WithPath.
Variable path_basename : string → string.


(** One turn of the loop of [buildV2Index], by cases on the entry. *)
Lemma buildV2Index_step_cases index uuid info :
  match Resource.v2_filename path_basename info with
  | Some f =>
      Resource.buildV2Index_step path_basename index (uuid, info)
      = Ok (assoc_set f uuid index)
  | None =>
      Resource.buildV2Index_step path_basename index (uuid, info)
      = if entry_ok "relativePath" info then Ok index else Throw TypeError
  end.
Proof.
  unfold Resource.v2_filename, Resource.buildV2Index_step, entry_ok.
  destruct info as [| | | | | |o]; try done. cbn [is_nullish get negb andb].
  destruct (obj_get "relativePath" o) as [| |[]|z|p| |] eqn:E; try done.
  - cbn [truthy]. by destruct (z =? 0)%Z.
  - cbn [truthy]. by destruct (String.eqb p "").
Qed.

(** Every binding of the index comes from an entry of the table. *)
Lemma buildV2Index_sound v2Data index f u :
  Resource.buildV2Index path_basename v2Data = Ok index → assoc_get f index = Some u →
  ∃ info, In (u, info) v2Data ∧ Resource.v2_filename path_basename info = Some f.
Proof.
  unfold Resource.buildV2Index. intros Hb. revert f u.
  refine (foldM_invariant_In (Resource.buildV2Index_step path_basename)
            (fun index => ∀ f u, assoc_get f index = Some u →
                                 ∃ info, In (u, info) v2Data
                                         ∧ Resource.v2_filename path_basename info = Some f)
            v2Data _ [] index _ Hb); [|done].
  intros acc [uuid info] acc' Hin Hacc Hstep f u Hget.
  pose proof (buildV2Index_step_cases acc uuid info) as Hc.
  destruct (Resource.v2_filename path_basename info) as [f'|] eqn:Ef.
  - rewrite Hc in Hstep. injection Hstep as <-.
    destruct (decide (f = f')) as [->|Hne].
    + rewrite assoc_get_set_eq in Hget. injection Hget as <-. eauto.
    + rewrite assoc_get_set_ne in Hget by done. by apply Hacc.
  - rewrite Hc in Hstep. destruct (entry_ok _ info); [|discriminate].
    injection Hstep as <-. by apply Hacc.
Qed.

(** A binding survives the entries that have another file name. *)
Lemma buildV2Index_keep l : ∀ index index' f u,
  foldM (Resource.buildV2Index_step path_basename) index l = Ok index' →
  Forall (fun entry => Resource.v2_filename path_basename (snd entry) ≠ Some f) l →
  assoc_get f index = Some u → assoc_get f index' = Some u.
Proof.
  induction l as [|[uuid info] l IH]; intros index index' f u; cbn [foldM].
  - by intros [= <-].
  - intros Hfold Hall Hget. apply Forall_cons in Hall as [Hne Hall].
    pose proof (buildV2Index_step_cases index uuid info) as Hc.
    destruct (Resource.buildV2Index_step path_basename index (uuid, info)) as [index1|] eqn:Es;
      cbn [mbind result_bind] in Hfold; [|discriminate Hfold].
    apply (IH index1 index' f u Hfold Hall).
    destruct (Resource.v2_filename path_basename info) as [f'|] eqn:Ef.
    + injection Hc as ->. rewrite assoc_get_set_ne; [done|].
      intros ->. by apply Hne.
    + destruct (entry_ok _ info); [|discriminate Hc]. by injection Hc as ->.
Qed.

(** ** When the loops throw *)

Lemma foldM_total {A B} (step : A → B → result A) (ok : B → bool) (g : A → B → A) l :
  (∀ acc x, step acc x = if ok x then Ok (g acc x) else Throw TypeError) →
  ∀ acc, foldM step acc l
         = if forallb ok l then Ok (fold_left g l acc) else Throw TypeError.
Proof.
  intros Hstep. induction l as [|x l IH]; intros acc; cbn [foldM forallb fold_left];
    [done|].
  rewrite Hstep. destruct (ok x); cbn [mbind result_bind andb]; [apply IH|done].
Qed.

Lemma buildV2Index_step_total index uuid info :
  Resource.buildV2Index_step path_basename index (uuid, info)
  = if entry_ok "relativePath" info
    then Ok (match Resource.v2_filename path_basename info with
             | Some f => assoc_set f uuid index
             | None => index
             end)
    else Throw TypeError.
Proof.
  pose proof (buildV2Index_step_cases index uuid info) as Hc.
  destruct (Resource.v2_filename path_basename info) as [f|] eqn:Ef;
    [|by destruct (entry_ok _ info)].
  rewrite Hc. replace (entry_ok "relativePath" info) with true; [done|].
  unfold Resource.v2_filename in Ef. unfold entry_ok.
  destruct info as [| | | | | |o]; try done. cbn [get is_nullish negb andb] in *.
  destruct (obj_get "relativePath" o); try done. by rewrite orb_true_r.
Qed.


(** One turn of the loop of [generateUuidMapping], by cases on the entry. *)
Lemma generateUuidMapping_step_total index mapping unmatched k info :
  Resource.generateUuidMapping_step path_basename index (mapping, unmatched) (k, info)
  = if entry_ok "url" info then
      Ok (if has_url (k, info) then
            if Resource.matched path_basename index (k, info)
            then (put_mapping k
                    (snd (Resource.mapped_entry path_basename index (k, info)))
                    mapping,
                  unmatched)
            else (mapping, unmatched ++ [Resource.unmatched_entry path_basename (k, info)])
          else (mapping, unmatched))
    else Throw TypeError.
Proof.
  unfold Resource.generateUuidMapping_step, entry_ok, has_url, Resource.matched,
    Resource.mapped_entry, Resource.unmatched_entry, url_of.
  cbn [fst snd].
  destruct info as [| | | | | |o]; try done. cbn [is_nullish get negb andb].
  destruct (obj_get "url" o) as [| |[]|z|u| |] eqn:E; try done.
  - cbn [truthy]. by destruct (z =? 0)%Z.
  - cbn [truthy]. destruct (String.eqb u "") eqn:Eu; [done|]. cbn [negb orb].
    unfold found.
    destruct (lookup_filename index (Resource.extractFilename path_basename u))
      as [id|]; [|done].
    by destruct (String.eqb id "").
Qed.

(** The loop of [generateUuidMapping] on entries with distinct names. *)
Lemma generateUuidMapping_loop index l : ∀ mapping unmatched mapping' unmatched',
  foldM (Resource.generateUuidMapping_step path_basename index) (mapping, unmatched) l
  = Ok (mapping', unmatched') →
  NoDup (map fst mapping ++ map fst l) → "__proto__" ∉ map fst l →
  mapping'
  = mapping ++ map (Resource.mapped_entry path_basename index)
                 (List.filter (fun e => has_url e && Resource.matched path_basename index e) l)
  ∧ unmatched'
    = unmatched ++ map (Resource.unmatched_entry path_basename)
                     (List.filter
                        (fun e => has_url e
                                  && negb (Resource.matched path_basename index e)) l).
Proof.
  induction l as [|[k info] l IH]; intros mapping unmatched mapping' unmatched';
    cbn [foldM].
  - intros [= <- <-] _ _. by rewrite !app_nil_r.
  - rewrite generateUuidMapping_step_total.
    destruct (entry_ok "url" info); cbn [mbind result_bind]; [|discriminate].
    intros Hfold Hnd Hproto.
    assert (Hk : k ∉ map fst mapping).
    { apply NoDup_app in Hnd as (_ & Hdisj & _). intros Hin.
      apply (Hdisj k Hin). by left. }
    assert (Hkp : String.eqb k "__proto__" = false).
    { apply String.eqb_neq. intros ->. apply Hproto. by left. }
    assert (Hproto' : "__proto__" ∉ map fst l).
    { intros Hin. apply Hproto. by right. }
    assert (Hnd0 : NoDup (map fst mapping ++ map fst l)).
    { apply NoDup_app in Hnd as (Ha & Hdisj & Hkvs).
      apply NoDup_app. split; [done|]. split.
      - intros x Hx Hin. apply (Hdisj x Hx). by right.
      - simpl in Hkvs. by apply NoDup_cons in Hkvs as [_ ?]. }
    cbn [List.filter].
    destruct (has_url (k, info)); cbn [andb].
    + destruct (Resource.matched path_basename index (k, info)); cbn [negb map].
      * unfold put_mapping in Hfold. rewrite Hkp in Hfold.
        rewrite assoc_set_fresh in Hfold by done.
        destruct (IH _ _ _ _ Hfold) as [-> ->]; [| done |].
        { rewrite map_app. simpl. rewrite <- app_assoc. exact Hnd. }
        split; [by rewrite <- app_assoc|done].
      * destruct (IH _ _ _ _ Hfold Hnd0 Hproto') as [-> ->].
        split; [done|by rewrite <- app_assoc].
    + by apply IH.
Qed.

(** An identifier that a file name finds is the identifier of an entry
    of the target table. *)
Lemma lookup_filename_sound v2Data index name id :
  Resource.buildV2Index path_basename v2Data = Ok index →
  lookup_filename index name = Some id →
  ∃ info f, In (id, info) v2Data ∧ Resource.v2_filename path_basename info = Some f.
Proof.
  intros Hb. unfold lookup_filename.
  destruct (Str.includes "@" name).
  - destruct (negb (found (assoc_get name index))).
    + intros H. destruct (buildV2Index_sound _ _ _ _ Hb H) as (info & ? & ?). eauto.
    + intros H. destruct (buildV2Index_sound _ _ _ _ Hb H) as (info & ? & ?). eauto.
  - intros H. destruct (buildV2Index_sound _ _ _ _ Hb H) as (info & ? & ?). eauto.
Qed.

End WithPath.

End ResourceFacts.

(* ===================================================================== *)
(** * Plain documents project to plain trees                               *)
(* ===================================================================== *)

Module PlainFacts.
Import Val ValFacts Parser ParserFacts PathMap PathFacts StrFacts GraphFacts Notions.

(** No member of [Object.prototype] has a slash in its name. *)
Lemma own_name_slash (s : string) : Str.includes "/" s = true → own_name s = true.
Proof.
  intros Hs. unfold own_name, prototype_names. cbn [existsb].
  repeat match goal with
         | |- context [String.eqb s ?p] =>
             let E := fresh "E" in
             destruct (String.eqb s p) eqn:E;
               [apply String.eqb_eq in E; subst s; discriminate Hs|]
         end.
  reflexivity.
Qed.

Lemma own_name_Node (s : string) : own_name ("Node_" ++ s) = true.
Proof. reflexivity. Qed.

Lemma own_name_childPath path k :
  own_name k = true → own_name (childPath path k) = true.
Proof.
  intros Hk. unfold childPath. destruct (String.eqb path ""); cbn [negb]; [done|].
  apply own_name_slash, includes_intro.
Qed.

(** ** Plain values *)

Lemma plain_obj (o : obj) :
  plain (VObj o) = true
  ↔ plain_object o = true ∧ Forall (fun kv => plain (snd kv) = true) o.
Proof.
  cbn [plain]. rewrite andb_true_iff.
  assert (H : (fix go (o : obj) : bool :=
                 match o with
                 | [] => true
                 | (_, x) :: o' => plain x && go o'
                 end) o = true
              ↔ Forall (fun kv => plain (snd kv) = true) o).
  { induction o as [|[k x] o IH]; [by split; [constructor|]|].
    rewrite andb_true_iff, IH, Forall_cons. done. }
  by rewrite H.
Qed.

Lemma plain_get v k : plain v = true → plain (get v k) = true.
Proof.
  destruct v as [| | | | | |o]; try done. intros Hp.
  apply plain_obj in Hp as [_ Hall]. cbn [get]. unfold obj_get.
  destruct (assoc_get k o) as [x|] eqn:E; [|done].
  apply assoc_get_In in E. rewrite List.Forall_forall in Hall.
  exact (Hall _ E).
Qed.

Lemma plain_array_items v x :
  plain v = true → In x (array_items v) → plain x = true.
Proof.
  destruct v as [| | | | |l|]; try done. cbn [array_items truthy plain].
  intros Hp Hin. rewrite forallb_forall in Hp. by apply Hp.
Qed.

Lemma plain_arr_get data key :
  plain_document data = true → plain (arr_get data key) = true.
Proof.
  intros Hd. unfold arr_get. destruct (to_index key) as [i|]; [|done].
  destruct (data !! i) as [v|] eqn:E; [|done]. cbn [default from_option id].
  unfold plain_document in Hd. rewrite forallb_forall in Hd.
  apply Hd. apply list_elem_of_In. by eapply list_elem_of_lookup_2.
Qed.

(** A reference that a plain value gives is a number. *)
Lemma plain_reference ref :
  plain ref = true → is_undefined (get ref "__id__") = false →
  is_number (get ref "__id__") = true.
Proof.
  destruct ref as [| | | | | |o]; try done. intros Hp Hu.
  apply plain_obj in Hp as [Ho _]. unfold plain_object in Ho.
  apply andb_prop in Ho as [Ho _]. apply andb_prop in Ho as [Ho _].
  apply andb_prop in Ho as [_ Hid]. cbn [get] in *. rewrite Hu in Hid. done.
Qed.

Lemma plain_kind v t :
  plain v = true → get v "__type__" = VStr t →
  own_name (Str.replace_first "cc." "" t) = true.
Proof.
  destruct v as [| | | | | |o]; try done. intros Hp Ht.
  apply plain_obj in Hp as [Ho _]. unfold plain_object in Ho.
  apply andb_prop in Ho as [_ Hty]. cbn [get] in Ht. by rewrite Ht in Hty.
Qed.

Lemma plain_name v fallback :
  plain v = true → own_name fallback = true →
  own_name (toString (or_else (get v "_name") (VStr fallback))) = true.
Proof.
  intros Hp Hf. unfold or_else. destruct (truthy (get v "_name")) eqn:T; [|done].
  destruct v as [| | | | | |o]; try done.
  apply plain_obj in Hp as [Ho _]. unfold plain_object in Ho.
  apply andb_prop in Ho as [Ho _]. by apply andb_prop in Ho as [_ Hn].
Qed.

Lemma plain_keys v :
  plain v = true →
  match v with
  | VObj o => Forall (fun kv => own_name (fst kv) = true) o
  | _ => True
  end.
Proof.
  destruct v as [| | | | | |o]; try done. intros Hp.
  apply plain_obj in Hp as [Ho _]. unfold plain_object in Ho.
  apply andb_prop in Ho as [Ho _]. apply andb_prop in Ho as [Ho _].
  apply andb_prop in Ho as [Hk _]. apply List.Forall_forall.
  rewrite forallb_forall in Hk. exact Hk.
Qed.

(** ** The projector on a plain document *)

Lemma parseComponent_keys data component :
  plain component = true →
  Forall (fun kv => own_name (fst kv) = true) (parseComponent data component).
Proof.
  intros Hp. apply plain_keys in Hp. unfold parseComponent.
  destruct component as [| | | | | |kvs]; try by constructor.
  assert (H : ∀ acc : obj, Forall (fun kv => own_name (fst kv) = true) acc →
    Forall (fun kv => own_name (fst kv) = true)
      (fold_left
         (fun result kv =>
            let '(key, v) := kv in
            if String.eqb key "__type__" then result
            else if is_reference v
                 then assoc_set key (resolveReference data (get v "__id__")) result
                 else assoc_set key v result)
         kvs acc)).
  { induction Hp as [|[k v] kvs Hk Hrest IH]; intros acc Hacc; simpl; [done|].
    apply IH. destruct (String.eqb k "__type__"); [done|].
    destruct (is_reference v); by apply assoc_set_Forall. }
  apply H. constructor.
Qed.

Lemma parseNode_component_plain data comps compRef comps' :
  plain_document data = true → plain compRef = true →
  Forall (fun kc => own_name (fst kc)
                    && forallb (fun kv => own_name (fst kv)) (snd kc)
                    && is_number (obj_get "__compId__" (snd kc)) = true) comps →
  parseNode_component data comps compRef = Ok comps' →
  Forall (fun kc => own_name (fst kc)
                    && forallb (fun kv => own_name (fst kv)) (snd kc)
                    && is_number (obj_get "__compId__" (snd kc)) = true) comps'.
Proof.
  intros Hd Hr Hall. unfold parseNode_component.
  destruct (truthy compRef); cbn [andb]; [|by intros [= <-]].
  destruct (is_undefined (get compRef "__id__")) eqn:Eu; cbn [negb];
    [by intros [= <-]|].
  pose proof (plain_reference _ Hr Eu) as Hnum.
  pose proof (plain_arr_get data (get compRef "__id__") Hd) as Hc.
  destruct (truthy (arr_get data (get compRef "__id__"))); cbn [andb];
    [|by intros [= <-]].
  destruct (truthy (get (arr_get data (get compRef "__id__")) "__type__"));
    [|by intros [= <-]].
  destruct (get (arr_get data (get compRef "__id__")) "__type__") as [| | | |t| |]
    eqn:Et; try discriminate.
  intros [= <-]. apply assoc_set_Forall; [|done]. cbn [fst snd].
  rewrite (plain_kind _ _ Hc Et). cbn [andb]. apply andb_true_intro. split.
  - apply forallb_forall, List.Forall_forall.
    apply assoc_set_Forall; [done|]. by apply parseComponent_keys.
  - unfold obj_get. by rewrite assoc_get_set_eq.
Qed.

Lemma plain_tree_unfold comps kids id props :
  plain_tree (NodeInfo comps kids id props)
  = plain_node (NodeInfo comps kids id props)
    && forallb (fun kv => own_name (fst kv) && plain_tree (snd kv)) kids.
Proof.
  cbn [plain_tree]. f_equal.
  induction kids as [|[k c] kids IH]; [done|]. cbn [forallb fst snd].
  by rewrite IH.
Qed.

Lemma child_of_plain data childRef name id node :
  plain_document data = true → plain childRef = true →
  child_of data childRef = Some (name, id, node) →
  own_name name = true ∧ is_number id = true ∧ plain node = true.
Proof.
  intros Hd Hr. unfold child_of.
  destruct (truthy childRef); cbn [andb]; [|discriminate].
  destruct (is_undefined (get childRef "__id__")) eqn:Eu; cbn [negb];
    [discriminate|].
  destruct (truthy (arr_get data (get childRef "__id__"))
            && eqb (get (arr_get data (get childRef "__id__")) "__type__")
                 (VStr "cc.Node")); [|discriminate].
  intros [= <- <- <-].
  pose proof (plain_arr_get data (get childRef "__id__") Hd) as Hn.
  split; [|split; [by apply plain_reference|done]].
  apply plain_name; [done|apply own_name_Node].
Qed.

Lemma parseNode_plain data depth : ∀ nodeIndex nodeData t,
  plain_document data = true → plain nodeData = true →
  is_number nodeIndex = true →
  parseNode data depth nodeIndex nodeData = Ok t → plain_tree t = true.
Proof.
  induction depth as [|depth IH]; intros nodeIndex nodeData t Hd Hn Hi;
    [discriminate|].
  rewrite parseNode_unfold.
  destruct (foldM (parseNode_component data) [] _) as [comps|] eqn:Ec;
    cbn [mbind result_bind]; [|discriminate].
  destruct (foldM (kid_step data depth) [] _) as [kids|] eqn:Ek;
    cbn [mbind result_bind]; [|discriminate].
  intros [= <-]. rewrite plain_tree_unfold. apply andb_true_intro. split.
  - unfold plain_node. cbn [nodeId components]. rewrite Hi. cbn [andb].
    apply forallb_forall, List.Forall_forall.
    eapply (foldM_invariant_In (parseNode_component data)
              (Forall (fun kc => own_name (fst kc)
                         && forallb (fun kv => own_name (fst kv)) (snd kc)
                         && is_number (obj_get "__compId__" (snd kc)) = true)));
      [|constructor|exact Ec].
    intros acc x acc' Hx Hacc. apply parseNode_component_plain; [done| |done].
    eapply plain_array_items; [|exact Hx]. by apply plain_get.
  - apply forallb_forall, List.Forall_forall.
    eapply (foldM_invariant_In (kid_step data depth)
              (Forall (fun kv => own_name (fst kv) && plain_tree (snd kv) = true)));
      [|constructor|exact Ek].
    intros acc x acc' Hx Hacc. unfold kid_step.
    destruct (child_of data x) as [[[name id] node]|] eqn:Ex; [|by intros [= <-]].
    destruct (parseNode data depth id node) as [child|] eqn:Ep;
      cbn [mbind result_bind]; [|discriminate].
    intros [= <-]. apply assoc_set_Forall; [|done]. cbn [fst snd].
    destruct (child_of_plain data x name id node Hd) as (Hname & Hid & Hnode);
      [|done|].
    { eapply plain_array_items; [|exact Hx]. by apply plain_get. }
    rewrite Hname. cbn [andb]. by apply (IH id node).
Qed.

(** ** The path map of a plain tree *)

Lemma plain_map_Forall pm :
  plain_map pm = true
  ↔ Forall (fun pn => own_name (fst pn) && plain_node (snd pn) = true) pm.
Proof. unfold plain_map. by rewrite forallb_forall, List.Forall_forall. Qed.

Lemma plain_tree_node t : plain_tree t = true → plain_node t = true.
Proof. destruct t. rewrite plain_tree_unfold. by intros [? _]%andb_prop. Qed.

Lemma traverse_plain t : ∀ path pm,
  plain_tree t = true → own_name path = true → plain_map pm = true →
  plain_map (traverse t path pm) = true.
Proof.
  induction t as [comps kids id props IH] using tree_ind.
  intros path pm Ht Hpath Hpm. rewrite traverse_unfold.
  pose proof (plain_tree_node _ Ht) as Hnode.
  rewrite plain_tree_unfold in Ht. apply andb_prop in Ht as [_ Hkids].
  assert (H0 : plain_map (assoc_set path (NodeInfo comps kids id props) pm) = true).
  { apply plain_map_Forall. apply assoc_set_Forall; [|by apply plain_map_Forall].
    cbn [fst snd]. by rewrite Hpath, Hnode. }
  revert H0. generalize (assoc_set path (NodeInfo comps kids id props) pm) as pm0.
  clear Hnode Hpm.
  induction IH as [|[k c] kids' Hc _ IHk]; intros pm0 H0; cbn [fold_left]; [done|].
  cbn [forallb fst snd] in Hkids. apply andb_prop in Hkids as [Hkc Hkids].
  apply andb_prop in Hkc as [Hk Hct].
  apply IHk; [done|]. apply Hc; [done| |done]. by apply own_name_childPath.
Qed.

End PlainFacts.

(* ===================================================================== *)
(** * What the later passes leave of a value                               *)
(* ===================================================================== *)

Module ShapeFacts.
Import Val ValFacts Compact Applier Notions SubstFacts.









End ShapeFacts.

(* ===================================================================== *)
(** * The path map of a tree with slash-free names                         *)
(* ===================================================================== *)

Module PathMore.
Import Val ValFacts Parser ParserFacts PathMap StrFacts PathFacts GraphFacts Shape
       Notions.



















End PathMore.

(* ===================================================================== *)
(** * The removal loop on any list of planned removals                     *)
(* ===================================================================== *)

Module RemovalMore.
Import Val ValFacts Compact CompactFacts Applier RemovalFacts Shape Compiler
       MigrateFacts RemGenFacts Notions.









End RemovalMore.

(* ===================================================================== *)
(** * The claims                                                           *)
(* ===================================================================== *)

Import Val.

(** C1 (as amended).  For every flat record array that is a plain document
    (a tree of values as read from JSON, in which no object owns a property
    named like a member of [Object.prototype], [hasOwnProperty] among them,
    and every [__id__] is a number) with N live records,
    [compactAndReindexPrefab] returns exactly N records; the i-th returned
    record is the i-th live record with nothing changed but the contents of
    its reference objects (stable compaction); a reference whose old target
    is a live slot carries the new index of that record, which is below N,
    while a reference to a tombstone or to a slot outside the array is left
    unchanged.  Hence, when no live record holds a dangling reference, every
    reference is a valid index in [0, N). *)
Theorem compaction_invariant (prefabData : list value) :
  Notions.plain_document prefabData = true →
  let out := Compact.compactAndReindexPrefab prefabData in
  let live := Compact.live_records prefabData in
  length out = length live
  ∧ map Compact.skeleton out = map Compact.skeleton live
  ∧ Forall2 (fun rec rec' =>
               Forall2 (Compact.ref_rewritten prefabData)
                 (Compact.ref_ids rec) (Compact.ref_ids rec')) live out
  ∧ (Compact.no_dangling prefabData = true → Compact.compaction_claim prefabData).
Proof.
  intros _ out live. subst out live.
  rewrite CompactFacts.compactAndReindexPrefab_eq.
  assert (H3 : Forall2 (fun rec rec' =>
               Forall2 (Compact.ref_rewritten prefabData)
                 (Compact.ref_ids rec) (Compact.ref_ids rec'))
             (Compact.live_records prefabData)
             (map (Compact.updateReferences (fst (Compact.build_index prefabData)))
                (Compact.live_records prefabData))).
  { apply CompactFacts.Forall2_map_same. intros rec.
    rewrite CompactFacts.ref_ids_updateReferences.
    apply CompactFacts.Forall2_map_same. intros old.
    apply CompactFacts.remap_rewritten. }
  assert (H2 : map Compact.skeleton
                 (map (Compact.updateReferences (fst (Compact.build_index prefabData)))
                    (Compact.live_records prefabData))
               = map Compact.skeleton (Compact.live_records prefabData)).
  { rewrite map_map. apply map_ext. intros rec.
    apply CompactFacts.skeleton_updateReferences. }
  split; [by rewrite length_map|]. split; [exact H2|]. split; [exact H3|].
  intros Hnd. unfold Compact.compaction_claim.
  rewrite CompactFacts.compactAndReindexPrefab_eq.
  split; [by rewrite length_map|]. split; [|exact H2].
  unfold Compact.no_dangling in Hnd. rewrite forallb_forall in Hnd.
  apply List.Forall_forall. intros rec' Hin. apply in_map_iff in Hin as (rec & <- & Hin).
  specialize (Hnd rec Hin). rewrite forallb_forall in Hnd.
  rewrite CompactFacts.ref_ids_updateReferences.
  apply List.Forall_forall. intros id' Hid. apply in_map_iff in Hid as (id & <- & Hid).
  specialize (Hnd id Hid). destruct id as [| | |z| | |]; try discriminate.
  apply bool_decide_eq_true in Hnd as [z' Hz'].
  pose proof (CompactFacts.remap_rewritten prefabData (VNum z)) as Hr.
  unfold Compact.ref_rewritten in Hr. rewrite Hz' in Hr.
  destruct Hr as (-> & Hrange & _). by exists z'.
Qed.

(** The instance of C1 on an array with one tombstone and no dangling
    reference. *)
Lemma compaction_invariant_witness :
  let prefabData :=
    [ VNull;
      VObj [("__type__", VStr "cc.Node");
            ("_components", VArr [VObj [("__id__", VNum 2)]])];
      VObj [("__type__", VStr "cc.Sprite"); ("node", VObj [("__id__", VNum 1)])] ] in
  Notions.plain_document prefabData = true
  ∧ Compact.no_dangling prefabData = true
  ∧ Compact.compaction_claim prefabData.
Proof.
  intros prefabData. split; [reflexivity|]. split; [reflexivity|].
  apply (compaction_invariant prefabData); reflexivity.
Defined.

(** C1 as stated fails: a reference to a tombstone survives compaction
    unchanged and is not an index below N. *)
Lemma compaction_dangling_counterexample :
  ¬ Compact.compaction_claim [ VObj [("r", VObj [("__id__", VNum 1)])]; VNull ].
Proof.
  intros (_ & H & _).
  replace (Compact.compactAndReindexPrefab _)
    with [VObj [("r", VObj [("__id__", VNum 1)])]] in H by (vm_compute; reflexivity).
  apply Forall_cons in H as [H _]. simpl in H.
  apply Forall_cons in H as [(z & Hz & Hr) _].
  injection Hz as <-. simpl in Hr. lia.
Qed.

(** C4 (as amended).  For every syntactically valid long identifier the
    short form has 23 characters, its first five characters are the first
    five digits in lower case, and decoding it gives the identifier in lower
    case; so the round trip is the identity exactly on identifiers written
    with lower-case digits. *)
Theorem uuid_roundtrip_lowercase (id : string) :
  Codec.valid_long_uuid id = true →
  String.length (Codec.encodeUuid id false) = 23%nat
  ∧ take 5 (list_ascii_of_string (Codec.encodeUuid id false))
    = map Js.toLowerAscii (take 5 (list_ascii_of_string id))
  ∧ Codec.decodeUuid (Codec.encodeUuid id false) = Js.toLowerCase id.
Proof.
  intros Hv.
  assert (Hlen : String.length id = 36%nat).
  { unfold Codec.valid_long_uuid in Hv. apply andb_prop in Hv as [Hl _].
    apply Nat.eqb_eq in Hl. by rewrite CodecFacts.string_length_list. }
  destruct (CodecFacts.valid_long_uuid_digits id Hv)
    as (hex & Ehex & Hl & Hall & Htk & Hasm).
  rewrite (CodecFacts.encodeUuid_pack23 id Hlen), Ehex.
  destruct (CodecFacts.pack23_unpack23 hex Hl Hall) as (Hp & Hpt & Hu).
  rewrite CodecFacts.string_length_list, list_ascii_of_string_of_list_ascii.
  split; [exact Hp|]. split.
  - by rewrite Hpt, Htk.
  - rewrite (CodecFacts.decodeUuid_unpack23 _ Hp), Hu, Hasm. reflexivity.
Qed.

(** The example of the specification, as an instance of C4. *)
Lemma uuid_roundtrip_witness :
  let id := "e9ec654c-97a2-4787-9325-e6a10375219a" in
  Codec.valid_long_uuid id = true
  ∧ String.length (Codec.encodeUuid id false) = 23%nat
  ∧ take 5 (list_ascii_of_string (Codec.encodeUuid id false))
    = list_ascii_of_string "e9ec6"
  ∧ Codec.decodeUuid (Codec.encodeUuid id false) = id.
Proof.
  intros id. split; [reflexivity|].
  exact (uuid_roundtrip_lowercase id eq_refl).
Defined.

(** C4 as stated fails on an identifier written with upper-case digits:
    the round trip returns it in lower case. *)
Lemma uuid_roundtrip_uppercase_counterexample :
  let id := "E9EC654C-97A2-4787-9325-E6A10375219A" in
  Codec.valid_long_uuid id = true
  ∧ Codec.decodeUuid (Codec.encodeUuid id false) ≠ id.
Proof. split; [reflexivity|]. vm_compute. discriminate. Qed.











(** C5 (as amended).  The substitution list is the pairs computed from the
    identifier mapping, stably sorted so that every pair whose "from"
    contains [@] precedes every pair whose "from" does not, followed by the
    fixed fallback pair ("@f9941", "@6c48a"), which comes last although its
    "from" contains [@].  The pass applies the list in that order to every
    string held inside every record.  Consequently, when the mapping
    consists of ("abc@v1", "xyz@v2") and ("abc", "xyz") in either order, the
    string "assets/abc@v1/tex.png" becomes "assets/xyz@v2/tex.png". *)
Theorem substitution_order (mapping : list (string * string)) :
  let res := map (fun kv => {| subst_from := fst kv; subst_to := snd kv |}) mapping in
  Compiler.generateGlobalStringReplaceInstructions mapping
  = List.filter Compiler.hasAt res
    ++ List.filter (fun x => negb (Compiler.hasAt x)) res
    ++ [ {| subst_from := "@f9941"; subst_to := "@6c48a" |} ]
  ∧ Applier.at_pairs_first
      (List.filter Compiler.hasAt res
       ++ List.filter (fun x => negb (Compiler.hasAt x)) res)
  ∧ (∀ data,
       Applier.applyStringReplaceInstructions data
         (Compiler.generateGlobalStringReplaceInstructions mapping)
       = map (Applier.map_strings
                (Applier.string_pass
                   (Compiler.generateGlobalStringReplaceInstructions mapping)))
           data)
  ∧ (Permutation mapping [("abc@v1", "xyz@v2"); ("abc", "xyz")] →
     Applier.string_pass (Compiler.generateGlobalStringReplaceInstructions mapping)
       "assets/abc@v1/tex.png"
     = "assets/xyz@v2/tex.png").
Proof.
  intros res. split; [|split; [|split]].
  - unfold Compiler.generateGlobalStringReplaceInstructions. fold res.
    by rewrite SubstFacts.sort_at_first, <- app_assoc.
  - apply SubstFacts.partition_at_pairs_first.
  - intros data. apply SubstFacts.applyStringReplaceInstructions_spec.
  - intros Hperm. symmetry in Hperm.
    apply Permutation_length_2_inv in Hperm as [->| ->]; vm_compute; reflexivity.
Qed.

(** An instance of C5: the unqualified pair comes first in the mapping and
    is still applied last. *)
Lemma substitution_order_witness :
  let mapping := [("abc", "xyz"); ("abc@v1", "xyz@v2")] in
  Applier.applyStringReplaceInstructions
    [VObj [("_texture", VStr "assets/abc@v1/tex.png")]]
    (Compiler.generateGlobalStringReplaceInstructions mapping)
  = [VObj [("_texture", VStr "assets/xyz@v2/tex.png")]]
  ∧ Applier.string_pass (Compiler.generateGlobalStringReplaceInstructions mapping)
      "assets/abc@v1/tex.png"
    = "assets/xyz@v2/tex.png".
Proof.
  intros mapping. split; [reflexivity|].
  apply (substitution_order mapping). apply perm_swap.
Defined.

(** C5 as stated fails: the fallback pair, whose "from" contains [@], is
    placed after a pair whose "from" does not. *)
Lemma substitution_order_fallback_counterexample :
  ¬ Applier.at_pairs_first
      (Compiler.generateGlobalStringReplaceInstructions [("abc", "xyz")]).
Proof.
  intros H.
  specialize (H 1%nat 0%nat {| subst_from := "@f9941"; subst_to := "@6c48a" |}
                {| subst_from := "abc"; subst_to := "xyz" |}
                eq_refl eq_refl eq_refl eq_refl).
  lia.
Qed.










(* ===================================================================== *)
(** * Further properties of the code                                       *)
(* ===================================================================== *)

Import Val.

(** X1.  The 22-character form: for every syntactically valid long
    identifier, [encodeUuid(id, true)] has 22 characters, the first two of
    which are the first two digits in lower case, and [decodeUuid] of it is
    the identifier in lower case. *)
Theorem uuid_roundtrip_min (id : string) :
  Codec.valid_long_uuid id = true →
  String.length (Codec.encodeUuid id true) = 22%nat
  ∧ take 2 (list_ascii_of_string (Codec.encodeUuid id true))
    = map Js.toLowerAscii (take 2 (list_ascii_of_string id))
  ∧ Codec.decodeUuid (Codec.encodeUuid id true) = Js.toLowerCase id.
Proof.
  intros Hv.
  assert (Hlen : String.length id = 36%nat).
  { unfold Codec.valid_long_uuid in Hv. apply andb_prop in Hv as [Hl _].
    apply Nat.eqb_eq in Hl. by rewrite CodecFacts.string_length_list. }
  destruct (CodecFacts.valid_long_uuid_digits id Hv)
    as (hex & Ehex & Hl & Hall & Htk & Hasm).
  rewrite (CodecMore.encodeUuid_pack22 id Hlen), Ehex.
  destruct (CodecMore.pack22_unpack22 hex Hl Hall) as (Hp & Hpt & Hu).
  rewrite CodecFacts.string_length_list, list_ascii_of_string_of_list_ascii.
  split; [exact Hp|]. split.
  - rewrite Hpt.
    replace (take 2 hex) with (take 2 (take 5 hex)) by (by rewrite take_take).
    rewrite Htk, firstn_map. by rewrite take_take.
  - rewrite (CodecMore.decodeUuid_unpack22 _ Hp), Hu, Hasm. reflexivity.
Qed.

(** The example identifier of the source, in the 22-character form. *)
Lemma uuid_roundtrip_min_witness :
  let id := "fc991dd7-0033-4b80-9d41-c8a86a702e59" in
  Codec.valid_long_uuid id = true
  ∧ Codec.encodeUuid id true = "fcmR3XADNLgJ1ByKhqcC5Z"
  ∧ Codec.decodeUuid (Codec.encodeUuid id true) = id.
Proof.
  intros id. split; [reflexivity|]. split; [reflexivity|].
  exact (proj2 (proj2 (uuid_roundtrip_min id eq_refl))).
Defined.

(** X2.  From the short form and back: a 23-character identifier made of
    five lower-case digits followed by symbols of the alphabet decodes to a
    syntactically valid long identifier whose 23-character encoding is the
    identifier itself; likewise for a 22-character identifier with two
    digits and the 22-character encoding. *)
Theorem short_uuid_roundtrip (s : string) :
  (String.length s = 23%nat → CodecExt.valid_short_uuid 5 s = true →
   Codec.valid_long_uuid (Codec.decodeUuid s) = true
   ∧ Codec.encodeUuid (Codec.decodeUuid s) false = s)
  ∧ (String.length s = 22%nat → CodecExt.valid_short_uuid 2 s = true →
     Codec.valid_long_uuid (Codec.decodeUuid s) = true
     ∧ Codec.encodeUuid (Codec.decodeUuid s) true = s).
Proof.
  rewrite <- (string_of_list_ascii_of_string s).
  generalize (list_ascii_of_string s) as e. clear s. intros e.
  unfold CodecExt.valid_short_uuid.
  rewrite CodecFacts.string_length_list, !list_ascii_of_string_of_list_ascii.
  split; intros Hlen Hshort; apply andb_prop in Hshort as [Hhex Hsym].
  - destruct (CodecMore.unpack23_pack23 e Hlen Hhex Hsym) as (Hl & Hall & Hpack).
    destruct (CodecMore.assemble_digits _ Hl Hall) as (Hal & Hdig & Hvalid).
    rewrite (CodecFacts.decodeUuid_unpack23 e Hlen). split; [exact Hvalid|].
    rewrite CodecFacts.encodeUuid_pack23
      by (by rewrite CodecFacts.string_length_list,
               list_ascii_of_string_of_list_ascii).
    by rewrite list_ascii_of_string_of_list_ascii, Hdig, Hpack.
  - destruct (CodecMore.unpack22_pack22 e Hlen Hhex Hsym) as (Hl & Hall & Hpack).
    destruct (CodecMore.assemble_digits _ Hl Hall) as (Hal & Hdig & Hvalid).
    rewrite (CodecMore.decodeUuid_unpack22 e Hlen). split; [exact Hvalid|].
    rewrite CodecMore.encodeUuid_pack22
      by (by rewrite CodecFacts.string_length_list,
               list_ascii_of_string_of_list_ascii).
    by rewrite list_ascii_of_string_of_list_ascii, Hdig, Hpack.
Qed.

(** The short identifiers of the source's examples. *)
Lemma short_uuid_roundtrip_witness :
  Codec.encodeUuid (Codec.decodeUuid "25f8fxwtsZCT7yF0lzyt5zU") false
  = "25f8fxwtsZCT7yF0lzyt5zU"
  ∧ Codec.encodeUuid (Codec.decodeUuid "fcmR3XADNLgJ1ByKhqcC5Z") true
    = "fcmR3XADNLgJ1ByKhqcC5Z".
Proof.
  split.
  - exact (proj2 (proj1 (short_uuid_roundtrip "25f8fxwtsZCT7yF0lzyt5zU")
                    eq_refl eq_refl)).
  - exact (proj2 (proj2 (short_uuid_roundtrip "fcmR3XADNLgJ1ByKhqcC5Z")
                    eq_refl eq_refl)).
Defined.

(** X3.  [normalizeToShort] is idempotent on every string.  For a
    syntactically valid long identifier its result is the 23-character
    form, which [isShortUUID] does not recognise (it accepts 22 characters
    only); so [normalizeToLong] returns that form unchanged and does not
    give the long identifier back. *)
Theorem normalizeToShort_idempotent (s : string) :
  Codec.normalizeToShort (Codec.normalizeToShort s) = Codec.normalizeToShort s
  ∧ (Codec.valid_long_uuid s = true →
     Codec.normalizeToShort s = Codec.encodeUuid s false
     ∧ String.length (Codec.normalizeToShort s) = 23%nat
     ∧ Codec.isShortUUID (Codec.normalizeToShort s) = false
     ∧ Codec.normalizeToLong (Codec.normalizeToShort s) = Codec.normalizeToShort s).
Proof.
  assert (Hfix : ∀ r, (String.length r <= 23)%nat →
                      Codec.normalizeToShort r = r ∧ (String.length r = 23%nat →
                      Codec.normalizeToLong r = r)).
  { intros r Hr. unfold Codec.normalizeToShort, Codec.normalizeToLong,
      Codec.isLongUUID, Codec.isShortUUID.
    assert ((String.length r =? 36)%nat = false) as -> by (apply Nat.eqb_neq; lia).
    cbn [andb]. split; [by destruct (String.length r =? 22)%nat|].
    by intros ->. }
  split.
  - unfold Codec.normalizeToShort at 2 3.
    destruct (Codec.isShortUUID s) eqn:Es.
    + unfold Codec.normalizeToShort. by rewrite Es.
    + destruct (Codec.isLongUUID s) eqn:El.
      * apply Hfix, CodecMore.encodeUuid_length.
        unfold Codec.isLongUUID in El. apply andb_prop in El as [El _].
        by apply Nat.eqb_eq.
      * unfold Codec.normalizeToShort. by rewrite Es, El.
  - intros Hv.
    assert (Hshort : Codec.normalizeToShort s = Codec.encodeUuid s false).
    { unfold Codec.normalizeToShort.
      rewrite (CodecMore.valid_long_is_long s Hv).
      unfold Codec.isShortUUID.
      unfold Codec.valid_long_uuid in Hv. apply andb_prop in Hv as [Hlen _].
      apply Nat.eqb_eq in Hlen. rewrite <- CodecFacts.string_length_list in Hlen.
      by rewrite Hlen. }
    rewrite Hshort.
    pose proof (CodecMore.encodeUuid_valid_length s Hv) as Hlen.
    split; [done|]. split; [done|]. split.
    + unfold Codec.isShortUUID. by rewrite Hlen.
    + apply Hfix; [lia|done].
Qed.

(** An instance of X3: the long identifier of the source's example. *)
Lemma normalizeToShort_idempotent_witness :
  let id := "8bab7e0c-0380-491c-b66f-b2bef75657c2" in
  Codec.normalizeToShort id = "8bab74MA4BJHLZvsr73VlfC"
  ∧ Codec.normalizeToLong (Codec.normalizeToShort id) = Codec.normalizeToShort id.
Proof.
  intros id. split; [reflexivity|].
  exact (proj2 (proj2 (proj2 (proj2 (normalizeToShort_idempotent id) eq_refl)))).
Defined.

(** X4.  [buildNormalizedScriptMap] gives every entry a field map (the
    empty one when the table has none), so [generateScriptReplacementInstructions]
    never takes the branch that copies all fields of the source component.
    With the shipped table, whose entries have no field map, every
    replacement instruction generated from a plain source path map carries
    no field at all, and its new type is the short form of the entry's
    target. *)
Theorem script_replacement_fields :
  (∀ scriptMap k rule,
     assoc_get k (Config.buildNormalizedScriptMap scriptMap) = Some rule →
     ∃ fm, Config.scriptFieldMap rule = Some fm)
  ∧ (∀ v3PathMap v2PathMap rep,
       Notions.plain_map v3PathMap = true →
       In rep (Compiler.generateScriptReplacementInstructions v3PathMap v2PathMap) →
       rep_fieldsToMigrate rep = []
       ∧ ∃ rule, assoc_get (rep_oldCompType rep) Config.NORMALIZED_SCRIPT_UUID_MAP
                 = Some rule
                 ∧ rep_newCompType rep = Config.scriptTarget rule
                 ∧ String.length (rep_newCompType rep) = 23%nat).
Proof.
  split.
  - intros scriptMap k rule Hget. apply ValFacts.assoc_get_In in Hget.
    unfold Config.buildNormalizedScriptMap in Hget.
    assert (Hinv : ∀ (l : list (string * Config.scriptRule)) acc,
      Forall (fun kv => ∃ fm, Config.scriptFieldMap (snd kv) = Some fm) acc →
      Forall (fun kv => ∃ fm, Config.scriptFieldMap (snd kv) = Some fm)
        (fold_left
           (fun result entry =>
              let '(fromUUID, config) := entry in
              assoc_set (Codec.normalizeToShort fromUUID)
                {| Config.scriptTarget :=
                     Codec.normalizeToShort (Config.scriptTarget config);
                   Config.scriptFieldMap :=
                     Some (default [] (Config.scriptFieldMap config)) |}
                result)
           l acc)).
    { induction l as [|[from config] l IH]; intros acc Hacc; simpl; [done|].
      apply IH. apply GraphFacts.assoc_set_Forall; [|done]. simpl. eauto. }
    specialize (Hinv scriptMap [] (List.Forall_nil _)).
    rewrite List.Forall_forall in Hinv. by apply (Hinv (k, rule)).
  - intros pm3 pm2 rep _ Hin.
    unfold Compiler.generateScriptReplacementInstructions in Hin.
    apply in_flat_map in Hin as ([p n3] & _ & Hin).
    destruct (assoc_get p pm2) as [n2|]; [|done].
    apply in_flat_map in Hin as ([k c3] & _ & Hin).
    destruct (assoc_get k Config.NORMALIZED_SCRIPT_UUID_MAP) as [rule|] eqn:Er;
      [|done].
    destruct (assoc_get k (components n2)) as [c2|]; [|done].
    destruct Hin as [<-|[]]. cbn [rep_fieldsToMigrate rep_oldCompType rep_newCompType].
    pose proof (ValFacts.assoc_get_In _ _ _ Er) as Hr.
    assert (Hshape : Config.scriptFieldMap rule = Some []
                     ∧ String.length (Config.scriptTarget rule) = 23%nat).
    { vm_compute in Hr. destruct Hr as [Hr|[Hr|[Hr|[]]]];
        injection Hr as <- <-; by split. }
    destruct Hshape as [Hfm Hlen].
    split; [unfold Compiler.script_fields; by rewrite Hfm|].
    exists rule. by rewrite Er.
Qed.

(** An instance of X4: a script component with a field; the instruction
    retypes the target's component and carries no field. *)
Lemma script_replacement_fields_witness :
  let kind := "25f8fxwtsZCT7yF0lzyt5zU" in
  let n3 := NodeInfo [(kind, [("speed", VNum 3); ("__compId__", VNum 1)])] []
              (VNum 0) [] in
  let n2 := NodeInfo [(kind, [("speed", VNum 1); ("__compId__", VNum 1)])] []
              (VNum 0) [] in
  ∃ rep,
    Compiler.generateScriptReplacementInstructions [("Root", n3)] [("Root", n2)]
    = [rep]
    ∧ rep_fieldsToMigrate rep = []
    ∧ rep_newCompType rep = "8bab74MA4BJHLZvsr73VlfC".
Proof.
  intros kind n3 n2. eexists. split; [reflexivity|].
  destruct (proj2 script_replacement_fields [("Root", n3)] [("Root", n2)] _
              eq_refl (or_introl eq_refl)) as (Hfields & _).
  split; [exact Hfields|reflexivity].
Defined.

(** X5.  [parseComponent], on a plain record whose property names are
    distinct, returns the properties of the record in their order, without
    [__type__]; a property whose value is a reference object holds the
    resolved reference instead, every other value is kept as it is. *)
Theorem parseComponent_fields (data : list value) (kvs : obj) :
  NoDup (map fst kvs) → Notions.plain (VObj kvs) = true →
  Parser.parseComponent data (VObj kvs)
  = map (fun kv => (fst kv,
                    if Parser.is_reference (snd kv)
                    then Parser.resolveReference data (get (snd kv) "__id__")
                    else snd kv))
      (List.filter (fun kv => negb (String.eqb (fst kv) "__type__")) kvs)
  ∧ assoc_get "__type__" (Parser.parseComponent data (VObj kvs)) = None.
Proof.
  intros Hnd _.
  assert (Heq : Parser.parseComponent data (VObj kvs)
                = map (fun kv => (fst kv,
                         if Parser.is_reference (snd kv)
                         then Parser.resolveReference data (get (snd kv) "__id__")
                         else snd kv))
                    (List.filter (fun kv => negb (String.eqb (fst kv) "__type__"))
                       kvs)).
  { unfold Parser.parseComponent. by rewrite ParserMore.parseComponent_loop. }
  split; [exact Heq|]. rewrite Heq. clear.
  induction kvs as [|[k v] kvs IH]; [done|].
  cbn [List.filter fst snd].
  destruct (String.eqb k "__type__") eqn:E; cbn [negb map assoc_get fst snd];
    [done|].
  rewrite String.eqb_sym, E. exact IH.
Qed.

(** An instance of X5: a Sprite record with a reference to a node record
    and one to an untyped record. *)
Lemma parseComponent_fields_witness :
  let sprite :=
    [ ("__type__", VStr "cc.Sprite"); ("node", VObj [("__id__", VNum 0)]);
      ("_type", VNum 1); ("__prefab", VObj [("__id__", VNum 2)]) ] in
  let data :=
    [ VObj [("__type__", VStr "cc.Node")]; VObj sprite;
      VObj [("fileId", VStr "a1")] ] in
  Parser.parseComponent data (VObj sprite)
  = [ ("node", VObj [("__type__", VStr "cc.Node"); ("__ref__", VNum 0)]);
      ("_type", VNum 1);
      ("__prefab", VObj [("fileId", VStr "a1")]) ].
Proof.
  intros sprite data.
  assert (Hnd : NoDup (map fst sprite)).
  { apply (bool_decide_unpack _). reflexivity. }
  rewrite (proj1 (parseComponent_fields data sprite Hnd eq_refl)). reflexivity.
Defined.

(** X6.  The tree describes the array it was projected from: for every
    entry of the path map of a parsed plain document, the slot [__nodeId__] holds
    a node record, and for every component of the entry the slot
    [__compId__] holds a record whose [__type__], with the first "cc."
    dropped, is the kind under which the component is filed, and to which
    the node's component list holds a reference. *)
Theorem tree_describes_array (depth : nat) (data : list value)
    (t : list (string * tree)) (path : string) (n : tree) :
  Notions.plain_document data = true →
  Parser.parse depth (VArr data) = Ok t →
  In (path, n) (PathMap.buildPathMap t) →
  (∃ s o, to_index (nodeId n) = Some s ∧ data !! s = Some (VObj o)
          ∧ obj_get "__type__" o = VStr "cc.Node"
          ∧ ∀ kind c, In (kind, c) (components n) →
              ∃ cs oc ty ref,
                to_index (obj_get "__compId__" c) = Some cs
                ∧ data !! cs = Some (VObj oc)
                ∧ obj_get "__type__" oc = VStr ty
                ∧ kind = Str.replace_first "cc." "" ty
                ∧ In ref (Parser.array_items (obj_get "_components" o))
                ∧ get ref "__id__" = obj_get "__compId__" c).
Proof.
  intros _ Hparse Hin.
  destruct (GraphFacts.parse_pathmap _ _ _ Hparse) as [Hok _].
  unfold Shape.pathmap_ok in Hok. rewrite forallb_forall in Hok.
  specialize (Hok _ Hin). cbn [snd] in Hok. unfold Shape.node_ok in Hok.
  apply andb_prop in Hok as [Hok Hrefs]. apply andb_prop in Hok as [Hrec Hcomps].
  unfold Parser.is_node_record in Hrec. apply andb_prop in Hrec as [Htruthy Hty].
  destruct (ValFacts.arr_get_truthy _ _ Htruthy) as (s & Hs & Hd).
  destruct (arr_get data (nodeId n)) as [| | | | | |o] eqn:En; try discriminate.
  cbn [get] in Hty, Hrefs. apply ValFacts.eqb_eq in Hty.
  exists s, o. split; [done|]. split; [done|]. split; [done|].
  intros kind c Hc.
  rewrite forallb_forall in Hcomps, Hrefs.
  specialize (Hcomps _ Hc). specialize (Hrefs _ Hc). cbn [snd] in Hrefs.
  destruct (MigrateFacts.comp_ok_slot data kind c Hcomps) as (cs & oc & Hcs & Hdc & Hg).
  unfold Shape.comp_ok in Hcomps. cbn [fst snd] in Hcomps. rewrite Hg in Hcomps.
  destruct (obj_get "__type__" oc) as [| | | |ty| |] eqn:Ety; try discriminate.
  apply andb_prop in Hcomps as [_ Hkind]. apply String.eqb_eq in Hkind.
  apply existsb_exists in Hrefs as (ref & Href & Hid).
  apply andb_prop in Hid as [_ Hid]. apply ValFacts.eqb_eq in Hid.
  by exists cs, oc, ty, ref.
Qed.

(** An instance of X6: a root node with one Sprite. *)
Lemma tree_describes_array_witness :
  let data :=
    [ VObj [("__type__", VStr "cc.Node"); ("_name", VStr "Root");
            ("_components", VArr [VObj [("__id__", VNum 1)]])];
      VObj [("__type__", VStr "cc.Sprite"); ("node", VObj [("__id__", VNum 0)])] ] in
  ∃ t n, Parser.parse 3 (VArr data) = Ok t
         ∧ In ("Root", n) (PathMap.buildPathMap t)
         ∧ ∃ s o, to_index (nodeId n) = Some s ∧ data !! s = Some (VObj o)
                  ∧ obj_get "__type__" o = VStr "cc.Node".
Proof.
  intros data.
  destruct (Parser.parse 3 (VArr data)) as [t|] eqn:E; [|discriminate E].
  pose proof E as Et. injection Et as <-.
  eexists _, _. split; [reflexivity|]. split; [left; reflexivity|].
  destruct (tree_describes_array 3 data _ "Root" _ eq_refl E (or_introl eq_refl))
    as (s & o & H1 & H2 & H3 & _).
  by exists s, o.
Defined.

(** X7.  A parsed plain document is a tree with one root entry, whose node-info
    keeps the slot of the root record.  When the root's name is not empty,
    the path map binds that name to the root node-info, and every other
    path of the path map starts with the root's name followed by "/". *)
Theorem root_path (depth : nat) (data : list value) (t : list (string * tree)) :
  Notions.plain_document data = true →
  Parser.parse depth (VArr data) = Ok t →
  ∃ name root i node,
    t = [(name, root)]
    ∧ data !! i = Some node ∧ nodeId root = VNum (Z.of_nat i)
    ∧ name = toString (or_else (get node "_name") (VStr "Root"))
    ∧ (name ≠ ""%string →
       assoc_get name (PathMap.buildPathMap t) = Some root
       ∧ ∀ path n, In (path, n) (PathMap.buildPathMap t) →
                   path = name ∨ String.prefix (name ++ "/") path = true).
Proof.
  intros _.
  rewrite ParserFacts.parse_array. destruct (forallb _ data); [|discriminate].
  destruct (List.find _ (Parser.node_records data)) as [[i node]|] eqn:Ef;
    [|discriminate].
  apply ParserFacts.find_root_some in Ef as (Hi & _).
  unfold Parser.buildNodeTree.
  destruct (Parser.parseNode data depth (VNum (Z.of_nat i)) node) as [root|] eqn:Ep;
    [|discriminate].
  cbn [mbind result_bind]. intros [= <-].
  eexists _, root, i, node. split; [reflexivity|]. split; [done|].
  split; [by apply ParserFacts.parseNode_nodeId in Ep|]. split; [reflexivity|].
  intros Hname. unfold PathMap.buildPathMap. cbn [fold_left fst snd]. split.
  - by apply PathFacts.traverse_self.
  - intros path n Hin.
    destruct (ParserMore.traverse_keys root _ [] path Hname) as [[]|H]; [|done].
    change path with (fst (path, n)). by apply in_map.
Qed.

(** An instance of X7: a root named "Canvas" with one child. *)
Lemma root_path_witness :
  let ref n := VObj [("__id__", VNum n)] in
  let data :=
    [ VObj [("__type__", VStr "cc.Node"); ("_name", VStr "Canvas");
            ("_parent", VNull); ("_children", VArr [ref 1])];
      VObj [("__type__", VStr "cc.Node"); ("_name", VStr "Panel");
            ("_parent", ref 0)] ] in
  ∃ t root,
    Parser.parse 3 (VArr data) = Ok t
    ∧ assoc_get "Canvas" (PathMap.buildPathMap t) = Some root
    ∧ nodeId root = VNum 0
    ∧ map fst (PathMap.buildPathMap t) = ["Canvas"; "Canvas/Panel"].
Proof.
  intros ref data.
  destruct (Parser.parse 3 (VArr data)) as [t|] eqn:E; [|discriminate E].
  destruct (root_path 3 data t eq_refl E)
    as (name & root & i & node & Ht & Hi & Hid & Hn & H).
  pose proof E as Et. injection Et as <-. injection Ht as <- <-.
  eexists _, _. split; [reflexivity|].
  split; [exact (proj1 (H ltac:(discriminate)))|]. split; reflexivity.
Defined.

(** X8.  Child references that never bottom out make the projection fail:
    if the nodes of a set each have a child reference that designates a
    node of the set (a cycle, in particular a node that lists itself),
    [parseNode] returns no tree for a node of the set, whatever nesting the
    engine allows, and [parsePrefab] returns [null] when the root is such a
    node. *)
Theorem cyclic_children_never_parse (data : list value) (P : value → Prop) :
  (∀ node, P node →
     ∃ ref name id node',
       In ref (Parser.array_items (get node "_children"))
       ∧ Parser.child_of data ref = Some (name, id, node') ∧ P node') →
  (∀ depth nodeIndex node, P node →
     ∃ e, Parser.parseNode data depth nodeIndex node = Throw e)
  ∧ (∀ JSON_parse depth i node,
       Parser.findRootNode (Parser.node_records data) = Some (i, node) → P node →
       Parser.parsePrefab JSON_parse depth (VArr data) = None).
Proof.
  intros Hcycle.
  assert (Hnode : ∀ depth nodeIndex node, P node →
                    ∃ e, Parser.parseNode data depth nodeIndex node = Throw e).
  { induction depth as [|depth IH]; intros nodeIndex node Hp; [by eexists|].
    rewrite ParserFacts.parseNode_unfold.
    destruct (foldM (Parser.parseNode_component data) [] _) as [comps|e];
      cbn [mbind result_bind]; [|eauto].
    destruct (Hcycle node Hp) as (ref & name & id & node' & Hin & Hchild & Hp').
    destruct (ParserMore.foldM_throws (Parser.kid_step data depth) _ ref Hin)
      with (acc := @nil (string * tree)) as [e He].
    { intros acc. unfold Parser.kid_step. rewrite Hchild.
      destruct (IH id node' Hp') as [e He]. rewrite He. by eexists. }
    rewrite He. by eexists. }
  split; [exact Hnode|].
  intros JSON_parse depth i node Hroot Hp.
  unfold Parser.parsePrefab, Parser.construct_and_parse.
  cbn [Parser.constructor mbind result_bind].
  rewrite ParserFacts.parse_array. destruct (forallb _ data); [|done].
  unfold Parser.findRootNode in Hroot. rewrite Hroot. unfold Parser.buildNodeTree.
  destruct (Hnode depth (VNum (Z.of_nat i)) node Hp) as [e He]. by rewrite He.
Qed.

(** An instance of X8: a root that lists itself among its children. *)
Lemma cyclic_children_never_parse_witness :
  let root := VObj [("__type__", VStr "cc.Node"); ("_name", VStr "Root");
                    ("_children", VArr [VObj [("__id__", VNum 0)]])] in
  let JSON_parse := fun _ : string => Throw TypeError in
  let depth := 50%nat in
  Parser.parsePrefab JSON_parse depth (VArr [root]) = None.
Proof.
  intros root JSON_parse depth.
  apply (proj2 (cyclic_children_never_parse [root] (fun v => v = root)
                  ltac:(intros node ->;
                        exists (VObj [("__id__", VNum 0)]), "Root", (VNum 0), root;
                        split; [left; reflexivity|split; reflexivity]))
           JSON_parse depth 0%nat root); reflexivity.
Defined.

(** X9.  [generateMigrationInstructions], on a plain source path map, only
    addresses what both trees have: every instruction comes from a source
    node whose path is also a
    path of the target, and it addresses the slot of the matched target
    node or of one of that node's components.  No instruction carries
    [null] or [undefined].  In particular two trees without a common path
    yield no instruction. *)
Theorem migration_instructions_matched (v3PathMap v2PathMap : list (string * tree)) :
  Notions.plain_map v3PathMap = true →
  (∀ ins, In ins (Compiler.generateMigrationInstructions v3PathMap v2PathMap) →
     (∃ path n3 n2,
         In (path, n3) v3PathMap ∧ assoc_get path v2PathMap = Some n2
         ∧ (Shape.target_slot ins = to_index (nodeId n2)
            ∨ ∃ kind c2, In (kind, c2) (components n2)
                         ∧ Shape.target_slot ins = to_index (Shape.comp_id c2)))
     ∧ Forall (fun v => is_nullish v = false) (Notions.instruction_values ins))
  ∧ ((∀ path n3, In (path, n3) v3PathMap → assoc_get path v2PathMap = None) →
     Compiler.generateMigrationInstructions v3PathMap v2PathMap = []).
Proof.
  intros _.
  assert (Hmatched : ∀ ins,
    In ins (Compiler.generateMigrationInstructions v3PathMap v2PathMap) →
    (∃ path n3 n2,
        In (path, n3) v3PathMap ∧ assoc_get path v2PathMap = Some n2
        ∧ (Shape.target_slot ins = to_index (nodeId n2)
           ∨ ∃ kind c2, In (kind, c2) (components n2)
                        ∧ Shape.target_slot ins = to_index (Shape.comp_id c2)))
    ∧ Forall (fun v => is_nullish v = false) (Notions.instruction_values ins)).
  { intros ins Hin.
    apply PipelineFacts.in_generateMigrationInstructions in Hin
      as (p & n3 & n2 & k & c3 & Hn3 & Hn2 & Hc3 & Hin).
    split; [|by eapply ApplyMore.component_instructions_values].
    exists p, n3, n2. split; [done|]. split; [done|].
    apply PipelineFacts.component_instruction_shape in Hin
      as [(rules & rule & f3 & tgt & fld & _ & _ & _ & _ & _ & _ & ->)
         |(k2 & c2 & Hc2 & Hslot)].
    - by left.
    - right. by exists k2, c2. }
  split; [exact Hmatched|].
  intros Hnone.
  destruct (Compiler.generateMigrationInstructions v3PathMap v2PathMap)
    as [|ins rest] eqn:E; [done|].
  destruct (Hmatched ins (or_introl eq_refl)) as [(p & n3 & n2 & Hn3 & Hn2 & _) _].
  rewrite (Hnone p n3 Hn3) in Hn2. discriminate.
Qed.

(** An instance of X9: the source's only node stands at a path the target
    does not have. *)
Lemma migration_instructions_matched_witness :
  let sprite := [("_type", VNum 1); ("__compId__", VNum 1)] in
  let n3 := NodeInfo [("Sprite", sprite)] [] (VNum 0) [] in
  let n2 := NodeInfo [("Sprite", sprite)] [] (VNum 0) [] in
  Compiler.generateMigrationInstructions [("Canvas", n3)] [("Root", n2)] = [].
Proof.
  intros sprite n3 n2.
  apply (proj2 (migration_instructions_matched [("Canvas", n3)] [("Root", n2)]
                  eq_refl)).
  intros path n [[= <- <-]|[]]. reflexivity.
Defined.

(** X10.  On an array none of whose records is itself an array, and for
    instructions with numeric targets, plain property names and plain
    values, [applyMigrationInstructions] writes fields of existing records
    only: the array keeps its length, a slot that no instruction addresses
    is unchanged, a slot that holds no truthy record (a tombstone in
    particular) is unchanged whatever addresses it, and a slot that holds
    an object keeps holding an object. *)
Theorem migration_writes_in_place (data : list value)
    (instructions : list instruction) :
  Notions.no_array_record data = true →
  Forall (fun ins => Notions.plain_instruction ins = true) instructions →
  let out := Applier.applyMigrationInstructions data instructions in
  length out = length data
  ∧ (∀ s, Forall (fun ins => Shape.target_slot ins ≠ Some s) instructions →
          out !! s = data !! s)
  ∧ (∀ s v, data !! s = Some v → truthy v = false → out !! s = Some v)
  ∧ (∀ s o, data !! s = Some (VObj o) → ∃ o', out !! s = Some (VObj o')).
Proof.
  intros _ _ out. subst out.
  split; [apply ApplyMore.applyMigrationInstructions_length|].
  split; [intros s Hs; by apply MigrateFacts.apply_all_frame|]. split.
  - revert data. unfold Applier.applyMigrationInstructions.
    induction instructions as [|ins rest IH]; intros data s v Hs Hv; simpl; [done|].
    apply IH; [|done]. by apply ApplyMore.apply_instruction_falsy.
  - intros s o Hs. by eapply MigrateFacts.apply_all_keeps_record.
Qed.

(** An instance of X10: an instruction that addresses a tombstone and one
    that addresses a slot outside the array change nothing. *)
Lemma migration_writes_in_place_witness :
  let data := [VNull; VObj [("__type__", VStr "cc.Sprite")]] in
  let instructions :=
    [ TRANSFORM_TO_COMPONENT (VNum 0) "_type" (VNum 1) "Sprite._type";
      TRANSFORM_TO_COMPONENT (VNum 7) "_type" (VNum 1) "Sprite._type" ] in
  Applier.applyMigrationInstructions data instructions !! 0%nat = Some VNull
  ∧ Applier.applyMigrationInstructions data instructions !! 1%nat
    = Some (VObj [("__type__", VStr "cc.Sprite")]).
Proof.
  intros data instructions.
  assert (Hplain : Forall (fun ins => Notions.plain_instruction ins = true)
                     instructions) by (by repeat constructor).
  destruct (migration_writes_in_place data instructions eq_refl Hplain)
    as (_ & Hframe & Hfalsy & _).
  split.
  - by apply Hfalsy.
  - rewrite Hframe; [reflexivity|]; by repeat constructor.
Defined.

(** X11.  Compaction of a plain document leaves no tombstone, changes
    nothing in an array that has none, and is therefore idempotent:
    compacting a second time returns the compacted array. *)
Theorem compaction_idempotent (prefabData : list value) :
  Notions.plain_document prefabData = true →
  Forall (fun rec => Compact.is_live rec = true)
    (Compact.compactAndReindexPrefab prefabData)
  ∧ (Forall (fun rec => Compact.is_live rec = true) prefabData →
     Compact.compactAndReindexPrefab prefabData = prefabData)
  ∧ Compact.compactAndReindexPrefab (Compact.compactAndReindexPrefab prefabData)
    = Compact.compactAndReindexPrefab prefabData.
Proof.
  intros _. split; [apply ApplyMore.compact_live|]. split.
  - apply PipelineFacts.compact_all_live.
  - apply PipelineFacts.compact_all_live, ApplyMore.compact_live.
Qed.

(** An instance of X11: an array without tombstone, with a reference that
    points outside the array. *)
Lemma compaction_idempotent_witness :
  let data := [ VObj [("r", VObj [("__id__", VNum 5)])];
                VObj [("r", VObj [("__id__", VNum 0)])] ] in
  Compact.compactAndReindexPrefab data = data.
Proof.
  intros data. apply (proj1 (proj2 (compaction_idempotent data eq_refl))).
  by repeat constructor.
Defined.

(** X12.  The substitution pass changes strings held by arrays and objects
    and nothing else: the result has the length of the input, every record
    keeps its shape, its property names (even those that contain a "from")
    and its leaves that are not strings, and a string that is itself an
    element of the top-level array is not replaced. *)
Theorem substitution_keeps_structure (prefabData : list value)
    (instructions : list substitution) :
  let out := Applier.applyStringReplaceInstructions prefabData instructions in
  length out = length prefabData
  ∧ map Notions.blank_strings out = map Notions.blank_strings prefabData
  ∧ (∀ i s, prefabData !! i = Some (VStr s) → out !! i = Some (VStr s)).
Proof.
  intros out. subst out. rewrite SubstFacts.applyStringReplaceInstructions_spec.
  split; [apply length_map|]. split.
  - rewrite map_map. apply map_ext. intros v. unfold Notions.blank_strings.
    apply SubstFacts.map_strings_compose.
  - intros i s Hi. change (map ?f ?l) with (f <$> l).
    by rewrite list_lookup_fmap, Hi.
Qed.

(** X13.  Replacing a string by itself changes nothing, whether or not it
    occurs and even when it is empty; so a substitution list all of whose
    pairs map an identifier to itself leaves the data as it is. *)
Theorem substitution_by_itself (prefabData : list value)
    (instructions : list substitution) :
  (∀ s from, Applier.replaceString s from from = s)
  ∧ (Forall (fun ins => subst_to ins = subst_from ins) instructions →
     Applier.applyStringReplaceInstructions prefabData instructions = prefabData).
Proof.
  split; [apply ApplyMore.replaceString_self|].
  intros Hall. rewrite SubstFacts.applyStringReplaceInstructions_spec.
  transitivity (map (fun v : value => v) prefabData); [|apply map_id].
  apply map_ext. intros v.
  rewrite <- (SubstFacts.map_strings_id v) at 2.
  apply SubstFacts.map_strings_ext. intros s. unfold Applier.string_pass.
  induction Hall as [|ins rest Hins _ IH]; [done|]. simpl.
  by rewrite Hins, ApplyMore.replaceString_self.
Qed.

(** An instance of X13: two identity pairs, one of which overlaps itself in
    the string. *)
Lemma substitution_by_itself_witness :
  let data := [VObj [("_uuid", VStr "aaa-f9941"); ("list", VArr [VStr "aa"])]] in
  Applier.applyStringReplaceInstructions data
    [ {| subst_from := "aa"; subst_to := "aa" |};
      {| subst_from := ""; subst_to := "" |} ] = data.
Proof.
  intros data. apply (proj2 (substitution_by_itself data _)).
  by repeat constructor.
Defined.

(** An instance of X12: a string element of the top-level array is kept,
    the same string inside a record is replaced, the property name is not. *)
Lemma substitution_keeps_structure_witness :
  let data := [VStr "abc"; VObj [("abc", VStr "abc")]] in
  let out := Applier.applyStringReplaceInstructions data
               [ {| subst_from := "abc"; subst_to := "x" |} ] in
  out !! 0%nat = Some (VStr "abc")
  ∧ out !! 1%nat = Some (VObj [("abc", VStr "x")]).
Proof.
  intros data out. split; [|reflexivity].
  by apply (proj2 (proj2 (substitution_keeps_structure data _))).
Defined.

(** X14.  [migratePrefab] fails with a [TypeError] whenever one of the two
    documents does not project to a tree, whatever error the parser had
    raised and caught.  When it returns on plain documents, both project
    to trees, the target document is an array, and the result has no more
    records than the target document. *)
Theorem migratePrefab_needs_trees (JSON_parse : string → result value)
    (depth : nat) (uuidMapping : list (string * string))
    (v3PrefabData v2PrefabData : value) :
  (Parser.parsePrefab JSON_parse depth v3PrefabData = None
   ∨ Parser.parsePrefab JSON_parse depth v2PrefabData = None →
   Pipeline.migratePrefab JSON_parse depth uuidMapping v3PrefabData v2PrefabData
   = Throw TypeError)
  ∧ (∀ out,
       Notions.plain v3PrefabData = true → Notions.plain v2PrefabData = true →
       Pipeline.migratePrefab JSON_parse depth uuidMapping v3PrefabData v2PrefabData
       = Ok out →
       ∃ data t3 t2,
         v2PrefabData = VArr data
         ∧ Parser.parsePrefab JSON_parse depth v3PrefabData = Some t3
         ∧ Parser.parsePrefab JSON_parse depth v2PrefabData = Some t2
         ∧ (length out <= length data)%nat).
Proof.
  unfold Pipeline.migratePrefab. split.
  - intros [H|H]; rewrite H; [done|].
    by destruct (Parser.parsePrefab JSON_parse depth v3PrefabData).
  - intros out _ _.
    destruct (Parser.parsePrefab JSON_parse depth v3PrefabData) as [t3|];
      [|discriminate].
    destruct (Parser.parsePrefab JSON_parse depth v2PrefabData) as [t2|];
      [|discriminate].
    cbn [Pipeline.pathMapOf mbind result_bind].
    destruct v2PrefabData as [| | | | |data|]; try discriminate.
    destruct (Compiler.generateRemovalInstructions _ _) as [rems|];
      cbn [mbind result_bind]; [|discriminate].
    unfold Applier.applyRemovalInstructions.
    destruct (Applier.removal_loop _ rems) as [mid|] eqn:Hloop;
      cbn [mbind result_bind]; [|discriminate].
    intros [= <-]. exists data, t3, t2. repeat split.
    rewrite ApplyMore.applyStringReplaceInstructions_length.
    etransitivity; [apply ApplyMore.compact_length|].
    rewrite (ApplyMore.removal_loop_length _ _ _ Hloop).
    unfold Applier.applyScriptReplacementInstructions.
    etransitivity; [apply ApplyMore.compact_length|].
    by rewrite ApplyMore.apply_replacements_length,
         ApplyMore.applyMigrationInstructions_length.
Qed.

(** An instance of X14: a source document without root node, and a run
    that returns. *)
Lemma migratePrefab_needs_trees_witness :
  let JSON_parse := fun _ : string => Throw TypeError in
  let v3 := VArr [VObj [("__type__", VStr "cc.Node");
                        ("_parent", VObj [("__id__", VNum 0)])]] in
  let v2 := VArr [VObj [("__type__", VStr "cc.Node")]] in
  Parser.parse 3 v3 = Throw RootNodeNotFound
  ∧ Pipeline.migratePrefab JSON_parse 3 [] v3 v2 = Throw TypeError
  ∧ ∃ out, Pipeline.migratePrefab JSON_parse 3 [] v2 v2 = Ok out
           ∧ (length out <= 1)%nat.
Proof.
  intros JSON_parse v3 v2. split; [reflexivity|]. split.
  - apply (proj1 (migratePrefab_needs_trees JSON_parse 3 [] v3 v2)).
    left. reflexivity.
  - destruct (Pipeline.migratePrefab JSON_parse 3 [] v2 v2) as [out|] eqn:E;
      [|discriminate E].
    exists out. split; [reflexivity|].
    destruct (proj2 (migratePrefab_needs_trees JSON_parse 3 [] v2 v2) out
                eq_refl eq_refl E) as (data & t3 & t2 & Hd & _ & _ & Hlen).
    injection Hd as <-. exact Hlen.
Defined.

(** X15.  [parseArgs] reads the command line from left to right: a flag
    ([--overwrite], [--recursive]) is set to [true] and consumes nothing,
    any other [--key] takes the next argument as its value, verbatim even
    when that argument itself starts with "--", and a word that is not an
    option is ignored; a later occurrence of a key overwrites an earlier
    one.  The map is returned when [v3] and [v2] end up truthy, otherwise
    the process exits. *)
Theorem parseArgs_rendered (node script : string) (items : list Cli.cli_item) :
  Forall (fun it => Cli.item_ok it = true) items →
  Cli.parseArgs (node :: script :: flat_map Cli.render items)
  = let map := fold_left Cli.item_effect items [] in
    if truthy (obj_get "v3" map) && truthy (obj_get "v2" map)
    then Some map else None.
Proof.
  intros Hall. unfold Cli.parseArgs, Js.slice_from. cbv zeta.
  change (drop 2 (node :: script :: flat_map Cli.render items))
    with (flat_map Cli.render items).
  rewrite CliFacts.parseArgs_loop_render by done.
  by destruct (truthy (obj_get "v3" _)), (truthy (obj_get "v2" _)).
Qed.

(** An instance of X15: the value of [--v2] looks like an option, and a
    stray word stands between the options. *)
Lemma parseArgs_rendered_witness :
  Cli.parseArgs ["node"; "migrate.js"; "--v3"; "a.prefab"; "stray"; "--v2";
                 "--weird"; "--overwrite"; "--v3"; "b.prefab"]
  = Some [("v3", VStr "b.prefab"); ("v2", VStr "--weird");
          ("overwrite", VBool true)].
Proof.
  apply (parseArgs_rendered "node" "migrate.js"
           [Cli.Opt "v3" "a.prefab"; Cli.Word "stray"; Cli.Opt "v2" "--weird";
            Cli.Flag "overwrite"; Cli.Opt "v3" "b.prefab"]).
  by repeat constructor.
Defined.

(** X16.  When [parseArgs] returns, [v3] and [v2] are non-empty strings,
    each one of the arguments of the command line; a command line on which
    one of them is missing, empty, or is the last argument without a
    value, makes the process exit. *)
Theorem parseArgs_returns (argv : list string) (map : obj) :
  Cli.parseArgs argv = Some map →
  ∃ a b,
    obj_get "v3" map = VStr a ∧ a ≠ ""%string ∧ In a (drop 2 argv)
    ∧ obj_get "v2" map = VStr b ∧ b ≠ ""%string ∧ In b (drop 2 argv).
Proof.
  unfold Cli.parseArgs, Js.slice_from.
  destruct (truthy (obj_get "v3" _)) eqn:T3; [|discriminate].
  destruct (truthy (obj_get "v2" _)) eqn:T2; [|discriminate].
  cbn [negb orb]. intros [= <-].
  assert (Hval : ∀ k, Cli.is_flag_name k = false →
            truthy (obj_get k (Cli.parseArgs_loop (drop 2 argv) [])) = true →
            ∃ a, obj_get k (Cli.parseArgs_loop (drop 2 argv) []) = VStr a
                 ∧ a ≠ ""%string ∧ In a (drop 2 argv)).
  { intros k Hk Ht.
    destruct (CliFacts.parseArgs_loop_values (drop 2 argv) (length (drop 2 argv))
                (drop 2 argv) [] (le_n _) (fun a H => H) (fun _ _ => or_introl eq_refl)
                k Hk) as [Hu|(a & Ha & Hin)].
    - rewrite Hu in Ht. discriminate.
    - exists a. split; [done|]. split; [|done].
      intros ->. rewrite Ha in Ht. discriminate. }
  destruct (Hval "v3" eq_refl T3) as (a & Ha & Hne & Hin).
  destruct (Hval "v2" eq_refl T2) as (b & Hb & Hnb & Hinb).
  by exists a, b.
Qed.

(** An instance of X16, and a command line whose [--v3] has no value. *)
Lemma parseArgs_returns_witness :
  (∃ a b, obj_get "v3" [("v3", VStr "s.prefab"); ("v2", VStr "t.prefab")] = VStr a
          ∧ a ≠ ""%string ∧ obj_get "v2" [("v3", VStr "s.prefab");
                                          ("v2", VStr "t.prefab")] = VStr b
          ∧ b ≠ ""%string)
  ∧ Cli.parseArgs ["node"; "migrate.js"; "--v2"; "t.prefab"; "--v3"] = None.
Proof.
  split; [|reflexivity].
  destruct (parseArgs_returns
              ["node"; "migrate.js"; "--v3"; "s.prefab"; "--v2"; "t.prefab"]
              [("v3", VStr "s.prefab"); ("v2", VStr "t.prefab")] eq_refl)
    as (a & b & Ha & Hna & _ & Hb & Hnb & _).
  by exists a, b.
Defined.

(** X17.  [buildV2Index] binds a file name to the identifier of the last
    entry of the target table that has that file name, and binds nothing
    else: every binding of the index comes from an entry whose
    [relativePath] is a non-empty string with that file name. *)
Theorem v2Index_last_wins (path_basename : string → string) (v2Data : obj)
    (index : list (string * string)) :
  Resource.buildV2Index path_basename v2Data = Ok index →
  (∀ f u, assoc_get f index = Some u →
          ∃ info, In (u, info) v2Data
                  ∧ Resource.v2_filename path_basename info = Some f)
  ∧ (∀ before after u info f,
       v2Data = before ++ (u, info) :: after →
       Resource.v2_filename path_basename info = Some f →
       Forall (fun entry => Resource.v2_filename path_basename (snd entry) ≠ Some f)
         after →
       assoc_get f index = Some u).
Proof.
  intros Hb. split.
  - intros f u. by apply ResourceFacts.buildV2Index_sound.
  - intros before after u info f -> Hf Hafter.
    unfold Resource.buildV2Index in Hb. rewrite ParserFacts.foldM_app in Hb.
    destruct (foldM _ [] before) as [index0|]; cbn [mbind result_bind] in Hb;
      [|discriminate Hb].
    cbn [foldM] in Hb.
    pose proof (ResourceFacts.buildV2Index_step_cases path_basename index0 u info)
      as Hc.
    rewrite Hf in Hc. rewrite Hc in Hb. cbn [mbind result_bind] in Hb.
    apply (ResourceFacts.buildV2Index_keep path_basename after _ _ f u Hb Hafter).
    apply ValFacts.assoc_get_set_eq.
Qed.

(** An instance of X17: two entries of the target table with the file name
    "bg.png". *)
Lemma v2Index_last_wins_witness :
  let basename := fun s : string =>
    default ""%string (last (Resource.split_on "/"%char s)) in
  let v2Data :=
    [ ("u1", VObj [("relativePath", VStr "ui/bg.png")]);
      ("u2", VObj [("relativePath", VStr "hud/bg.png")]);
      ("u3", VObj [("relativePath", VStr "hud/icon.png")]) ] in
  ∃ index, Resource.buildV2Index basename v2Data = Ok index
           ∧ assoc_get "bg.png" index = Some "u2".
Proof.
  intros basename v2Data.
  destruct (Resource.buildV2Index basename v2Data) as [index|] eqn:E;
    [|discriminate E].
  exists index. split; [reflexivity|].
  apply (proj2 (v2Index_last_wins basename v2Data index E)
           [("u1", VObj [("relativePath", VStr "ui/bg.png")])]
           [("u3", VObj [("relativePath", VStr "hud/icon.png")])]
           "u2" (VObj [("relativePath", VStr "hud/bg.png")]) "bg.png");
    [reflexivity|reflexivity|].
  repeat constructor. discriminate.
Defined.

(** X18.  [generateUuidMapping] classifies every entry of the source table
    that has a [url], in table order: an entry whose file name finds an
    identifier in the index goes to [mapping] under its own key, with that
    identifier, the file name and the url; every other such entry goes to
    [unmatched]; an entry without [url] goes nowhere.  (The keys of the
    table are distinct and none is "__proto__".) *)
Theorem uuid_mapping_partition (path_basename : string → string)
    (v3Data v2Data : obj) (mapping : list (string * mapped))
    (unmatched : list unmatchedEntry) :
  Resource.generateUuidMapping path_basename v3Data v2Data
  = Ok (mapping, unmatched) →
  NoDup (map fst v3Data) → "__proto__" ∉ map fst v3Data →
  ∃ index,
    Resource.buildV2Index path_basename v2Data = Ok index
    ∧ mapping
      = map (Resource.mapped_entry path_basename index)
          (List.filter
             (fun e => Resource.has_url e && Resource.matched path_basename index e)
             v3Data)
    ∧ unmatched
      = map (Resource.unmatched_entry path_basename)
          (List.filter
             (fun e => Resource.has_url e
                       && negb (Resource.matched path_basename index e))
             v3Data)
    ∧ (length mapping + length unmatched
       = length (List.filter Resource.has_url v3Data))%nat.
Proof.
  unfold Resource.generateUuidMapping. intros Hgen Hnd Hproto.
  destruct (Resource.buildV2Index path_basename v2Data) as [index|];
    cbn [mbind result_bind] in Hgen; [|discriminate Hgen].
  exists index. split; [done|].
  destruct (ResourceFacts.generateUuidMapping_loop path_basename index v3Data
              [] [] mapping unmatched Hgen Hnd Hproto) as [-> ->].
  cbn [app]. split; [done|]. split; [done|].
  rewrite !length_map. clear.
  induction v3Data as [|e l IH]; [done|]. cbn [List.filter].
  destruct (Resource.has_url e); cbn [andb]; [|exact IH].
  destruct (Resource.matched path_basename index e); cbn [negb length]; lia.
Qed.

(** An instance of X18: an atlas frame "bg.png@f9941" falls back to the
    name before the "@"; "font.ttf" has no counterpart. *)
Lemma uuid_mapping_partition_witness :
  let basename := fun s : string =>
    default ""%string (last (Resource.split_on "/"%char s)) in
  let v3Data :=
    [ ("a1", VObj [("url", VStr "db://internal/bg.png@f9941")]);
      ("a2", VObj [("url", VStr "db://internal/font.ttf")]);
      ("a3", VObj [("name", VStr "no url")]) ] in
  let v2Data := [ ("b1", VObj [("relativePath", VStr "ui/bg.png")]) ] in
  Resource.generateUuidMapping basename v3Data v2Data
  = Ok ( [ ("a1", {| v2Uuid := "b1"; filename := "bg.png@f9941";
                     v3Url := "db://internal/bg.png@f9941" |}) ],
         [ {| um_v3Uuid := "a2"; um_filename := "font.ttf";
              um_v3Url := "db://internal/font.ttf" |} ] ).
Proof.
  intros basename v3Data v2Data.
  destruct (Resource.generateUuidMapping basename v3Data v2Data)
    as [[mapping unmatched]|] eqn:E; [|discriminate E].
  destruct (uuid_mapping_partition basename v3Data v2Data mapping unmatched E)
    as (index & Hindex & -> & -> & _).
  - apply (bool_decide_unpack _). reflexivity.
  - apply (bool_decide_unpack _). reflexivity.
  - injection Hindex as <-. reflexivity.
Defined.

(** X19.  The two loops of [generateUuidMapping] throw on malformed
    entries only: the call returns when every entry of both tables is
    neither [null] nor [undefined] and carries a [relativePath]
    (respectively [url]) that is falsy or a string, and raises a
    [TypeError] otherwise. *)
Theorem uuid_mapping_throws (path_basename : string → string) (v3Data v2Data : obj) :
  let well_formed :=
    forallb (fun e => Resource.entry_ok "relativePath" (snd e)) v2Data
    && forallb (fun e => Resource.entry_ok "url" (snd e)) v3Data in
  (well_formed = true →
   ∃ r, Resource.generateUuidMapping path_basename v3Data v2Data = Ok r)
  ∧ (well_formed = false →
     Resource.generateUuidMapping path_basename v3Data v2Data = Throw TypeError).
Proof.
  intros well_formed. subst well_formed. unfold Resource.generateUuidMapping.
  unfold Resource.buildV2Index.
  rewrite (ResourceFacts.foldM_total (Resource.buildV2Index_step path_basename)
             (fun e => Resource.entry_ok "relativePath" (snd e))
             (fun index e =>
                match Resource.v2_filename path_basename (snd e) with
                | Some f => assoc_set f (fst e) index
                | None => index
                end));
    [|intros acc [u info]; apply ResourceFacts.buildV2Index_step_total].
  destruct (forallb _ v2Data); cbn [mbind result_bind andb]; [|by split].
  set (index := fold_left _ v2Data []).
  rewrite (ResourceFacts.foldM_total
             (Resource.generateUuidMapping_step path_basename index)
             (fun e => Resource.entry_ok "url" (snd e))
             (fun acc e =>
                if Resource.has_url e then
                  if Resource.matched path_basename index e
                  then (Resource.put_mapping (fst e)
                          (snd (Resource.mapped_entry path_basename index e))
                          (fst acc), snd acc)
                  else (fst acc,
                        snd acc ++ [Resource.unmatched_entry path_basename e])
                else acc)).
  - destruct (forallb _ v3Data); split; try done. intros _. by eexists.
  - intros [mapping unmatched] [k info].
    rewrite ResourceFacts.generateUuidMapping_step_total. cbn [fst snd].
    destruct (Resource.entry_ok "url" info); [|done].
    by destruct (Resource.has_url (k, info)).
Qed.

(** An instance of X19: a [null] entry in the target table. *)
Lemma uuid_mapping_throws_witness :
  let basename := fun s : string => s in
  Resource.generateUuidMapping basename
    [("a1", VObj [("url", VStr "db://internal/bg.png")])]
    [("b1", VNull)] = Throw TypeError.
Proof.
  intros basename.
  apply (proj2 (uuid_mapping_throws basename _ [("b1", VNull)])). reflexivity.
Defined.

(** X20.  With the shipped script table, applying the type replacements
    generated from plain path maps to a plain array without tombstones
    changes discriminators
    and nothing else: the array keeps its length, every slot keeps every
    property other than [__type__], and a slot that is not the component
    slot of an instruction is unchanged. *)
Theorem script_replacement_retypes_only (v3PathMap v2PathMap : list (string * tree))
    (data : list value) :
  Notions.plain_map v3PathMap = true → Notions.plain_map v2PathMap = true →
  Notions.plain_document data = true →
  Forall (fun rec => Compact.is_live rec = true) data →
  let reps := Compiler.generateScriptReplacementInstructions v3PathMap v2PathMap in
  let out := Applier.applyScriptReplacementInstructions data reps in
  length out = length data
  ∧ (∀ s v, data !! s = Some v →
            ∃ v', out !! s = Some v'
                  ∧ ∀ k, k ≠ "__type__"%string → get v' k = get v k)
  ∧ (∀ s, Forall (fun rep => to_index (rep_oldCompId rep) ≠ Some s) reps →
          out !! s = data !! s).
Proof.
  intros _ _ _ Hlive reps out.
  assert (Hout : out = fold_left Applier.apply_replacement reps data).
  { unfold out, Applier.applyScriptReplacementInstructions.
    by apply PipelineFacts.compact_all_live, PipelineFacts.apply_replacements_live. }
  rewrite Hout. split; [apply ApplyMore.apply_replacements_length|]. split.
  - intros s v Hs. apply ApplyMore.apply_replacements_retype; [|done].
    apply List.Forall_forall. intros rep Hrep.
    by eapply ApplyMore.generated_replacement_fields.
  - intros s Hs. by apply PipelineFacts.apply_replacements_frame.
Qed.

(** An instance of X20: the script component of slot 1 is retyped, its
    field stays. *)
Lemma script_replacement_retypes_only_witness :
  let kind := "25f8fxwtsZCT7yF0lzyt5zU" in
  let n3 := NodeInfo [(kind, [("speed", VNum 3); ("__compId__", VNum 1)])] []
              (VNum 0) [] in
  let n2 := NodeInfo [(kind, [("speed", VNum 1); ("__compId__", VNum 1)])] []
              (VNum 0) [] in
  let data := [ VObj [("__type__", VStr "cc.Node")];
                VObj [("__type__", VStr kind); ("speed", VNum 1)] ] in
  let out := Applier.applyScriptReplacementInstructions data
               (Compiler.generateScriptReplacementInstructions
                  [("Root", n3)] [("Root", n2)]) in
  out !! 1%nat = Some (VObj [("__type__", VStr "8bab74MA4BJHLZvsr73VlfC");
                             ("speed", VNum 1)])
  ∧ ∃ v', out !! 1%nat = Some v' ∧ get v' "speed" = VNum 1.
Proof.
  intros kind n3 n2 data out. split; [reflexivity|].
  destruct (script_replacement_retypes_only [("Root", n3)] [("Root", n2)] data
              eq_refl eq_refl eq_refl)
    as (_ & Hkeep & _); [by repeat constructor|].
  destruct (Hkeep 1%nat _ eq_refl) as (v' & Hv' & Hk).
  exists v'. split; [exact Hv'|]. by rewrite Hk.
Defined.

(** X21.  The substitution list computed from the two resource tables
    ends with the fixed fallback pair; every pair before it maps the key
    of an entry of the source table that has a [url] to a non-empty
    identifier that is a key of the target table; there is one such pair
    per mapped entry.  (The keys of the source table are distinct and none
    is "__proto__".) *)
Theorem string_replace_instructions_sound (path_basename : string → string)
    (v3Data v2Data : obj) (instructions : list substitution) :
  Resource.stringReplaceInstructions path_basename v3Data v2Data = Ok instructions →
  NoDup (map fst v3Data) → "__proto__" ∉ map fst v3Data →
  ∃ pairs mapping unmatched,
    Resource.generateUuidMapping path_basename v3Data v2Data = Ok (mapping, unmatched)
    ∧ instructions = pairs ++ [ {| subst_from := "@f9941"; subst_to := "@6c48a" |} ]
    ∧ length pairs = length mapping
    ∧ Forall (fun ins =>
                subst_to ins ≠ ""%string
                ∧ (∃ info, In (subst_from ins, info) v3Data
                           ∧ Resource.has_url (subst_from ins, info) = true)
                ∧ ∃ info2, In (subst_to ins, info2) v2Data)
        pairs.
Proof.
  unfold Resource.stringReplaceInstructions. intros Hgen Hnd Hproto.
  destruct (Resource.generateUuidMapping path_basename v3Data v2Data)
    as [[mapping unmatched]|] eqn:Em; cbn [mbind result_bind] in Hgen;
    [|discriminate Hgen].
  injection Hgen as <-. cbn [fst].
  pose proof Em as Eloop. unfold Resource.generateUuidMapping in Eloop.
  destruct (Resource.buildV2Index path_basename v2Data) as [index|] eqn:Hindex;
    cbn [mbind result_bind] in Eloop; [|discriminate Eloop].
  destruct (ResourceFacts.generateUuidMapping_loop path_basename index v3Data
              [] [] mapping unmatched Eloop Hnd Hproto) as [Hmapping _].
  cbn [app] in Hmapping.
  eexists _, mapping, unmatched. split; [done|].
  unfold Compiler.generateGlobalStringReplaceInstructions. split; [reflexivity|].
  split.
  { rewrite (Permutation_length (SortFacts.sort_perm _ _)). by rewrite !length_map. }
  apply List.Forall_forall. intros ins Hin.
  apply (Permutation_in _ (SortFacts.sort_perm _ _)) in Hin.
  apply in_map_iff in Hin as ([k0 v0] & <- & Hin).
  apply in_map_iff in Hin as ([k m] & [= <- <-] & Hin).
  cbn [subst_from subst_to fst snd].
  rewrite Hmapping in Hin. apply in_map_iff in Hin as ([k' info] & Hme & Hin).
  apply filter_In in Hin as [Hin Hcond]. apply andb_prop in Hcond as [Hurl Hmatched].
  unfold Resource.mapped_entry in Hme. cbn [fst snd] in Hme.
  injection Hme as <- <-. cbn [v2Uuid].
  unfold Resource.matched, Resource.found in Hmatched. cbn [snd] in Hmatched.
  destruct (Resource.lookup_filename index _) as [uid|] eqn:El; [|discriminate].
  cbn [default from_option id]. split.
  { intros ->. discriminate. }
  split; [by exists info|].
  destruct (ResourceFacts.lookup_filename_sound path_basename _ _ _ _ Hindex El)
    as (info2 & f & Hin2 & _).
  by exists info2.
Qed.

(** An instance of X21: one mapped entry, one without counterpart. *)
Lemma string_replace_instructions_sound_witness :
  let basename := fun s : string =>
    default ""%string (last (Resource.split_on "/"%char s)) in
  let v3Data :=
    [ ("a1", VObj [("url", VStr "db://internal/bg.png@f9941")]);
      ("a2", VObj [("url", VStr "db://internal/font.ttf")]) ] in
  let v2Data := [ ("b1", VObj [("relativePath", VStr "ui/bg.png")]) ] in
  ∃ pairs,
    Resource.stringReplaceInstructions basename v3Data v2Data
    = Ok (pairs ++ [ {| subst_from := "@f9941"; subst_to := "@6c48a" |} ])
    ∧ length pairs = 1%nat
    ∧ Forall (fun ins => subst_to ins ≠ ""%string) pairs.
Proof.
  intros basename v3Data v2Data.
  destruct (Resource.stringReplaceInstructions basename v3Data v2Data)
    as [instructions|] eqn:E; [|discriminate E].
  destruct (string_replace_instructions_sound basename v3Data v2Data instructions E)
    as (pairs & mapping & unmatched & Hm & -> & Hlen & Hall).
  - apply (bool_decide_unpack _). reflexivity.
  - apply (bool_decide_unpack _). reflexivity.
  - exists pairs. split; [reflexivity|]. split.
    + rewrite Hlen. by injection Hm as <- _.
    + eapply Forall_impl; [exact Hall|]. by intros ins (? & _).
Defined.

(** X22.  On a "db://" URL [extractFilename] returns what follows the last
    "/": the result contains no "/", and the URL is some directory part,
    a "/", and the result. *)
Theorem extractFilename_db (path_basename : string → string) (url : string) :
  Str.startsWith "db://" url = true →
  Str.includes "/" (Resource.extractFilename path_basename url) = false
  ∧ ∃ dir, url = (dir ++ "/" ++ Resource.extractFilename path_basename url)%string.
Proof.
  intros Hdb. unfold Resource.extractFilename. rewrite Hdb.
  destruct (ResourceFacts.split_on_pieces "/"%char url) as (ps & p & Hsplit & Hp & Hs).
  rewrite Hsplit, last_snoc. cbn [default from_option id]. split; [exact Hp|].
  destruct ps as [|q ps].
  - exfalso. cbn [fold_right] in Hs. subst p.
    unfold Str.startsWith in Hdb. apply StrFacts.prefix_iff in Hdb as [rest ->].
    change ("db://" ++ rest)%string with ("db:" ++ "/" ++ ("/" ++ rest))%string in Hp.
    by rewrite StrFacts.includes_intro in Hp.
  - destruct (ResourceFacts.join_last "/"%char (q :: ps) p) as [dir Hdir]; [done|].
    exists dir. by rewrite Hs, Hdir.
Qed.

(** An instance of X22. *)
Lemma extractFilename_db_witness :
  let basename := fun s : string => s in
  Resource.extractFilename basename "db://internal/ui/bg.png@f9941" = "bg.png@f9941"
  ∧ Str.includes "/"
      (Resource.extractFilename basename "db://internal/ui/bg.png@f9941") = false.
Proof.
  intros basename. split; [reflexivity|].
  exact (proj1 (extractFilename_db basename "db://internal/ui/bg.png@f9941" eq_refl)).
Defined.

(** X23.  The projection of a plain document is plain: every slot that the
    tree records is a number, and no root name, child name, path,
    component kind or component field name in it is the name of a member
    of [Object.prototype]; so the path maps that [migratePrefab] hands to
    the instruction generators are plain. *)
Theorem plain_document_plain_map (depth : nat) (data : list value)
    (t : list (string * tree)) :
  Notions.plain_document data = true →
  Parser.parse depth (VArr data) = Ok t →
  Forall (fun kv => Notions.own_name (fst kv) && Notions.plain_tree (snd kv) = true) t
  ∧ Notions.plain_map (PathMap.buildPathMap t) = true.
Proof.
  intros Hd. rewrite ParserFacts.parse_array.
  destruct (forallb _ data); [|discriminate].
  destruct (List.find _ (Parser.node_records data)) as [[i node]|] eqn:Ef;
    [|discriminate].
  apply ParserFacts.find_root_some in Ef as (Hi & _).
  unfold Parser.buildNodeTree.
  destruct (Parser.parseNode data depth (VNum (Z.of_nat i)) node) as [root|] eqn:Ep;
    cbn [mbind result_bind]; [|discriminate].
  intros [= <-].
  assert (Hn : Notions.plain node = true).
  { unfold Notions.plain_document in Hd. rewrite forallb_forall in Hd. apply Hd.
    apply list_elem_of_In. by eapply list_elem_of_lookup_2. }
  pose proof (PlainFacts.parseNode_plain data depth (VNum (Z.of_nat i)) node root
                Hd Hn eq_refl Ep) as Ht.
  pose proof (PlainFacts.plain_name node "Root" Hn eq_refl) as Hname.
  split.
  - constructor; [|constructor]. cbn [fst snd]. by rewrite Hname, Ht.
  - unfold PathMap.buildPathMap. cbn [fold_left fst snd].
    by apply PlainFacts.traverse_plain.
Qed.

(** An instance of X23: a root with a component and a child. *)
Lemma plain_document_plain_map_witness :
  let ref n := VObj [("__id__", VNum n)] in
  let data :=
    [ VObj [("__type__", VStr "cc.Node"); ("_name", VStr "Canvas");
            ("_components", VArr [ref 2]); ("_children", VArr [ref 1])];
      VObj [("__type__", VStr "cc.Node"); ("_name", VStr "Panel");
            ("_parent", ref 0)];
      VObj [("__type__", VStr "cc.Sprite"); ("node", ref 0); ("_type", VNum 1)] ] in
  ∃ t, Parser.parse 3 (VArr data) = Ok t
       ∧ map fst (PathMap.buildPathMap t) = ["Canvas"; "Canvas/Panel"]
       ∧ Notions.plain_map (PathMap.buildPathMap t) = true.
Proof.
  intros ref data.
  destruct (Parser.parse 3 (VArr data)) as [t|] eqn:E; [|discriminate E].
  exists t. split; [reflexivity|].
  split; [by injection E as <-|].
  exact (proj2 (plain_document_plain_map 3 data t eq_refl E)).
Defined.
